(** * TinyGo optimizer passes and precise GC runtime: a shallow embedding

    The development follows two source files of the repository:
    - [compiler/optimizer.go]: the optimisation driver and the Go-specific
      rewrites over the LLVM module (maps, string-to-bytes, allocs, traps)
      with the escape and read-only analyses;
    - [src/runtime/gc_precise.go] and the WebAssembly runtime file: heap
      bounds, allocator initialisation and the mark phase of the collector. *)

From Stdlib Require Import ZArith List String Bool Lia Arith PeanoNat.
Import ListNotations.

(* ================================================================= *)
(** * Part I: definitions *)
(* ================================================================= *)

(** ** Outcomes of fallible code

    [Done] is a normal return, [Panic] a Go [panic(...)] or [runtimePanic],
    [Undefined] a call into the IR library outside its contract (a handle
    to an erased instruction, [ZExtValue] of something that is not a
    constant integer), [NoReturn] a recursion that does not come back. *)

Inductive outcome (A : Type) : Type :=
| Done (a : A)
| Panic (msg : string)
| Undefined
| NoReturn.

Arguments Done {A} a.
Arguments Panic {A} msg.
Arguments Undefined {A}.
Arguments NoReturn {A}.

Definition bind {A B : Type} (x : outcome A) (k : A -> outcome B) : outcome B :=
  match x with
  | Done a => k a
  | Panic msg => Panic msg
  | Undefined => Undefined
  | NoReturn => NoReturn
  end.

Declare Scope outcome_scope.
Delimit Scope outcome_scope with outcome.
Notation "x <- e ;; k" := (bind e (fun x => k))
  (at level 61, e at next level, right associativity) : outcome_scope.
Notation "' p <- e ;; k" := (bind e (fun p => k))
  (at level 61, p pattern, e at next level, right associativity) : outcome_scope.

(** [for _, x := range xs { body }] threading a state. *)
Fixpoint for_each {S X : Type} (body : S -> X -> outcome S) (xs : list X) (s : S)
  : outcome S :=
  match xs with
  | [] => Done s
  | x :: rest => bind (body s x) (for_each body rest)
  end.

(** ** Machine words of the WebAssembly target *)

Module Word.
Local Open Scope Z_scope.

(** [const TargetBits = 32] *)
Definition TargetBits : Z := 32.

(** A [uintptr] result is taken modulo [2^TargetBits]. *)
Definition uintptr (x : Z) : Z := x mod 2 ^ TargetBits.

(** Go's [x &^ y] (AND NOT). *)
Definition andnot (x y : Z) : Z := Z.ldiff x y.

(** [unsafe.Sizeof(uintptr(0))] *)
Definition wordSize : Z := TargetBits / 8.
End Word.

(** ** runtime_wasm.go: heap bounds *)

Module Wasm.
Import Word.
Local Open Scope Z_scope.

(** [const wasmPageSize = 64 * 1024] *)
Definition wasmPageSize : Z := 64 * 1024.

(** [heapEnd = (heapStart + wasmPageSize - 1) &^ (wasmPageSize - 1)] *)
Definition heapEnd (heapStart : Z) : Z :=
  andnot (uintptr (uintptr (heapStart + wasmPageSize) - 1))
         (uintptr (wasmPageSize - 1)).

(** [func align(ptr uintptr) uintptr { return (ptr + 3) &^ 3 }] *)
Definition align (ptr : Z) : Z := andnot (uintptr (ptr + 3)) 3.

(** [func getCurrentStackPointer() uintptr { return stackTop }] *)
Definition getCurrentStackPointer (stackTop : Z) : Z := stackTop.
End Wasm.

(** ** gc_precise.go: allocator initialisation *)

Module GCInit.
Import Word.
Local Open Scope Z_scope.

(** Two bits of state per block. *)
Definition blocksPerStateByte : Z := 4.

(** What [init] leaves in the globals of the allocator. *)
Record layout : Type := {
  metadataSize : Z;
  poolStart : Z;
  poolEnd : Z;
  numBlocks : Z
}.

Section WithBlockSize.
(** [bytesPerBlock] and [gcAsserts] are constants of the allocator that
    the file reads; they are parameters here. *)
Variable bytesPerBlock : Z.
Variable gcAsserts : bool.

Definition compute_layout (heapStart heapEnd : Z) : layout :=
  let totalSize := uintptr (heapEnd - heapStart) in
  let metadataSize := totalSize / uintptr (blocksPerStateByte * bytesPerBlock) in
  let poolStart :=
    andnot (uintptr (uintptr (heapStart + metadataSize)
                     + uintptr (bytesPerBlock - 1)))
           (uintptr (bytesPerBlock - 1)) in
  let poolEnd := andnot heapEnd (uintptr (bytesPerBlock - 1)) in
  let numBlocks := uintptr (poolEnd - poolStart) / bytesPerBlock in
  {| metadataSize := metadataSize; poolStart := poolStart;
     poolEnd := poolEnd; numBlocks := numBlocks |}.

(** The sanity check of [init]:
    [gcAsserts && metadataSize*blocksPerStateByte < numBlocks]. *)
Definition metadata_too_small (l : layout) : bool :=
  uintptr (metadataSize l * blocksPerStateByte) <? numBlocks l.

Definition init (heapStart heapEnd : Z) : outcome layout :=
  let l := compute_layout heapStart heapEnd in
  if gcAsserts && metadata_too_small l
  then Panic "gc: metadata array is too small"
  else Done l.
End WithBlockSize.
End GCInit.

(** ** The IR facade

    What the passes need of the LLVM module: functions with parameter
    attributes, basic blocks of instructions, operands, and handles.  A
    handle ([llvm.Value]) of an instruction is its identifier; reading
    through a handle looks the instruction up in the current module. *)

Module IR.

Inductive ty : Type :=
| TVoid
| TInt (bits : Z)
| TPtr (elem : ty)
| TArray (elem : ty) (len : Z)
| TOther (tag : nat).

Inductive typeKind : Type :=
| VoidTypeKind | IntegerTypeKind | PointerTypeKind | ArrayTypeKind | OtherTypeKind.

Definition TypeKind (t : ty) : typeKind :=
  match t with
  | TVoid => VoidTypeKind
  | TInt _ => IntegerTypeKind
  | TPtr _ => PointerTypeKind
  | TArray _ _ => ArrayTypeKind
  | TOther _ => OtherTypeKind
  end.

Definition ElementType (t : ty) : ty :=
  match t with
  | TPtr e => e
  | TArray e _ => e
  | _ => t
  end.

(** Values.  [VNil] is the zero handle [llvm.Value{}].  Constants are
    integers ([ConstantInt]), zero initialisers and the rest (undef,
    constant expressions), told apart by a tag. *)
Inductive value : Type :=
| VNil
| VInst (id : nat)
| VFunc (name : string)
| VConstInt (n : Z)
| VConstZero (t : ty)
| VConstOther (tag : nat)
| VArg (fn : string) (idx : nat).

Definition ty_eq_dec (a b : ty) : {a = b} + {a <> b}.
Proof. decide equality; auto using Z.eq_dec, Nat.eq_dec. Defined.

Definition value_eq_dec (a b : value) : {a = b} + {a <> b}.
Proof.
  decide equality; auto using Z.eq_dec, Nat.eq_dec, string_dec, ty_eq_dec.
Defined.

(** [a == b] on handles. *)
Definition value_eqb (a b : value) : bool :=
  if value_eq_dec a b then true else false.

Inductive opcode : Type :=
| Call | BitCast | GetElementPtr | Load | Store | ICmp | ExtractValue | Alloca
| OtherOp (tag : nat).

(** An instruction.  The operands of a call are its arguments followed by
    the callee, as in LLVM. *)
Record inst : Type := {
  iid : nat;
  iop : opcode;
  ioperands : list value;
  ity : ty
}.

(** A function: its name, the enum attributes of each parameter, and its
    basic blocks (none for a declaration); the first block is the entry. *)
Record func : Type := {
  fname : string;
  fparams : list (list string);
  fblocks : list (list inst)
}.

(** A module, with the supply of fresh instruction identifiers. *)
Record module : Type := {
  mfuncs : list func;
  mnext : nat
}.

Definition func_insts (f : func) : list inst := List.concat (fblocks f).
Definition all_insts (m : module) : list inst := flat_map func_insts (mfuncs m).

Definition has_id (id : nat) (i : inst) : bool := Nat.eqb (iid i) id.

Definition getInst (m : module) (id : nat) : option inst :=
  find (has_id id) (all_insts m).

(** Reading through a handle; a handle of an erased instruction dangles. *)
Definition live (m : module) (id : nat) : outcome inst :=
  match getInst m id with
  | Some i => Done i
  | None => Undefined
  end.

Definition getFunc (m : module) (name : string) : option func :=
  find (fun f => String.eqb (fname f) name) (mfuncs m).

(** [c.mod.NamedFunction(name)]: the nil handle when there is none. *)
Definition NamedFunction (m : module) (name : string) : value :=
  match getFunc m name with
  | Some _ => VFunc name
  | None => VNil
  end.

Definition IsNil (v : value) : bool :=
  match v with VNil => true | _ => false end.

Definition IsAConstant (v : value) : bool :=
  match v with
  | VFunc _ | VConstInt _ | VConstZero _ | VConstOther _ => true
  | _ => false
  end.

Definition IsAFunction (v : value) : bool :=
  match v with VFunc _ => true | _ => false end.

(** [ZExtValue] is defined on constant integers only. *)
Definition ZExtValue (v : value) : outcome Z :=
  match v with
  | VConstInt n => Done (n mod 2 ^ 64)%Z
  | _ => Undefined
  end.

Definition Operand (i : inst) (n : nat) : value := nth n (ioperands i) VNil.
Definition CalledValue (i : inst) : value := last (ioperands i) VNil.

Definition opcode_eqb (a b : opcode) : bool :=
  match a, b with
  | Call, Call | BitCast, BitCast | GetElementPtr, GetElementPtr
  | Load, Load | Store, Store | ICmp, ICmp
  | ExtractValue, ExtractValue | Alloca, Alloca => true
  | OtherOp x, OtherOp y => Nat.eqb x y
  | _, _ => false
  end.

Definition IsACallInst (i : inst) : bool := opcode_eqb (iop i) Call.
Definition IsABitCastInst (i : inst) : bool := opcode_eqb (iop i) BitCast.
Definition IsAExtractValueInst (i : inst) : bool := opcode_eqb (iop i) ExtractValue.

Definition uses_value (v : value) (i : inst) : bool :=
  existsb (value_eqb v) (ioperands i).

(** Modelled from the spec: [getUses], the helper of the compiler package
    behind every [getUses(v)] of the passes ("[uses_of(v)] enumerates
    current users", "the collection of instructions that reference a
    value").  [users] are the instructions as they stand, [getUses] their
    handles; a nil value has no uses. *)
Definition users (m : module) (v : value) : list inst :=
  match v with
  | VNil => []
  | _ => filter (uses_value v) (all_insts m)
  end.

Definition getUses (m : module) (v : value) : list nat := map iid (users m v).

(** *** Mutation *)

Definition map_blocks (g : list inst -> list inst) (m : module) : module :=
  {| mfuncs :=
       map (fun f => {| fname := fname f; fparams := fparams f;
                        fblocks := map g (fblocks f) |}) (mfuncs m);
     mnext := mnext m |}.

Definition remove_inst (id : nat) (m : module) : module :=
  map_blocks (filter (fun i => negb (has_id id i))) m.

(** [inst.EraseFromParentAsInstruction()] *)
Definition EraseFromParentAsInstruction (m : module) (id : nat) : outcome module :=
  match getInst m id with
  | Some _ => Done (remove_inst id m)
  | None => Undefined
  end.

Definition subst_value (old new v : value) : value :=
  if value_eqb v old then new else v.

Definition subst_inst (old new : value) (i : inst) : inst :=
  {| iid := iid i; iop := iop i;
     ioperands := map (subst_value old new) (ioperands i); ity := ity i |}.

(** [old.ReplaceAllUsesWith(new)] *)
Definition ReplaceAllUsesWith (m : module) (old new : value) : module :=
  map_blocks (map (subst_inst old new)) m.

Definition place_before (pos : nat) (new : inst) (b : list inst) : list inst :=
  flat_map (fun i => if has_id pos i then [new; i] else [i]) b.

(** [SetInsertPointBefore(pos)] followed by one [Create...]: the new
    instruction takes a fresh identifier and goes right before [pos]. *)
Definition create_before (m : module) (pos : nat) (op : opcode)
           (operands : list value) (t : ty) : outcome (module * value) :=
  match getInst m pos with
  | Some _ =>
      let new := {| iid := mnext m; iop := op; ioperands := operands; ity := t |} in
      let m' := map_blocks (place_before pos new) m in
      Done ({| mfuncs := mfuncs m'; mnext := S (mnext m) |}, VInst (mnext m))
  | None => Undefined
  end.

(** [CreateCall(callee, args, "")]; the callee must be a value. *)
Definition CreateCall (m : module) (pos : nat) (callee : value)
           (args : list value) : outcome (module * value) :=
  if IsNil callee then Undefined
  else create_before m pos Call (args ++ [callee]) TVoid.

(** [inst.InstructionParent().Parent()] *)
Definition parent_func (m : module) (id : nat) : option func :=
  find (fun f => existsb (has_id id) (func_insts f)) (mfuncs m).

(** [fn.EntryBasicBlock().FirstInstruction()] *)
Definition entry_first (f : func) : option nat :=
  match fblocks f with
  | (i :: _) :: _ => Some (iid i)
  | _ => None
  end.

(** *** Parameter attributes *)

Definition ParamsCount (f : func) : nat := List.length (fparams f).

(** [fn.GetEnumAttributeAtIndex(i + 1, kind)] is not the nil attribute. *)
Definition has_param_attr (f : func) (i : nat) (kind : string) : bool :=
  existsb (String.eqb kind) (nth i (fparams f) []).

(** A module is well formed when instruction identifiers are unique and
    below the supply, every call has a callee operand, and a function
    named by an operand is declared. *)
Definition operand_ok (m : module) (v : value) : bool :=
  match v with
  | VNil => false
  | VFunc name => match getFunc m name with Some _ => true | None => false end
  | _ => true
  end.

Definition inst_ok (m : module) (i : inst) : bool :=
  Nat.ltb (iid i) (mnext m)
  && forallb (operand_ok m) (ioperands i)
  && (negb (IsACallInst i) || negb (Nat.eqb (List.length (ioperands i)) 0)).

Fixpoint nodup_ids (l : list nat) : bool :=
  match l with
  | [] => true
  | x :: rest => negb (existsb (Nat.eqb x) rest) && nodup_ids rest
  end.

Definition wf_module (m : module) : bool :=
  nodup_ids (map iid (all_insts m)) && forallb (inst_ok m) (all_insts m).

End IR.

(** ** optimizer.go: analyses and rewrites *)

Module Optimizer.
Import IR.
Local Open Scope Z_scope.
Local Open Scope outcome_scope.

Definition of_option {A : Type} (x : option A) : outcome A :=
  match x with Some a => Done a | None => Undefined end.

(** The result of a recursive analysis: [None] is a recursion that ran
    out of fuel. *)
Definition analysis (x : option bool) : outcome bool :=
  match x with Some b => Done b | None => NoReturn end.

(** Depth that the recursion over bitcasts and GEPs cannot exceed on an
    acyclic use graph: there are at most [mnext m] instructions. *)
Definition analysis_fuel (m : module) : nat := S (S (mnext m)).

(** [func (c *Compiler) hasFlag(call, param llvm.Value, kind string) bool] *)
Definition hasFlag (m : module) (call : inst) (param : value) (kind : string) : bool :=
  match CalledValue call with
  | VFunc name =>
      match getFunc m name with
      | Some fn =>
          forallb (fun i => if negb (value_eqb (Operand call i) param) then true
                            else has_param_attr fn i kind)
                  (seq 0 (ParamsCount fn))
      | None => false
      end
  | _ => false
  end.

(** The body of the loop of [doesEscape] over the uses; [self] is the
    recursive call. *)
Fixpoint escape_walk (self : value -> option bool) (m : module) (value : value)
         (uses : list inst) : option bool :=
  match uses with
  | [] => Some false
  | use :: rest =>
      match iop use with
      | GetElementPtr | BitCast =>
          match self (VInst (iid use)) with
          | Some true => Some true
          | Some false => escape_walk self m value rest
          | None => None
          end
      | Load => escape_walk self m value rest
      | Store =>
          if value_eqb (Operand use 0) value then Some true
          else escape_walk self m value rest
      | Call =>
          if negb (hasFlag m use value "nocapture") then Some true
          else escape_walk self m value rest
      | ICmp => escape_walk self m value rest
      | _ => Some true
      end
  end.

Fixpoint doesEscape_rec (fuel : nat) (m : module) (value : value) : option bool :=
  match fuel with
  | O => None
  | S fuel' => escape_walk (doesEscape_rec fuel' m) m value (users m value)
  end.

(** [func (c *Compiler) doesEscape(value llvm.Value) bool] *)
Definition doesEscape (m : module) (value : value) : option bool :=
  doesEscape_rec (analysis_fuel m) m value.

Fixpoint readonly_walk (self : value -> option bool) (m : module) (value : value)
         (uses : list inst) : option bool :=
  match uses with
  | [] => Some true
  | use :: rest =>
      match iop use with
      | GetElementPtr =>
          match self (VInst (iid use)) with
          | Some false => Some false
          | Some true => readonly_walk self m value rest
          | None => None
          end
      | Call =>
          if negb (hasFlag m use value "readonly") then Some false
          else readonly_walk self m value rest
      | _ => Some false
      end
  end.

Fixpoint isReadOnly_rec (fuel : nat) (m : module) (value : value) : option bool :=
  match fuel with
  | O => None
  | S fuel' => readonly_walk (isReadOnly_rec fuel' m) m value (users m value)
  end.

(** [func (c *Compiler) isReadOnly(value llvm.Value) bool] *)
Definition isReadOnly (m : module) (value : value) : option bool :=
  isReadOnly_rec (analysis_fuel m) m value.

(** *** replacePanicsWithTrap *)

Definition panic_names : list string := ["runtime._panic"; "runtime.runtimePanic"]%string.

(** One use of a panic function. *)
Definition trap_before (trap fn : value) (m : module) (use : nat) : outcome module :=
  u <- live m use ;;
  if negb (IsACallInst u) || negb (value_eqb (CalledValue u) fn)
  then Panic "expected use of a panic function to be a call"
  else '(m', _) <- CreateCall m use trap [] ;; Done m'.

Definition trap_uses_of (trap : value) (m : module) (name : string) : outcome module :=
  let fn := NamedFunction m name in
  if IsNil fn then Done m
  else for_each (trap_before trap fn) (getUses m fn) m.

(** [func (c *Compiler) replacePanicsWithTrap()] *)
Definition replacePanicsWithTrap (m : module) : outcome module :=
  let trap := NamedFunction m "llvm.trap" in
  for_each (trap_uses_of trap) panic_names m.

(** *** OptimizeMaps *)

(** One use of a [makeInst]: the accumulator is [updateInsts] and
    [unknownUses]. *)
Definition classify_use (hashmapBinarySet hashmapStringSet : value)
           (acc : list nat * bool) (use : inst) : list nat * bool :=
  let '(updateInsts, unknownUses) := acc in
  if IsACallInst use then
    if value_eqb (CalledValue use) hashmapBinarySet
       || value_eqb (CalledValue use) hashmapStringSet
    then (updateInsts ++ [iid use], unknownUses)
    else (updateInsts, true)
  else (updateInsts, true).

Definition maps_body (hashmapBinarySet hashmapStringSet : value)
           (m : module) (makeInst : nat) : outcome module :=
  _ <- live m makeInst ;;
  let '(updateInsts, unknownUses) :=
    fold_left (classify_use hashmapBinarySet hashmapStringSet)
              (users m (VInst makeInst)) ([], false) in
  if negb unknownUses then
    m1 <- for_each EraseFromParentAsInstruction updateInsts m ;;
    EraseFromParentAsInstruction m1 makeInst
  else Done m.

(** [func (c *Compiler) OptimizeMaps()] *)
Definition OptimizeMaps (m : module) : outcome module :=
  let hashmapMake := NamedFunction m "runtime.hashmapMake" in
  if IsNil hashmapMake then Done m
  else
    let hashmapBinarySet := NamedFunction m "runtime.hashmapBinarySet" in
    let hashmapStringSet := NamedFunction m "runtime.hashmapStringSet" in
    for_each (maps_body hashmapBinarySet hashmapStringSet)
             (getUses m hashmapMake) m.

(** *** OptimizeStringToBytes *)

(** One use of a [stringToBytes] call; the state is the module and
    [convertedAllUses]. *)
Definition s2b_use (strptr strlen : value) (st : module * bool) (use : nat)
  : outcome (module * bool) :=
  let '(m, convertedAllUses) := st in
  u <- live m use ;;
  if negb (IsAExtractValueInst u) then Done (m, false)
  else
    match TypeKind (ity u) with
    | IntegerTypeKind =>
        let m1 := ReplaceAllUsesWith m (VInst use) strlen in
        m2 <- EraseFromParentAsInstruction m1 use ;;
        Done (m2, convertedAllUses)
    | PointerTypeKind =>
        ro <- analysis (isReadOnly m (VInst use)) ;;
        if negb ro then Done (m, false)
        else
          let m1 := ReplaceAllUsesWith m (VInst use) strptr in
          m2 <- EraseFromParentAsInstruction m1 use ;;
          Done (m2, convertedAllUses)
    | _ => Panic "unknown return type of runtime.stringToBytes"
    end.

Definition s2b_call (m : module) (call : nat) : outcome module :=
  c <- live m call ;;
  let strptr := Operand c 0 in
  let strlen := Operand c 1 in
  '(m', convertedAllUses) <-
    for_each (s2b_use strptr strlen) (getUses m (VInst call)) (m, true) ;;
  if convertedAllUses then EraseFromParentAsInstruction m' call
  else Done m'.

(** [func (c *Compiler) OptimizeStringToBytes()] *)
Definition OptimizeStringToBytes (m : module) : outcome module :=
  let stringToBytes := NamedFunction m "runtime.stringToBytes" in
  if IsNil stringToBytes then Done m
  else for_each s2b_call (getUses m stringToBytes) m.

(** *** OptimizeAllocs *)

Section WithTarget.
(** [c.targetData.ABITypeAlignment(c.i8ptrType)] *)
Variable alignment : Z.

(** The instruction that creates the value: the only use of the call
    when that is a bitcast, else the call. *)
Definition effective_value (m : module) (heapalloc : inst) : inst :=
  match users m (VInst (iid heapalloc)) with
  | [u] => if IsABitCastInst u then u else heapalloc
  | _ => heapalloc
  end.

Definition sizeInWords (size : Z) : Z := (size + alignment - 1) / alignment.

Definition allocaType (size : Z) : ty :=
  TArray (TInt (alignment * 8)) (sizeInWords size).

(** The rewrite of one call whose value does not escape. *)
Definition stack_allocate (m : module) (heapalloc : nat) (bitcast : inst)
           (size : Z) : outcome module :=
  fn <- of_option (parent_func m (iid bitcast)) ;;
  first <- of_option (entry_first fn) ;;
  '(m1, alloca) <- create_before m first Alloca [] (TPtr (allocaType size)) ;;
  let zero := VConstZero (ElementType (TPtr (allocaType size))) in
  '(m2, _) <- create_before m1 first Store [zero; alloca] TVoid ;;
  '(m3, stackalloc) <- create_before m2 first BitCast [alloca] (ity bitcast) ;;
  let m4 := ReplaceAllUsesWith m3 (VInst (iid bitcast)) stackalloc in
  m5 <- (if negb (Nat.eqb heapalloc (iid bitcast))
         then EraseFromParentAsInstruction m4 (iid bitcast)
         else Done m4) ;;
  EraseFromParentAsInstruction m5 heapalloc.

Definition alloc_body (m : module) (heapalloc : nat) : outcome module :=
  h <- live m heapalloc ;;
  if negb (IsAConstant (Operand h 0)) then Done m
  else
    size <- ZExtValue (Operand h 0) ;;
    if 256 <? size then Done m
    else
      let bitcast := effective_value m h in
      escapes <- analysis (doesEscape m (VInst (iid bitcast))) ;;
      if negb escapes then stack_allocate m heapalloc bitcast size
      else Done m.

(** [func (c *Compiler) OptimizeAllocs()] *)
Definition OptimizeAllocs (m : module) : outcome module :=
  let allocator := NamedFunction m "runtime.alloc" in
  if IsNil allocator then Done m
  else for_each alloc_body (getUses m allocator) m.
End WithTarget.

(** *** What the analyses are checked against *)

(** A bitcast or a GEP: the uses through which the analyses recurse. *)
Definition is_derivation (u : inst) : bool :=
  match iop u with
  | GetElementPtr | BitCast => true
  | _ => false
  end.

(** [rk] ranks the bitcasts and GEPs of the module so that each has a
    smaller rank than the bitcast or GEP it is computed from, below the
    identifier supply: the use graph has no cycle through them. *)
Definition ranked (m : module) (rk : nat -> nat) : bool :=
  forallb (fun u =>
             negb (is_derivation u)
             || (Nat.ltb (rk (iid u)) (mnext m)
                 && forallb (fun v => match v with
                                      | VInst j => Nat.ltb (rk (iid u)) (rk j)
                                      | _ => true
                                      end) (ioperands u)))
          (all_insts m).

(** A use of [v] that does not make [v] escape, as the code decides it. *)
Inductive harmless (m : module) (v : value) (u : inst) : Prop :=
| harmless_load : iop u = Load -> harmless m v u
| harmless_icmp : iop u = ICmp -> harmless m v u
| harmless_store : iop u = Store -> Operand u 0 <> v -> harmless m v u
| harmless_call (name : string) (fn : func) :
    iop u = Call ->
    CalledValue u = VFunc name -> getFunc m name = Some fn ->
    (forall i, (i < ParamsCount fn)%nat -> Operand u i = v ->
               In "nocapture"%string (nth i (fparams fn) [])) ->
    harmless m v u
| harmless_derived :
    is_derivation u = true -> doesEscape m (VInst (iid u)) = Some false ->
    harmless m v u.

(** The parameter of the callee of [u] at position [i] carries [kind]. *)
Definition carries (m : module) (u : inst) (i : nat) (kind : string) : Prop :=
  exists name fn, CalledValue u = VFunc name /\ getFunc m name = Some fn /\
                  In kind (nth i (fparams fn) []).

(** Following the words of the claim: the same, but a call is harmless as
    soon as every argument position that holds [v] carries [nocapture]. *)
Inductive claimed_harmless (m : module) (v : value) (u : inst) : Prop :=
| claimed_load : iop u = Load -> claimed_harmless m v u
| claimed_icmp : iop u = ICmp -> claimed_harmless m v u
| claimed_store : iop u = Store -> Operand u 0 <> v -> claimed_harmless m v u
| claimed_call :
    iop u = Call ->
    (forall i, (i < List.length (ioperands u) - 1)%nat -> Operand u i = v ->
               carries m u i "nocapture") ->
    claimed_harmless m v u
| claimed_derived :
    is_derivation u = true -> doesEscape m (VInst (iid u)) = Some false ->
    claimed_harmless m v u.

(** *** What the rewrites are checked against *)

(** Two modules with the same functions whose blocks are related by [R]. *)
Definition same_shape (R : list inst -> list inst -> Prop) (m m' : module) : Prop :=
  Forall2 (fun f f' => fname f = fname f' /\ fparams f = fparams f' /\
                       Forall2 R (fblocks f) (fblocks f'))
          (mfuncs m) (mfuncs m').

(** A call of [llvm.trap] created by the pass. *)
Definition is_trap_call (lo : nat) (t : inst) : Prop :=
  iop t = Call /\ ioperands t = [VFunc "llvm.trap"] /\ (lo <= iid t)%nat.

(** [trapped uses lo b b']: block [b'] is block [b] with one new call of
    [llvm.trap] right before each instruction whose handle is in [uses], and
    nothing else changed. *)
Inductive trapped (uses : list nat) (lo : nat) : list inst -> list inst -> Prop :=
| trapped_nil : trapped uses lo [] []
| trapped_keep i b b' :
    ~ In (iid i) uses -> trapped uses lo b b' -> trapped uses lo (i :: b) (i :: b')
| trapped_trap i t b b' :
    In (iid i) uses -> is_trap_call lo t -> trapped uses lo b b' ->
    trapped uses lo (i :: b) (t :: i :: b').

(** The use [u] of [fn] is a call of [fn]. *)
Definition direct_call (fn : value) (u : inst) : bool :=
  IsACallInst u && value_eqb (CalledValue u) fn.

(** The handles of the uses of the panic functions of the module. *)
Definition panic_uses (m : module) : list nat :=
  flat_map (fun name => getUses m (NamedFunction m name)) panic_names.

Definition trap_msg : string := "expected use of a panic function to be a call".

(** The module in the middle of the pass: the uses in [done] have their
    trap, and the identifier supply has not gone down. *)
Definition trapping (m mc : module) (done : list nat) : Prop :=
  same_shape (trapped done (mnext m)) m mc /\ (mnext m <= mnext mc)%nat.

(** A use that only sets a value of the map. *)
Definition is_update (hashmapBinarySet hashmapStringSet : value) (u : inst) : bool :=
  IsACallInst u
  && (value_eqb (CalledValue u) hashmapBinarySet
      || value_eqb (CalledValue u) hashmapStringSet).

Definition mem_id (ids : list nat) (i : inst) : bool := existsb (Nat.eqb (iid i)) ids.

(** The module without the instructions whose handles are in [ids]. *)
Definition remove_all (ids : list nat) (m : module) : module :=
  map_blocks (filter (fun i => negb (mem_id ids i))) m.

(** The operands of [u] that are results of uses of [make]. *)
Definition map_operands (m : module) (make : value) (u : inst) : list value :=
  filter (fun v => match v with
                   | VInst j => existsb (fun k => Nat.eqb (iid k) j) (users m make)
                   | _ => false
                   end) (ioperands u).

(** What the types of the map functions give: [hashmapMake] takes no map,
    and a set call takes one map (as its first argument). *)
Definition maps_typed (m : module) : bool :=
  let make := NamedFunction m "runtime.hashmapMake" in
  let hbs := NamedFunction m "runtime.hashmapBinarySet" in
  let hss := NamedFunction m "runtime.hashmapStringSet" in
  forallb (fun k => match map_operands m make k with [] => true | _ => false end)
          (users m make)
  && forallb (fun u => negb (is_update hbs hss u)
                       || forallb (fun v1 => forallb (value_eqb v1) (map_operands m make u))
                                  (map_operands m make u))
             (all_insts m).

(** Every use of the result of [k] sets a value of the map. *)
Definition only_updated (m : module) (k : inst) : bool :=
  forallb (is_update (NamedFunction m "runtime.hashmapBinarySet")
                     (NamedFunction m "runtime.hashmapStringSet"))
          (users m (VInst (iid k))).

(** [id] is the handle of a map of [ks] that is only updated, or of one of
    its updates. *)
Definition doomed_by (m : module) (ks : list inst) (id : nat) : Prop :=
  exists k, In k ks /\ only_updated m k = true /\
            (id = iid k \/ In id (getUses m (VInst (iid k)))).

(** An instruction with its operands rewritten by [s]. *)
Definition rewrite_inst (s : value -> value) (i : inst) : inst :=
  {| iid := iid i; iop := iop i; ioperands := map s (ioperands i); ity := ity i |}.

Definition rewrite_operands (s : value -> value) (m : module) : module :=
  map_blocks (map (rewrite_inst s)) m.

(** The module in the middle of a rewrite: the instructions in [ids] are
    erased and the operands of the others rewritten by [s]. *)
Definition rewritten (ids : list nat) (s : value -> value) (m : module) : module :=
  remove_all ids (rewrite_operands s m).

(** [rk] ranks the instructions so that every instruction other than the
    ones the model does not interpret (phi nodes among them) has a smaller
    rank than the instructions it takes as operands: definitions come
    before uses. *)
Definition ssa_ranked (m : module) (rk : nat -> nat) : bool :=
  forallb (fun u =>
             match iop u with
             | OtherOp _ => true
             | _ =>
                 Nat.ltb (rk (iid u)) (mnext m)
                 && forallb (fun v => match v with
                                      | VInst j => Nat.ltb (rk (iid u)) (rk j)
                                      | _ => true
                                      end) (ioperands u)
             end)
          (all_insts m).

(** The same for the GEPs alone, as a proposition. *)
Definition gep_ranked (m : module) (rk : nat -> nat) : Prop :=
  forall u, In u (all_insts m) -> iop u = GetElementPtr ->
            (rk (iid u) < mnext m)%nat /\
            forall j, In (VInst j) (ioperands u) -> (rk (iid u) < rk j)%nat.

(** The fields of the slice that [stringToBytes] returns are a pointer and
    integers. *)
Definition extracts_typed (m : module) (call : nat) : bool :=
  forallb (fun u => negb (IsAExtractValueInst u)
                    || match TypeKind (ity u) with
                       | IntegerTypeKind | PointerTypeKind => true
                       | _ => false
                       end)
          (users m (VInst call)).

(** [s] moves an operand only to an instruction of higher rank. *)
Definition rank_monotone (rk : nat -> nat) (s : value -> value) : Prop :=
  (forall v, (forall j, v <> VInst j) -> s v = v) /\
  (forall j j', s (VInst j) = VInst j' -> (rk j <= rk j')%nat).

(** Whether the loop of [OptimizeStringToBytes] rewrites the use [u] when
    it finds the module as [mc]. *)
Definition gets_rewritten (mc : module) (u : inst) : bool :=
  IsAExtractValueInst u
  && match TypeKind (ity u) with
     | IntegerTypeKind => true
     | PointerTypeKind =>
         match isReadOnly mc (VInst (iid u)) with
         | Some true => true
         | _ => false
         end
     | _ => false
     end.

(** What it is replaced with. *)
Definition replacement (strptr strlen : value) (u : inst) : value :=
  match TypeKind (ity u) with
  | IntegerTypeKind => strlen
  | _ => strptr
  end.

(** What the types of [stringToBytes] and of [extractvalue] give: every
    use of [stringToBytes] is a call, and none of its operands is the
    slice that such a call returns; the fields taken out of the slices
    are pointers and integers; and an [extractvalue] has one operand, the
    aggregate. *)
Definition strings_typed (m : module) : bool :=
  let calls := users m (NamedFunction m "runtime.stringToBytes") in
  forallb (fun c =>
             IsACallInst c
             && forallb (fun v => negb (existsb (fun k => value_eqb v (VInst (iid k)))
                                                calls))
                        (ioperands c)
             && extracts_typed m (iid c))
          calls
  && forallb (fun u => negb (IsAExtractValueInst u)
                       || Nat.eqb (List.length (ioperands u)) 1)
             (all_insts m).

(** [OptimizeStringToBytes] on [m] finds the module as [mc] when it comes
    to the use [u] of the call [c]: it has returned from the calls before
    [c] and, in the loop over the uses of [c], from the uses before [u]. *)
Definition reaches (m : module) (c u : nat) (mc : module) : Prop :=
  exists cpre cpost m1 c1 upre upost flag,
    getUses m (NamedFunction m "runtime.stringToBytes") = cpre ++ c :: cpost /\
    for_each s2b_call cpre m = Done m1 /\
    getInst m1 c = Some c1 /\
    getUses m1 (VInst c) = upre ++ u :: upost /\
    for_each (s2b_use (Operand c1 0) (Operand c1 1)) upre (m1, true) = Done (mc, flag).

(** The pass in the middle of its work on a module: the handles it has
    erased, what the operands of the other instructions have become, and
    [convertedAllUses]. *)
Record s2b_state : Type := {
  erased : list nat;
  renamed : value -> value;
  converted : bool
}.

Definition s2b_module (m : module) (st : s2b_state) : module :=
  rewritten (erased st) (renamed st) m.

(** The state after the use [u] of a call. *)
Definition s2b_turn (m : module) (strptr strlen : value) (st : s2b_state) (u : inst)
  : s2b_state :=
  if gets_rewritten (s2b_module m st) u
  then {| erased := iid u :: erased st;
          renamed := fun v => subst_value (VInst (iid u))
                                          (replacement strptr strlen u) (renamed st v);
          converted := converted st |}
  else {| erased := erased st; renamed := renamed st; converted := false |}.

(** The state after the call [c] with its uses. *)
Definition s2b_one (m : module) (st : s2b_state) (c : inst) : s2b_state :=
  let st1 := fold_left (s2b_turn m (renamed st (Operand c 0)) (renamed st (Operand c 1)))
                       (users m (VInst (iid c)))
                       {| erased := erased st; renamed := renamed st;
                          converted := true |} in
  if converted st1
  then {| erased := iid c :: erased st1; renamed := renamed st1; converted := true |}
  else st1.

(** The three instructions [OptimizeAllocs] creates for an object of [size]
    bytes whose value has type [t], from the identifier [id] on. *)
Definition alloca_inst (alignment size : Z) (id : nat) : inst :=
  {| iid := id; iop := Alloca; ioperands := [];
     ity := TPtr (TArray (TInt (alignment * 8)) (sizeInWords alignment size)) |}.

Definition zero_store_inst (alignment size : Z) (id : nat) : inst :=
  {| iid := S id; iop := Store;
     ioperands := [VConstZero (TArray (TInt (alignment * 8)) (sizeInWords alignment size));
                   VInst id];
     ity := TVoid |}.

Definition stackalloc_inst (t : ty) (id : nat) : inst :=
  {| iid := S (S id); iop := BitCast; ioperands := [VInst id]; ity := t |}.

(** Some function of the module with this name and these parameters has
    [entry] as its entry block. *)
Definition entry_of (m : module) (name : string) (params : list (list string))
           (entry : list inst) : Prop :=
  exists fs1 f fs2 blocks,
    mfuncs m = fs1 ++ f :: fs2 /\ fname f = name /\ fparams f = params /\
    fblocks f = entry :: blocks.

(** A use of [v] through which nothing is written to [v], as the code
    decides it. *)
Inductive reads_only (m : module) (v : value) (u : inst) : Prop :=
| reads_only_call (name : string) (fn : func) :
    iop u = Call ->
    CalledValue u = VFunc name -> getFunc m name = Some fn ->
    (forall i, (i < ParamsCount fn)%nat -> Operand u i = v ->
               In "readonly"%string (nth i (fparams fn) [])) ->
    reads_only m v u
| reads_only_gep :
    iop u = GetElementPtr -> isReadOnly m (VInst (iid u)) = Some true ->
    reads_only m v u.

(** *** Lowering of [runtime.isnil] (the loop in [Optimize])

    The comparison the loop builds is always [llvm.IntEQ]; the [ICmp]
    instructions of the facade carry no predicate. *)

Section WithTypes.
(** [v.Type()] of a value that is no instruction: an argument, a constant
    or a function. *)
Variable typeOfOperand : value -> ty.

(** [v.Type()]; the nil value has no type. *)
Definition TypeOf (m : module) (v : value) : outcome ty :=
  match v with
  | VNil => Undefined
  | VInst j => i <- live m j ;; Done (ity i)
  | _ => Done (typeOfOperand v)
  end.

(** [llvm.ConstPointerNull(t)], defined on pointer types. *)
Definition ConstPointerNull (t : ty) : outcome value :=
  match TypeKind t with
  | PointerTypeKind => Done (VConstZero t)
  | _ => Undefined
  end.

(** [if !ptr.IsABitCastInst().IsNil() { ptr = ptr.Operand(0) }] *)
Definition strip_bitcast (m : module) (ptr : value) : outcome value :=
  match ptr with
  | VInst j => p <- live m j ;; Done (if IsABitCastInst p then Operand p 0 else ptr)
  | _ => Done ptr
  end.

(** [c.builder.CreateICmp(llvm.IntEQ, lhs, rhs, "")] before [pos]. *)
Definition CreateICmp (m : module) (pos : nat) (lhs rhs : value)
  : outcome (module * value) :=
  create_before m pos ICmp [lhs; rhs] (TInt 1).

(** The body of the loop over the uses of [runtime.isnil]. *)
Definition lower_isnil_use (m : module) (use : nat) : outcome module :=
  u <- live m use ;;
  ptr <- strip_bitcast m (Operand u 0) ;;
  t <- TypeOf m ptr ;;
  nilptr <- ConstPointerNull t ;;
  '(m1, icmp) <- CreateICmp m use ptr nilptr ;;
  let m2 := ReplaceAllUsesWith m1 (VInst use) icmp in
  EraseFromParentAsInstruction m2 use.

(** The lowering of [runtime.isnil] calls in [Optimize]. *)
Definition lower_isnil (m : module) : outcome module :=
  let isnil := NamedFunction m "runtime.isnil" in
  if IsNil isnil then Done m
  else for_each lower_isnil_use (getUses m isnil) m.
End WithTypes.

(** The comparison that takes the place of a use of [runtime.isnil]. *)
Definition isnil_icmp (id : nat) (ptr : value) (t : ty) : inst :=
  {| iid := id; iop := ICmp; ioperands := [ptr; VConstZero t]; ity := TInt 1 |}.

(** The module with the instruction [old] replaced, where it stands, by
    [new], and [new] in place of [old] in the operands of the others. *)
Definition replace_inst (old : nat) (new : inst) (m : module) : module :=
  {| mfuncs :=
       mfuncs (map_blocks
                 (map (fun i => if has_id old i then new
                                else subst_inst (VInst old) (VInst (iid new)) i))
                 m);
     mnext := S (mnext m) |}.

(** What the loop does with the uses [us] when the first comparison takes
    the identifier [id]: each use with the comparison that replaces it,
    the pointer and its type being read in the module [m] the loop starts
    from. *)
Fixpoint isnil_plan (typeOfOperand : value -> ty) (m : module) (id : nat)
         (us : list inst) : list (nat * inst) :=
  match us with
  | [] => []
  | u :: rest =>
      match (ptr <- strip_bitcast m (Operand u 0) ;;
             t <- TypeOf typeOfOperand m ptr ;; Done (ptr, t)) with
      | Done (ptr, t) =>
          (iid u, isnil_icmp id ptr t) :: isnil_plan typeOfOperand m (S id) rest
      | _ => []
      end
  end.

(** The comparison a plan has for the instruction [id]. *)
Definition planned (rs : list (nat * inst)) (id : nat) : option inst :=
  option_map snd (find (fun r => Nat.eqb (fst r) id) rs).

Definition plan_value (rs : list (nat * inst)) (v : value) : value :=
  match v with
  | VInst x => match planned rs x with Some c => VInst (iid c) | None => v end
  | _ => v
  end.

Definition plan_inst (rs : list (nat * inst)) (i : inst) : inst :=
  match planned rs (iid i) with
  | Some c => c
  | None => rewrite_inst (plan_value rs) i
  end.

(** The module with every planned instruction replaced, where it stands,
    by its comparison, and the comparisons in place of the replaced
    instructions in the operands of the others. *)
Definition lowered (rs : list (nat * inst)) (m : module) : module :=
  {| mfuncs := mfuncs (map_blocks (map (plan_inst rs)) m);
     mnext := mnext m + List.length rs |}.

(** [v] is the result of one of the instructions [ids]. *)
Definition is_result_of (ids : list nat) (v : value) : bool :=
  match v with
  | VInst x => existsb (Nat.eqb x) ids
  | _ => false
  end.

Definition is_pointer (t : ty) : bool :=
  match TypeKind t with PointerTypeKind => true | _ => false end.

(** What the type of [runtime.isnil] gives for a use [u] of it, [ids]
    being the uses: its first operand is a pointer that is no result of a
    use (these are booleans), also behind a bitcast, and is not
    [runtime.isnil] itself. *)
Definition isnil_use_ok (typeOfOperand : value -> ty) (m : module)
           (ids : list nat) (u : inst) : bool :=
  negb (is_result_of ids (Operand u 0))
  && match strip_bitcast m (Operand u 0) with
     | Done ptr =>
         negb (is_result_of ids ptr)
         && negb (value_eqb ptr (NamedFunction m "runtime.isnil"))
         && match TypeOf typeOfOperand m ptr with
            | Done t => is_pointer t
            | _ => false
            end
     | _ => false
     end.

Definition isnil_typed (typeOfOperand : value -> ty) (m : module) : bool :=
  let us := users m (NamedFunction m "runtime.isnil") in
  forallb (isnil_use_ok typeOfOperand m (map iid us)) us.

End Optimizer.

(** ** optimizer.go: the driver

    [Optimize] calls into the pass managers of LLVM and into lowerings of
    the compiler that other files define.  The driver is therefore written
    over an arbitrary module type [M] and arbitrary implementations of the
    passes; a ghost [trace] records each pass as it returns. *)

Module Driver.
Local Open Scope Z_scope.
Local Open Scope outcome_scope.

Inductive pass : Type :=
| ReplacePanicsWithTrap
| FuncPasses           (* funcPasses.RunFunc over every function *)
| GoPasses             (* goPasses.Run(c.mod) *)
| OptimizeMaps
| OptimizeStringToBytes
| OptimizeAllocs
| LowerInterfaces
| LowerFuncValues
| LowerIsNil           (* the loop over the uses of runtime.isnil *)
| LowerGoroutines
| Verify
| AddOptsize           (* fn.AddFunctionAttr(optsize) over every function *)
| ModPasses            (* modPasses.Run(c.mod) *)
| AddGlobalsBitmap.

Record config : Type := {
  optLevel : Z;
  sizeLevel : Z;
  inlinerThreshold : Z;
  PanicStrategy : string;
  gcIsPrecise : bool
}.

Section WithPasses.
Variable M : Type.
(** Passes that return nothing. *)
Variable run : config -> pass -> M -> outcome M.
(** Passes that return an [error]: [true] stands for [err == nil]. *)
Variable run_err : config -> pass -> M -> outcome (M * bool).

Record state : Type := { cmod : M; trace : list pass }.

Definition step (cfg : config) (p : pass) (st : state) : outcome state :=
  m <- run cfg p (cmod st) ;;
  Done {| cmod := m; trace := trace st ++ [p] |}.

Definition attempt (cfg : config) (p : pass) (st : state) : outcome (state * bool) :=
  '(m, ok) <- run_err cfg p (cmod st) ;;
  Done ({| cmod := m; trace := trace st ++ [p] |}, ok).

(** The branch [if optLevel > 0 { ... } else { ... }], up to the error
    of [LowerGoroutines]. *)
Definition go_passes (cfg : config) (st : state) : outcome (state * bool) :=
  if 0 <? optLevel cfg then
    st <- step cfg GoPasses st ;;
    st <- step cfg OptimizeMaps st ;;
    st <- step cfg OptimizeStringToBytes st ;;
    st <- step cfg OptimizeAllocs st ;;
    st <- step cfg LowerInterfaces st ;;
    st <- step cfg LowerFuncValues st ;;
    st <- step cfg GoPasses st ;;
    st <- step cfg OptimizeAllocs st ;;
    st <- step cfg OptimizeStringToBytes st ;;
    st <- step cfg LowerIsNil st ;;
    attempt cfg LowerGoroutines st
  else
    st <- step cfg LowerInterfaces st ;;
    st <- step cfg LowerFuncValues st ;;
    attempt cfg LowerGoroutines st.

(** [func (c *Compiler) Optimize(optLevel, sizeLevel int,
    inlinerThreshold uint) error]; [None] is a nil error. *)
Definition Optimize (cfg : config) (st : state) : outcome (state * option string) :=
  st <- (if String.eqb (PanicStrategy cfg) "trap"
         then step cfg ReplacePanicsWithTrap st else Done st) ;;
  st <- step cfg FuncPasses st ;;
  '(st, ok) <- go_passes cfg st ;;
  if negb ok then Done (st, Some "lowering goroutines failed"%string)
  else
    '(st, ok) <- attempt cfg Verify st ;;
    if negb ok
    then Done (st, Some "optimizations caused a verification failure"%string)
    else
      st <- (if 2 <=? sizeLevel cfg then step cfg AddOptsize st else Done st) ;;
      st <- step cfg FuncPasses st ;;
      st <- step cfg ModPasses st ;;
      if gcIsPrecise cfg then
        st <- step cfg AddGlobalsBitmap st ;;
        '(st, ok) <- attempt cfg Verify st ;;
        if negb ok
        then Done (st, Some "GC pass caused a verification failure"%string)
        else Done (st, None)
      else Done (st, None).
End WithPasses.

Arguments cmod {M} s.
Arguments trace {M} s.
Arguments Build_state {M} cmod trace.
Arguments step {M} run cfg p st.
Arguments attempt {M} run_err cfg p st.
Arguments go_passes {M} run run_err cfg st.
Arguments Optimize {M} run run_err cfg st.

(** The Go-specific passes in the order the claim gives them, from the
    first run of [goPasses] to [LowerGoroutines]. *)
Definition go_schedule : list pass :=
  [GoPasses; OptimizeMaps; OptimizeStringToBytes; OptimizeAllocs;
   LowerInterfaces; LowerFuncValues;
   GoPasses; OptimizeAllocs; OptimizeStringToBytes; LowerIsNil; LowerGoroutines].

(** The passes of [Optimize] in the order it calls them, as the
    configuration selects them: up to [LowerGoroutines], ... *)
Definition lowering_schedule (cfg : config) : list pass :=
  (if String.eqb (PanicStrategy cfg) "trap" then [ReplacePanicsWithTrap] else [])
  ++ [FuncPasses]
  ++ (if 0 <? optLevel cfg then go_schedule
      else [LowerInterfaces; LowerFuncValues; LowerGoroutines]).

(** ... and after the first verification. *)
Definition closing_schedule (cfg : config) : list pass :=
  (if 2 <=? sizeLevel cfg then [AddOptsize] else [])
  ++ [FuncPasses; ModPasses]
  ++ (if gcIsPrecise cfg then [AddGlobalsBitmap; Verify] else []).

Definition schedule (cfg : config) : list pass :=
  lowering_schedule cfg ++ [Verify] ++ closing_schedule cfg.

End Driver.

(** ** gc_precise.go: the mark phase *)

Module GC.
Import Word.
Local Open Scope Z_scope.

Inductive blockState : Type :=
| blockStateFree | blockStateHead | blockStateTail | blockStateMark.

(** The globals of the runtime that the collector reads, and the memory
    it scans.  The block states live in the metadata prefix of the heap,
    which no scanned range overlaps; they are kept apart from [load]. *)
Record runtime : Type := {
  bytesPerBlock : Z;
  poolStart : Z;
  endBlock : nat;
  trackedGlobalsStart : Z;
  trackedGlobalsLength : Z;
  trackedGlobalsBitmap : list Z;
  stackTop : Z;
  load : Z -> Z
}.

(** The state the mark phase changes: one state per block, and (ghost)
    the heads of the objects scanned so far, latest first. *)
Record heap : Type := {
  states : list blockState;
  scans : list nat
}.

Definition is_mark (s : blockState) : bool :=
  match s with blockStateMark => true | _ => false end.

(** Modelled from the spec: [gcBlock.state], the 2-bit state of a block
    ("each block has a 2-bit state in the metadata array"); blocks past
    the array read as free. *)
Definition state (st : list blockState) (b : nat) : blockState :=
  nth b st blockStateFree.

(** Modelled from the spec: [gcBlock.setState] ("set it to [mark]"). *)
Fixpoint setState (st : list blockState) (b : nat) (s : blockState)
  : list blockState :=
  match st, b with
  | [], _ => []
  | _ :: rest, O => s :: rest
  | x :: rest, S b' => x :: setState rest b' s
  end.

(** Modelled from the spec: [gcBlock.findHead] ("follow [tail] links back
    to [head]"). *)
Fixpoint findHead (st : list blockState) (b : nat) : nat :=
  match b with
  | O => O
  | S b' =>
      match state st b with
      | blockStateTail => findHead st b'
      | _ => b
      end
  end.

(** Modelled from the spec: the loop of [findNext] over the [tail] blocks,
    which ends at the end of the state array at the latest. *)
Fixpoint skipTails (st : list blockState) (fuel b : nat) : nat :=
  match fuel with
  | O => b
  | S fuel' =>
      match state st b with
      | blockStateTail => skipTails st fuel' (S b)
      | _ => b
      end
  end.

(** Modelled from the spec: [gcBlock.findNext] ("its length is determined
    by walking forward to the next non-[tail] block"). *)
Definition findNext (st : list blockState) (b : nat) : nat :=
  let b1 := match state st b with
            | blockStateHead | blockStateMark => S b
            | _ => b
            end in
  skipTails st (List.length st - b1) b1.

Section WithRuntime.
Variable rt : runtime.

Definition poolEnd : Z := poolStart rt + Z.of_nat (endBlock rt) * bytesPerBlock rt.

(** Modelled from the spec: [addressOnHeap]
    ("[poolStart <= p < poolEnd]", interior pointers included). *)
Definition addressOnHeap (p : Z) : bool :=
  (poolStart rt <=? p) && (p <? poolEnd).

(** Modelled from the spec: [blockFromAddr] ("locate its block"). *)
Definition blockFromAddr (addr : Z) : nat :=
  Z.to_nat (uintptr (addr - poolStart rt) / bytesPerBlock rt).

(** Modelled from the spec: [gcBlock.address], the first byte of a block. *)
Definition address (b : nat) : Z :=
  uintptr (poolStart rt + Z.of_nat b * bytesPerBlock rt).

(** [func markRoot(addr, root uintptr)]; [self] is the recursive call
    of [markRoots]. *)
Definition markRoot (self : heap -> Z -> Z -> option heap)
           (h : heap) (addr root : Z) : option heap :=
  if addressOnHeap root then
    let block := blockFromAddr root in
    let head := findHead (states h) block in
    if negb (is_mark (state (states h) head)) then
      let h1 := {| states := setState (states h) head blockStateMark;
                   scans := head :: scans h |} in
      let next := findNext (states h1) block in
      self h1 (address head) (address next)
    else Some h
  else Some h.

(** [func markRoots(start, end uintptr)]; [None] when the fuel runs out. *)
Fixpoint markRoots (fuel : nat) (h : heap) (start end_ : Z) : option heap :=
  match fuel with
  | O => None
  | S fuel' =>
      if start =? end_ then Some h
      else
        match markRoot (markRoots fuel') h start (load rt start) with
        | Some h1 => markRoots fuel' h1 (uintptr (start + wordSize)) end_
        | None => None
        end
  end.

(** The bit of slot [i] in the globals bitmap:
    [trackedGlobalsBitmap[i/8]&(1<<(i%8)) != 0]. *)
Definition tracked (i : Z) : bool :=
  negb (Z.land (nth (Z.to_nat (i / 8)) (trackedGlobalsBitmap rt) 0)
               (Z.shiftl 1 (i mod 8)) =? 0).

(** The loop of [markGlobals] from slot [i], [n] slots to go. *)
Fixpoint markGlobals_loop (fuel n : nat) (i : Z) (h : heap) : option heap :=
  match n with
  | O => Some h
  | S n' =>
      let h1 :=
        if tracked i then
          let addr := uintptr (trackedGlobalsStart rt + i * wordSize) in
          markRoot (markRoots fuel) h addr (load rt addr)
        else Some h in
      match h1 with
      | Some h1 => markGlobals_loop fuel n' (i + 1) h1
      | None => None
      end
  end.

(** [func markGlobals()] *)
Definition markGlobals (fuel : nat) (h : heap) : option heap :=
  markGlobals_loop fuel (Z.to_nat (trackedGlobalsLength rt)) 0 h.

(** [sweep] belongs to the allocator and [getCurrentStackPointer] to
    the target. *)
Variable sweep : heap -> heap.
Variable getCurrentStackPointer : Z.

(** [func GC()] *)
Definition GC (fuel : nat) (h : heap) : option heap :=
  match markGlobals fuel h with
  | Some h1 =>
      match markRoots fuel h1 getCurrentStackPointer (stackTop rt) with
      | Some h2 => Some (sweep h2)
      | None => None
      end
  | None => None
  end.
End WithRuntime.

(** [GC] on the WebAssembly target. *)
Definition GC_wasm (rt : runtime) (sweep : heap -> heap) : nat -> heap -> option heap :=
  GC rt sweep (Wasm.getCurrentStackPointer (stackTop rt)).

Definition unmarked (st : list blockState) : nat :=
  List.length (filter (fun s => negb (is_mark s)) st).

(** The layout the proofs need of the runtime: blocks are a whole number
    of words, and the pool lies inside the 32-bit address space. *)
Definition runtime_ok (rt : runtime) : Prop :=
  0 < bytesPerBlock rt /\ bytesPerBlock rt mod 4 = 0 /\ 0 <= poolStart rt /\
  poolStart rt + Z.of_nat (endBlock rt) * bytesPerBlock rt < 4294967296.

(** A heap during the mark phase: a state per block, no object scanned
    twice, and every scanned object marked. *)
Definition good (rt : runtime) (h : heap) : Prop :=
  List.length (states h) = endBlock rt /\
  NoDup (scans h) /\
  forall b, In b (scans h) -> state (states h) b = blockStateMark.

(** The range from [a] to [e] is [n] words, without wrap-around. *)
Definition word_range (a e : Z) (n : nat) : Prop :=
  0 <= a /\ e = a + 4 * Z.of_nat n /\ e < 4294967296.

Definition poolWords (rt : runtime) : nat :=
  Z.to_nat (Z.of_nat (endBlock rt) * (bytesPerBlock rt / 4)).

(** What a call [self] of [markRoots] gives on a heap with fewer than [k]
    unmarked blocks. *)
Definition scans_below (rt : runtime) (self : heap -> Z -> Z -> option heap)
           (k : nat) : Prop :=
  forall h1 a e n,
    good rt h1 -> (S (unmarked (states h1)) <= k)%nat ->
    word_range a e n -> (n <= poolWords rt)%nat ->
    exists h2, self h1 a e = Some h2 /\ good rt h2 /\
               (unmarked (states h2) <= unmarked (states h1))%nat.

(** Two objects that point at each other, the first reachable from the
    one tracked global. *)
Definition cyclic_rt : runtime :=
  {| bytesPerBlock := 16; poolStart := 1024; endBlock := 4;
     trackedGlobalsStart := 512; trackedGlobalsLength := 1;
     trackedGlobalsBitmap := [1]; stackTop := 2048;
     load := fun a => if a =? 512 then 1024
                      else if a =? 1024 then 1040
                      else if a =? 1040 then 1024 else 0 |}.

Definition cyclic_heap : heap :=
  {| states := [blockStateHead; blockStateHead; blockStateTail; blockStateFree];
     scans := [] |}.

(** *** What the mark phase is checked against *)

(** The mark phase only ever sets states to [mark]: the heap [h'] has the
    states of [h] but for blocks that are now marked, and the scans of [h]
    with later ones before them. *)
Definition only_marks (h h' : heap) : Prop :=
  List.length (states h') = List.length (states h) /\
  (forall b, state (states h') b = state (states h) b \/
             state (states h') b = blockStateMark) /\
  exists new, scans h' = new ++ scans h.

(** The object a heap pointer [p] points into: the head of its block. *)
Definition target (rt : runtime) (st : list blockState) (p : Z) : nat :=
  findHead st (blockFromAddr rt p).

(** The address [a] is the slot of a global variable that the bitmap
    flags as holding a pointer. *)
Definition global_root (rt : runtime) (a : Z) : Prop :=
  exists i, 0 <= i < trackedGlobalsLength rt /\ tracked rt i = true /\
            a = uintptr (trackedGlobalsStart rt + i * wordSize).

(** The address [a] is a word of the stack, from [sp] up to [stackTop]. *)
Definition stack_root (rt : runtime) (sp a : Z) : Prop :=
  exists i : nat, a = sp + 4 * Z.of_nat i /\ a < stackTop rt.

(** The address [a] is a word of the object whose head is block [b]. *)
Definition field (rt : runtime) (st : list blockState) (b : nat) (a : Z) : Prop :=
  exists i : nat, a = address rt b + 4 * Z.of_nat i /\
                  a < address rt (findNext st b).

(** The objects the program can still get at: those a root points into,
    and those a word of such an object points into. *)
Inductive reachable (rt : runtime) (st : list blockState) (sp : Z) : nat -> Prop :=
| reachable_root (a : Z) :
    global_root rt a \/ stack_root rt sp a ->
    addressOnHeap rt (load rt a) = true ->
    reachable rt st sp (target rt st (load rt a))
| reachable_field (b : nat) (a : Z) :
    reachable rt st sp b -> field rt st b a ->
    addressOnHeap rt (load rt a) = true ->
    reachable rt st sp (target rt st (load rt a)).

Definition is_tail (s : blockState) : bool :=
  match s with blockStateTail => true | _ => false end.

(** Two state arrays with the same [tail] blocks: the same objects. *)
Definition same_tails (st st' : list blockState) : Prop :=
  List.length st = List.length st' /\
  forall b, is_tail (state st b) = is_tail (state st' b).

(** The first block after [b] that is no [tail]: where the object that
    starts at [b] ends. *)
Definition objectEnd (st : list blockState) (b : nat) : nat :=
  skipTails st (List.length st - S b) (S b).

(** Every heap pointer in the object at [b] points into a marked object. *)
Definition closed (rt : runtime) (h : heap) (b : nat) : Prop :=
  forall i : nat,
    address rt b + 4 * Z.of_nat i < address rt (objectEnd (states h) b) ->
    addressOnHeap rt (load rt (address rt b + 4 * Z.of_nat i)) = true ->
    state (states h) (target rt (states h) (load rt (address rt b + 4 * Z.of_nat i)))
    = blockStateMark.

(** The mark phase went from [h] to [h']: same objects, marks kept. *)
Definition marks_kept (h h' : heap) : Prop :=
  same_tails (states h) (states h') /\
  forall b, state (states h) b = blockStateMark ->
            state (states h') b = blockStateMark.

(** What a scan of the [n] words from [a] leaves. *)
Definition scanned (rt : runtime) (h : heap) (a : Z) (n : nat) (h' : heap) : Prop :=
  marks_kept h h' /\
  (forall i : nat, (i < n)%nat ->
     addressOnHeap rt (load rt (a + 4 * Z.of_nat i)) = true ->
     state (states h') (target rt (states h') (load rt (a + 4 * Z.of_nat i)))
     = blockStateMark) /\
  (forall b, state (states h') b = blockStateMark ->
             state (states h) b = blockStateMark \/ closed rt h' b).

(** The recursive call [self] of [markRoots] scans what it is asked to. *)
Definition scans_range (rt : runtime) (self : heap -> Z -> Z -> option heap) : Prop :=
  forall h a e n h',
    List.length (states h) = endBlock rt ->
    state (states h) 0 <> blockStateTail ->
    word_range a e n -> self h a e = Some h' ->
    scanned rt h a n h'.

(** The slots of the globals whose bit is set in the bitmap, bit [i mod 8]
    of byte [i / 8] for slot [i], in the order of their addresses. *)
Definition flagged_slots (rt : runtime) : list Z :=
  filter (fun i => Z.testbit (nth (Z.to_nat (i / 8)) (trackedGlobalsBitmap rt) 0)
                             (i mod 8))
         (map Z.of_nat (seq 0 (Z.to_nat (trackedGlobalsLength rt)))).

(** Each of [slots] taken for a root, one after the other: the word of
    the slot is read and handed to [markRoot]. *)
Fixpoint mark_slots (rt : runtime) (fuel : nat) (slots : list Z) (h : heap)
  : option heap :=
  match slots with
  | [] => Some h
  | i :: rest =>
      let addr := uintptr (trackedGlobalsStart rt + i * wordSize) in
      match markRoot rt (markRoots rt fuel) h addr (load rt addr) with
      | Some h1 => mark_slots rt fuel rest h1
      | None => None
      end
  end.

(** A heap with one object, and two globals that point at it, of which
    the bitmap flags only the second. *)
Definition one_flag_rt : runtime :=
  {| bytesPerBlock := 16; poolStart := 1024; endBlock := 2;
     trackedGlobalsStart := 512; trackedGlobalsLength := 2;
     trackedGlobalsBitmap := [2]; stackTop := 2048;
     load := fun a => if a =? 512 then 1024
                      else if a =? 516 then 1024 else 0 |}.

(** The same globals with the one flag on bit 2, past the two slots. *)
Definition no_flag_rt : runtime :=
  {| bytesPerBlock := 16; poolStart := 1024; endBlock := 2;
     trackedGlobalsStart := 512; trackedGlobalsLength := 2;
     trackedGlobalsBitmap := [4]; stackTop := 2048;
     load := fun a => if a =? 512 then 1024
                      else if a =? 516 then 1024 else 0 |}.

(** An object of one block, and a free block. *)
Definition one_object : heap :=
  {| states := [blockStateHead; blockStateFree]; scans := [] |}.

End GC.

(** ** Example modules *)

Module Examples.
Import IR Optimizer.
Local Open Scope string_scope.

Definition mk (id : nat) (op : opcode) (ops : list value) (t : ty) : inst :=
  {| iid := id; iop := op; ioperands := ops; ity := t |}.

Definition i8ptr : ty := TPtr (TInt 8).

Definition declare (name : string) (params : list (list string)) : func :=
  {| fname := name; fparams := params; fblocks := [] |}.

(** A 16-byte object that is written, read and handed to a function that
    does not capture it. *)
Definition local_object : module :=
  {| mfuncs :=
       [declare "runtime.alloc" [[]];
        declare "sink" [["nocapture"%string]];
        {| fname := "main"; fparams := [];
           fblocks :=
             [[mk 0 (OtherOp 0) [] TVoid;
               mk 1 Call [VConstInt 16; VFunc "runtime.alloc"] i8ptr;
               mk 2 BitCast [VInst 1] (TPtr (TInt 32));
               mk 3 Store [VConstInt 1; VInst 2] TVoid;
               mk 4 Load [VInst 2] (TInt 32);
               mk 5 Call [VInst 2; VFunc "sink"] TVoid;
               mk 6 (OtherOp 1) [] TVoid]] |}];
     mnext := 7 |}.

(** An object that is called through: the callee of instruction 3 is the
    value itself, and the call has no argument. *)
Definition called_object : module :=
  {| mfuncs :=
       [declare "runtime.alloc" [[]];
        {| fname := "main"; fparams := [];
           fblocks :=
             [[mk 1 Call [VConstInt 16; VFunc "runtime.alloc"] i8ptr;
               mk 2 BitCast [VInst 1] (TPtr (TOther 0));
               mk 3 Call [VInst 2] TVoid;
               mk 4 (OtherOp 1) [] TVoid]] |}];
     mnext := 5 |}.

(** Instructions are numbered in program order in the examples. *)
Definition program_order (m : module) (id : nat) : nat := mnext m - S id.

(** Two panics, one of each kind. *)
Definition panicking : module :=
  {| mfuncs :=
       [declare "llvm.trap" [];
        declare "runtime._panic" [[]; []];
        declare "runtime.runtimePanic" [[]; []];
        {| fname := "main"; fparams := [];
           fblocks :=
             [[mk 0 (OtherOp 0) [] TVoid;
               mk 1 Call [VConstOther 0; VConstOther 1; VFunc "runtime._panic"] TVoid;
               mk 2 (OtherOp 1) [] TVoid];
              [mk 3 Call [VConstOther 2; VConstInt 5; VFunc "runtime.runtimePanic"] TVoid;
               mk 4 (OtherOp 1) [] TVoid]] |}];
     mnext := 5 |}.

(** A map that is only written (instructions 1 and 2) and one that is
    also read (3, 4 and 5). *)
Definition two_maps : module :=
  {| mfuncs :=
       [declare "runtime.hashmapMake" [[]; []];
        declare "runtime.hashmapStringSet" [[]; []; []; []];
        declare "runtime.hashmapStringGet" [[]; []; []; []];
        {| fname := "main"; fparams := [];
           fblocks :=
             [[mk 1 Call [VConstInt 8; VConstInt 4; VFunc "runtime.hashmapMake"] i8ptr;
               mk 2 Call [VInst 1; VConstOther 0; VConstInt 1; VConstOther 1;
                          VFunc "runtime.hashmapStringSet"] TVoid;
               mk 3 Call [VConstInt 8; VConstInt 4; VFunc "runtime.hashmapMake"] i8ptr;
               mk 4 Call [VInst 3; VConstOther 0; VConstInt 1; VConstOther 1;
                          VFunc "runtime.hashmapStringSet"] TVoid;
               mk 5 Call [VInst 3; VConstOther 0; VConstInt 1; VConstOther 2;
                          VFunc "runtime.hashmapStringGet"] TVoid;
               mk 6 (OtherOp 1) [] TVoid]] |}];
     mnext := 7 |}.

(** [writer([]byte("hi"))] where [writer] only reads its slice. *)
Definition bytes_of_constant : module :=
  {| mfuncs :=
       [declare "runtime.stringToBytes" [[]; []];
        declare "writer" [["readonly"]; []; []];
        {| fname := "main"; fparams := [];
           fblocks :=
             [[mk 1 Call [VConstOther 0; VConstInt 2; VFunc "runtime.stringToBytes"]
                  (TOther 1);
               mk 2 ExtractValue [VInst 1] i8ptr;
               mk 3 ExtractValue [VInst 1] (TInt 32);
               mk 4 ExtractValue [VInst 1] (TInt 32);
               mk 5 Call [VInst 2; VInst 3; VInst 4; VFunc "writer"] TVoid;
               mk 6 (OtherOp 1) [] TVoid]] |}];
     mnext := 7 |}.

(** An allocation whose size is a constant that is no integer ([undef]). *)
Definition undef_sized_alloc : module :=
  {| mfuncs :=
       [declare "runtime.alloc" [[]];
        {| fname := "main"; fparams := [];
           fblocks :=
             [[mk 1 Call [VConstOther 0; VFunc "runtime.alloc"] i8ptr;
               mk 2 Load [VInst 1] (TInt 8);
               mk 3 (OtherOp 1) [] TVoid]] |}];
     mnext := 4 |}.

(** Allocations of a size that is no constant (a parameter) and of 300
    bytes. *)
Definition unpromoted_allocs : module :=
  {| mfuncs :=
       [declare "runtime.alloc" [[]];
        {| fname := "main"; fparams := [[]];
           fblocks :=
             [[mk 1 Call [VArg "main" 0; VFunc "runtime.alloc"] i8ptr;
               mk 2 Load [VInst 1] (TInt 8);
               mk 3 Call [VConstInt 300; VFunc "runtime.alloc"] i8ptr;
               mk 4 Load [VInst 3] (TInt 8);
               mk 5 (OtherOp 1) [] TVoid]] |}];
     mnext := 6 |}.

(** A buffer that is read through a GEP by a function that does not write
    to its argument. *)
Definition read_through_gep : module :=
  {| mfuncs :=
       [declare "reader" [["readonly"]];
        {| fname := "main"; fparams := [];
           fblocks :=
             [[mk 1 Alloca [] i8ptr;
               mk 2 GetElementPtr [VInst 1; VConstInt 4] i8ptr;
               mk 3 Call [VInst 2; VFunc "reader"] TVoid;
               mk 4 (OtherOp 1) [] TVoid]] |}];
     mnext := 5 |}.

(** An object that is passed to a variadic function past its one declared
    parameter, which carries no attribute. *)
Definition variadic_call : module :=
  {| mfuncs :=
       [declare "runtime.alloc" [[]];
        declare "printf" [[]];
        {| fname := "main"; fparams := [];
           fblocks :=
             [[mk 1 Call [VConstInt 16; VFunc "runtime.alloc"] i8ptr;
               mk 2 Call [VConstOther 0; VInst 1; VFunc "printf"] (TInt 32);
               mk 3 (OtherOp 1) [] TVoid]] |}];
     mnext := 4 |}.

(** A panic in a module that does not declare [llvm.trap]. *)
Definition panic_without_trap : module :=
  {| mfuncs :=
       [declare "runtime._panic" [[]; []];
        {| fname := "main"; fparams := [];
           fblocks :=
             [[mk 1 Call [VConstOther 0; VConstOther 1; VFunc "runtime._panic"] TVoid;
               mk 2 (OtherOp 1) [] TVoid]] |}];
     mnext := 3 |}.

(** A byte slice that is stored as a whole, and a field of it taken out
    with a type that is neither integer nor pointer. *)
Definition unknown_field : module :=
  {| mfuncs :=
       [declare "runtime.stringToBytes" [[]; []];
        {| fname := "main"; fparams := [[]];
           fblocks :=
             [[mk 1 Call [VConstOther 0; VConstInt 2; VFunc "runtime.stringToBytes"]
                  (TOther 1);
               mk 2 Store [VInst 1; VArg "main" 0] TVoid;
               mk 3 ExtractValue [VInst 1] (TArray (TInt 8) 2);
               mk 4 (OtherOp 1) [] TVoid]] |}];
     mnext := 5 |}.

(** A byte slice that is only stored as a whole, and one that is not
    used. *)
Definition whole_slices : module :=
  {| mfuncs :=
       [declare "runtime.stringToBytes" [[]; []];
        {| fname := "main"; fparams := [[]];
           fblocks :=
             [[mk 1 Call [VConstOther 0; VConstInt 2; VFunc "runtime.stringToBytes"]
                  (TOther 1);
               mk 2 Store [VInst 1; VArg "main" 0] TVoid;
               mk 3 Call [VConstOther 1; VConstInt 3; VFunc "runtime.stringToBytes"]
                  (TOther 1);
               mk 4 (OtherOp 1) [] TVoid]] |}];
     mnext := 5 |}.

(** A nil check of a parameter through a bitcast, and a branch on it. *)
Definition nil_check : module :=
  {| mfuncs :=
       [declare "runtime.isnil" [[]];
        {| fname := "main"; fparams := [[]];
           fblocks :=
             [[mk 1 BitCast [VArg "main" 0] i8ptr;
               mk 2 Call [VInst 1; VFunc "runtime.isnil"] (TInt 1);
               mk 3 (OtherOp 2) [VInst 2] TVoid]] |}];
     mnext := 4 |}.

(** Two byte slices of constants: the first is handed to a function that
    only reads it, the second to one that may write to it. *)
Definition two_slices : module :=
  {| mfuncs :=
       [declare "runtime.stringToBytes" [[]; []];
        declare "reader" [["readonly"]; []];
        declare "scribble" [[]; []];
        {| fname := "main"; fparams := [];
           fblocks :=
             [[mk 1 Call [VConstOther 0; VConstInt 2; VFunc "runtime.stringToBytes"]
                  (TOther 1);
               mk 2 ExtractValue [VInst 1] i8ptr;
               mk 3 ExtractValue [VInst 1] (TInt 32);
               mk 4 Call [VInst 2; VInst 3; VFunc "reader"] TVoid;
               mk 5 Call [VConstOther 1; VConstInt 3; VFunc "runtime.stringToBytes"]
                  (TOther 1);
               mk 6 ExtractValue [VInst 5] i8ptr;
               mk 7 ExtractValue [VInst 5] (TInt 32);
               mk 8 Call [VInst 6; VInst 7; VFunc "scribble"] TVoid;
               mk 9 (OtherOp 1) [] TVoid]] |}];
     mnext := 10 |}.

(** [hashmapMake] taken as a value: it is stored (instruction 1) and
    handed to a function (2), and never called. *)
Definition make_as_value : module :=
  {| mfuncs :=
       [declare "runtime.hashmapMake" [[]; []];
        declare "register" [[]];
        {| fname := "main"; fparams := [[]];
           fblocks :=
             [[mk 1 Store [VFunc "runtime.hashmapMake"; VArg "main" 0] TVoid;
               mk 2 Call [VFunc "runtime.hashmapMake"; VFunc "register"] TVoid;
               mk 3 (OtherOp 1) [] TVoid]] |}];
     mnext := 4 |}.

End Examples.

(* ================================================================= *)
(** * Part II: properties *)
(* ================================================================= *)

(** Closed arithmetic side conditions, by evaluation. *)
Ltac by_evaluation :=
  vm_compute; repeat split; intros; try discriminate; try reflexivity.

Section WordFacts.
Import Word.
Local Open Scope Z_scope.

Lemma uintptr_small (x : Z) : 0 <= x < 4294967296 -> uintptr x = x.
Proof. intros H. unfold uintptr, TargetBits. now apply Z.mod_small. Qed.

Lemma andnot_pow2 (x k : Z) :
  0 <= k -> andnot x (2 ^ k - 1) = 2 ^ k * (x / 2 ^ k).
Proof.
  intros Hk. unfold andnot.
  replace (2 ^ k - 1) with (Z.ones k) by (rewrite Z.ones_equiv; lia).
  rewrite Z.ldiff_ones_r, Z.shiftr_div_pow2, Z.shiftl_mul_pow2 by lia.
  lia.
Qed.

Lemma andnot_pow2_bounds (x k : Z) :
  0 <= k -> x - 2 ^ k < andnot x (2 ^ k - 1) <= x.
Proof.
  intros Hk. rewrite andnot_pow2 by lia.
  assert (0 < 2 ^ k) by (apply Z.pow_pos_nonneg; lia).
  pose proof (Z.mod_pos_bound x (2 ^ k) ltac:(lia)).
  pose proof (Z.div_mod x (2 ^ k) ltac:(lia)). lia.
Qed.
End WordFacts.

Section WasmHeap.
Import Word Wasm.
Local Open Scope Z_scope.

Lemma heapEnd_align_up (heapStart : Z) :
  0 <= heapStart -> heapStart + 65535 < 2 ^ 32 ->
  heapEnd heapStart = 65536 * ((heapStart + 65535) / 65536).
Proof.
  intros H0 H1. unfold heapEnd, wasmPageSize.
  change (2 ^ 32) with 4294967296 in H1.
  replace (uintptr (uintptr (heapStart + 64 * 1024) - 1))
    with (uintptr (heapStart + 64 * 1024 - 1))
    by (unfold uintptr; now rewrite Zminus_mod_idemp_l).
  rewrite (uintptr_small (heapStart + 64 * 1024 - 1)) by lia.
  rewrite (uintptr_small (64 * 1024 - 1)) by lia.
  change (64 * 1024 - 1) with (2 ^ 16 - 1).
  rewrite andnot_pow2 by lia.
  change (2 ^ 16) with 65536. f_equal. f_equal. lia.
Qed.

(** C3, as the code has it: the default heap end is [heapStart] rounded up
    to the next multiple of the 64 KiB page size, so the heap it leaves is
    the rest of the page [heapStart] lies in: between 0 and 65535 bytes,
    never a whole page. *)
Theorem heapEnd_rounds_up_to_page (heapStart : Z) :
  0 <= heapStart -> heapStart + 65535 < 2 ^ 32 ->
  heapEnd heapStart mod wasmPageSize = 0 /\
  heapStart <= heapEnd heapStart <= heapStart + 65535.
Proof.
  intros H0 H1. rewrite heapEnd_align_up by assumption.
  unfold wasmPageSize. change (64 * 1024) with 65536.
  pose proof (Z.div_mod (heapStart + 65535) 65536 ltac:(lia)).
  pose proof (Z.mod_pos_bound (heapStart + 65535) 65536 ltac:(lia)).
  split.
  - rewrite Z.mul_comm. apply Z.mod_mul. lia.
  - lia.
Qed.

Lemma heapEnd_rounds_up_to_page_witness :
  heapEnd 70000 mod wasmPageSize = 0 /\
  70000 <= heapEnd 70000 <= 70000 + 65535.
Proof. apply (heapEnd_rounds_up_to_page 70000); by_evaluation. Defined.

(** C3 as stated fails: with a page-aligned [__heap_base] the default heap
    end is [heapStart] itself, not [heapStart + 65536]. *)
Lemma heapEnd_not_one_page_above :
  heapEnd 65536 = 65536 /\ heapEnd 65536 <> 65536 + 65536.
Proof. split; vm_compute; congruence. Qed.
End WasmHeap.

Section InitFacts.
Import Word GCInit.
Local Open Scope Z_scope.

Lemma layout_no_wrap (k heapStart heapEnd : Z) :
  0 <= k <= 29 ->
  0 <= heapStart -> heapStart <= heapEnd -> heapEnd < 2 ^ 32 ->
  12 * 2 ^ k * 2 ^ k <= heapEnd - heapStart ->
  let B := 2 ^ k in
  let M := (heapEnd - heapStart) / (4 * B) in
  compute_layout B heapStart heapEnd =
    {| metadataSize := M;
       poolStart := B * ((heapStart + M + (B - 1)) / B);
       poolEnd := B * (heapEnd / B);
       numBlocks := heapEnd / B - (heapStart + M + (B - 1)) / B |}
  /\ 3 * B <= M /\ heapStart + M + (B - 1) <= heapEnd.
Proof.
  intros Hk H0 Hle Hhi Hbig B M.
  assert (HB : 0 < B) by (apply Z.pow_pos_nonneg; lia).
  assert (HB29 : B <= 2 ^ 29) by (apply Z.pow_le_mono_r; lia).
  change (2 ^ 29) with 536870912 in HB29. change (2 ^ 32) with 4294967296 in *.
  fold B in Hbig.
  assert (HM3 : 3 * B <= M).
  { unfold M. apply Z.div_le_lower_bound; lia. }
  assert (HMT : 4 * B * M <= heapEnd - heapStart).
  { unfold M. apply Z.mul_div_le. lia. }
  assert (HMle : heapStart + M + (B - 1) <= heapEnd) by nia.
  split; [| split; assumption].
  unfold compute_layout, blocksPerStateByte.
  rewrite (uintptr_small (heapEnd - heapStart)) by lia.
  rewrite (uintptr_small (4 * B)) by lia.
  fold M.
  rewrite (uintptr_small (heapStart + M)) by lia.
  rewrite (uintptr_small (B - 1)) by lia.
  rewrite (uintptr_small (heapStart + M + (B - 1))) by lia.
  assert (HA : forall x, andnot x (B - 1) = B * (x / B))
    by (intros x; unfold B; apply andnot_pow2; lia).
  rewrite !HA.
  assert (Hq : (heapStart + M + (B - 1)) / B <= heapEnd / B)
    by (apply Z.div_le_mono; lia).
  assert (Hq0 : 0 <= (heapStart + M + (B - 1)) / B)
    by (apply Z.div_pos; lia).
  assert (Hqe : B * (heapEnd / B) <= heapEnd) by (apply Z.mul_div_le; lia).
  rewrite (uintptr_small (B * (heapEnd / B) - B * ((heapStart + M + (B - 1)) / B)))
    by nia.
  f_equal.
  rewrite <- Z.mul_sub_distr_l, Z.mul_comm. apply Z.div_mul. lia.
Qed.

(** C6, as the code has it: when the heap spans at least
    [12 * bytesPerBlock^2] bytes, the metadata prefix has a state for every
    block and [init] returns without reaching its sanity-check panic. *)
Theorem init_metadata_covers_blocks (k heapStart heapEnd : Z) (gcAsserts : bool) :
  0 <= k <= 29 ->
  0 <= heapStart -> heapStart <= heapEnd -> heapEnd < 2 ^ 32 ->
  12 * 2 ^ k * 2 ^ k <= heapEnd - heapStart ->
  let l := compute_layout (2 ^ k) heapStart heapEnd in
  metadataSize l * blocksPerStateByte >= numBlocks l /\
  init (2 ^ k) gcAsserts heapStart heapEnd = Done l.
Proof.
  intros Hk H0 Hle Hhi Hbig l.
  destruct (layout_no_wrap k heapStart heapEnd Hk H0 Hle Hhi Hbig) as (Hl & HM3 & HMle).
  cbv zeta in Hl, HM3, HMle.
  set (B := 2 ^ k) in *. set (M := (heapEnd - heapStart) / (4 * B)) in *.
  assert (HB : 0 < B) by (apply Z.pow_pos_nonneg; lia).
  assert (HB29 : B <= 2 ^ 29) by (apply Z.pow_le_mono_r; lia).
  change (2 ^ 29) with 536870912 in HB29. change (2 ^ 32) with 4294967296 in *.
  assert (Hcover : heapEnd / B - (heapStart + M + (B - 1)) / B <= 4 * M).
  { pose proof (Z.div_mod (heapEnd - heapStart) (4 * B) ltac:(lia)) as HT.
    pose proof (Z.mod_pos_bound (heapEnd - heapStart) (4 * B) ltac:(lia)) as HTr.
    fold M in HT.
    pose proof (Z.div_mod heapEnd B ltac:(lia)) as He.
    pose proof (Z.mod_pos_bound heapEnd B ltac:(lia)) as Her.
    pose proof (Z.div_mod (heapStart + M + (B - 1)) B ltac:(lia)) as Ha.
    pose proof (Z.mod_pos_bound (heapStart + M + (B - 1)) B ltac:(lia)) as Har.
    nia. }
  assert (Hl' : l = compute_layout B heapStart heapEnd) by reflexivity.
  rewrite Hl in Hl'.
  split.
  - rewrite Hl'. cbn [metadataSize numBlocks]. unfold blocksPerStateByte. lia.
  - unfold init, metadata_too_small. fold B. fold l.
    rewrite Hl'. cbn [metadataSize numBlocks]. unfold blocksPerStateByte.
    assert (HM4 : 0 <= M * 4 < 4294967296).
    { assert (4 * B * M <= heapEnd - heapStart)
        by (unfold M; apply Z.mul_div_le; lia). nia. }
    rewrite (uintptr_small (M * 4)) by lia.
    replace (M * 4 <? heapEnd / B - (heapStart + M + (B - 1)) / B) with false
      by (symmetry; apply Z.ltb_ge; lia).
    now rewrite andb_false_r.
Qed.

Lemma init_metadata_covers_blocks_witness :
  let l := compute_layout (2 ^ 4) 65536 131072 in
  metadataSize l * blocksPerStateByte >= numBlocks l /\
  init (2 ^ 4) true 65536 131072 = Done l.
Proof.
  apply (init_metadata_covers_blocks 4 65536 131072 true); by_evaluation.
Defined.

(** C6 as stated fails: with 16-byte blocks and the 48-byte heap
    [65488, 65536) (the WebAssembly default for that heap base) the layout
    has three blocks and no metadata byte, and [init] panics. *)
Lemma init_sanity_check_reachable :
  65488 <= Wasm.heapEnd 65488 /\
  let l := compute_layout 16 65488 (Wasm.heapEnd 65488) in
  ~ (metadataSize l * blocksPerStateByte >= numBlocks l) /\
  init 16 true 65488 (Wasm.heapEnd 65488) = Panic "gc: metadata array is too small".
Proof. vm_compute. repeat split; congruence. Qed.
End InitFacts.

(** ** The order of the passes in [Optimize] *)

Section DriverFacts.
Import Driver.
Local Open Scope Z_scope.

Variable M : Type.
Variable run : config -> pass -> M -> outcome M.
Variable run_err : config -> pass -> M -> outcome (M * bool).

(** Every pass returns (none panics). *)
Hypothesis run_returns : forall cfg p m, exists m', run cfg p m = Done m'.
Hypothesis run_err_returns : forall cfg p m, exists m' ok, run_err cfg p m = Done (m', ok).

Lemma step_trace cfg p st :
  exists st', step run cfg p st = Done st' /\ trace st' = trace st ++ [p].
Proof.
  unfold step. destruct (run_returns cfg p (cmod st)) as [m' ->]. cbn.
  eexists; split; [reflexivity | reflexivity].
Qed.

Lemma attempt_trace cfg p st :
  exists st' ok, attempt run_err cfg p st = Done (st', ok) /\ trace st' = trace st ++ [p].
Proof.
  unfold attempt. destruct (run_err_returns cfg p (cmod st)) as (m' & ok & ->). cbn.
  do 2 eexists; split; reflexivity.
Qed.

Ltac run_step H :=
  match goal with
  | |- context [step run ?cfg ?p ?st] =>
      let st' := fresh "st" in
      let E := fresh "E" in
      destruct (step_trace cfg p st) as (st' & E & H); rewrite E; clear E; cbn [bind]
  end.

Lemma go_passes_trace cfg st :
  0 < optLevel cfg ->
  exists st' ok, go_passes run run_err cfg st = Done (st', ok)
                 /\ trace st' = trace st ++ go_schedule.
Proof.
  intros Hopt. unfold go_passes.
  replace (0 <? optLevel cfg) with true by (symmetry; now apply Z.ltb_lt).
  run_step T1. run_step T2. run_step T3. run_step T4. run_step T5.
  run_step T6. run_step T7. run_step T8. run_step T9. run_step T10.
  match goal with
  | |- context [attempt run_err cfg LowerGoroutines ?s] =>
      destruct (attempt_trace cfg LowerGoroutines s) as (st' & ok & E & T11)
  end.
  exists st', ok. split; [exact E |].
  rewrite T11, T10, T9, T8, T7, T6, T5, T4, T3, T2, T1.
  unfold go_schedule. now rewrite <- !app_assoc.
Qed.

End DriverFacts.


(** ** The mark phase *)

Section BlockFacts.
Import GC.

Lemma state_setState_same st b s :
  (b < List.length st)%nat -> state (setState st b s) b = s.
Proof.
  revert b. induction st as [| x st IH]; intros [| b] Hb; cbn in *; try lia.
  - reflexivity.
  - apply IH. lia.
Qed.

Lemma state_setState_other st b b' s :
  b <> b' -> state (setState st b s) b' = state st b'.
Proof.
  revert b b'. induction st as [| x st IH]; intros [| b] [| b'] Hne; cbn; try reflexivity.
  - congruence.
  - apply IH. congruence.
Qed.

Lemma length_setState st b s : List.length (setState st b s) = List.length st.
Proof.
  revert b. induction st as [| x st IH]; intros [| b]; cbn; try reflexivity.
  now rewrite IH.
Qed.

Lemma unmarked_setState st b :
  (b < List.length st)%nat -> is_mark (state st b) = false ->
  S (unmarked (setState st b blockStateMark)) = unmarked st.
Proof.
  unfold unmarked.
  revert b. induction st as [| x st IH]; intros [| b] Hb Hs; cbn in *; try lia.
  - unfold state in Hs. cbn in Hs. rewrite Hs. reflexivity.
  - unfold state in Hs. cbn in Hs. fold (state st b) in Hs.
    destruct (is_mark x); cbn; rewrite <- (IH b) by (lia || assumption); reflexivity.
Qed.

Lemma findHead_le st b : (findHead st b <= b)%nat.
Proof.
  induction b as [| b IH]; cbn; [lia |].
  destruct (state st (S b)); lia.
Qed.

Lemma findHead_moved st b : findHead st b <> b -> state st b = blockStateTail.
Proof.
  destruct b as [| b]; cbn; [congruence |].
  destruct (state st (S b)) eqn:E; congruence.
Qed.

Lemma skipTails_ge st fuel b : (b <= skipTails st fuel b)%nat.
Proof.
  revert b. induction fuel as [| fuel IH]; intros b; cbn; [lia |].
  destruct (state st b); try lia. specialize (IH (S b)). lia.
Qed.

Lemma skipTails_le st fuel b : (skipTails st fuel b <= b + fuel)%nat.
Proof.
  revert b. induction fuel as [| fuel IH]; intros b; cbn; [lia |].
  destruct (state st b); try lia. specialize (IH (S b)). lia.
Qed.

Lemma skipTails_tail st fuel b :
  state st b = blockStateTail -> (0 < fuel)%nat -> (b < skipTails st fuel b)%nat.
Proof.
  intros Hs Hf. destruct fuel as [| fuel]; [lia |]. cbn. rewrite Hs.
  pose proof (skipTails_ge st fuel (S b)). lia.
Qed.

Lemma findNext_le st b :
  (b < List.length st)%nat -> (findNext st b <= List.length st)%nat.
Proof.
  intros Hb. unfold findNext.
  set (b1 := match state st b with
             | blockStateHead | blockStateMark => S b
             | _ => b
             end).
  assert (b1 <= List.length st)%nat by (unfold b1; destruct (state st b); lia).
  pose proof (skipTails_le st (List.length st - b1) b1). lia.
Qed.

Lemma findNext_gt st b :
  (b < List.length st)%nat -> state st b <> blockStateFree ->
  (b < findNext st b)%nat.
Proof.
  intros Hb Hs. unfold findNext.
  destruct (state st b) eqn:E; try congruence.
  - pose proof (skipTails_ge st (List.length st - S b) (S b)). lia.
  - apply skipTails_tail; [assumption | lia].
  - pose proof (skipTails_ge st (List.length st - S b) (S b)). lia.
Qed.
End BlockFacts.

Section MarkFacts.
Import Word GC.
Local Open Scope Z_scope.
Variable rt : runtime.
Hypothesis rt_ok : runtime_ok rt.

Lemma block_size_words : bytesPerBlock rt = 4 * (bytesPerBlock rt / 4) /\ 0 < bytesPerBlock rt / 4.
Proof.
  destruct rt_ok as (HB & Hdiv & _).
  pose proof (Z.div_mod (bytesPerBlock rt) 4 ltac:(lia)). lia.
Qed.

Lemma address_small b :
  (b <= endBlock rt)%nat ->
  address rt b = poolStart rt + Z.of_nat b * bytesPerBlock rt.
Proof.
  intros Hb. destruct rt_ok as (HB & _ & Hps & Hfit).
  unfold address, uintptr, TargetBits. apply Z.mod_small.
  change (2 ^ 32) with 4294967296. nia.
Qed.

Lemma blockFromAddr_lt root :
  addressOnHeap rt root = true -> (blockFromAddr rt root < endBlock rt)%nat.
Proof.
  destruct rt_ok as (HB & _ & Hps & Hfit).
  unfold addressOnHeap, poolEnd, blockFromAddr. intros H.
  apply andb_prop in H as [H1 H2]. apply Z.leb_le in H1. apply Z.ltb_lt in H2.
  rewrite uintptr_small by lia.
  assert ((root - poolStart rt) / bytesPerBlock rt < Z.of_nat (endBlock rt)).
  { apply Z.div_lt_upper_bound; lia. }
  assert (0 <= (root - poolStart rt) / bytesPerBlock rt) by (apply Z.div_pos; lia).
  lia.
Qed.

Lemma markRoot_returns self k h addr root :
  scans_below rt self k ->
  good rt h -> (unmarked (states h) <= k)%nat ->
  exists h', markRoot rt self h addr root = Some h' /\ good rt h' /\
             (unmarked (states h') <= unmarked (states h))%nat.
Proof.
  intros Hself (Hlen & Hnd & Hmk) Hk. unfold markRoot.
  destruct (addressOnHeap rt root) eqn:Hon; [| exists h; repeat split; auto].
  pose proof (blockFromAddr_lt root Hon) as Hblk.
  set (block := blockFromAddr rt root) in *.
  set (head := findHead (states h) block).
  pose proof (findHead_le (states h) block) as Hhead. fold head in Hhead.
  destruct (is_mark (state (states h) head)) eqn:Hst; cbn [negb];
    [exists h; repeat split; auto |].
  set (st1 := setState (states h) head blockStateMark).
  set (h1 := {| states := st1; scans := head :: scans h |}).
  assert (Hlen1 : List.length st1 = endBlock rt)
    by (unfold st1; now rewrite length_setState).
  assert (Hun : S (unmarked st1) = unmarked (states h))
    by (apply unmarked_setState; [lia | assumption]).
  assert (Hhm : state st1 head = blockStateMark)
    by (apply state_setState_same; lia).
  assert (Hgood1 : good rt h1).
  { split; [exact Hlen1 |]. split.
    - constructor; [| assumption]. intros Hin. apply Hmk in Hin.
      rewrite Hin in Hst. discriminate.
    - intros b [<- | Hin]; [exact Hhm |].
      destruct (Nat.eq_dec head b) as [<- | Hne]; [exact Hhm |].
      change (state (setState (states h) head blockStateMark) b = blockStateMark).
      rewrite state_setState_other by assumption. now apply Hmk. }
  set (next := findNext st1 block).
  assert (Hnext : (head < next <= endBlock rt)%nat).
  { split.
    - assert (block < next)%nat; [| lia].
      apply findNext_gt; [lia |].
      destruct (Nat.eq_dec head block) as [E | E].
      + rewrite <- E, Hhm. discriminate.
      + unfold st1. rewrite state_setState_other by assumption.
        rewrite (findHead_moved (states h) block E). discriminate.
    - rewrite <- Hlen1. apply findNext_le. lia. }
  destruct block_size_words as (HB4 & Hq).
  destruct rt_ok as (HB & _ & Hps & Hfit).
  destruct (Hself h1 (address rt head) (address rt next)
                  (Z.to_nat (Z.of_nat (next - head) * (bytesPerBlock rt / 4))))
    as (h2 & E & Hgood2 & Hun2).
  - exact Hgood1.
  - change (states h1) with st1. lia.
  - rewrite !address_small by lia. unfold word_range.
    rewrite Z2Nat.id by nia. repeat split; nia.
  - unfold poolWords. apply Z2Nat.inj_le; nia.
  - exists h2. split; [exact E |]. split; [exact Hgood2 |].
    change (states h1) with st1 in Hun2. lia.
Qed.

Lemma markRoots_loop k bound :
  (forall f, (bound <= f)%nat -> scans_below rt (markRoots rt f) k) ->
  forall n fuel h a e,
    good rt h -> (unmarked (states h) <= k)%nat -> word_range a e n ->
    (n + 1 + bound <= fuel)%nat ->
    exists h', markRoots rt fuel h a e = Some h' /\ good rt h' /\
               (unmarked (states h') <= unmarked (states h))%nat.
Proof.
  intros Hrec. induction n as [| n IH]; intros fuel h a e Hgood Hk (Ha & He & Hhi) Hfuel.
  - destruct fuel as [| fuel]; [lia |]. cbn.
    replace (a =? e) with true by (symmetry; apply Z.eqb_eq; lia).
    exists h. auto.
  - destruct fuel as [| fuel]; [lia |]. cbn.
    replace (a =? e) with false by (symmetry; apply Z.eqb_neq; lia).
    destruct (markRoot_returns (markRoots rt fuel) k h a (load rt a))
      as (h1 & -> & Hgood1 & Hun1); auto.
    { apply Hrec. lia. }
    destruct (IH fuel h1 (uintptr (a + wordSize)) e) as (h2 & E & Hgood2 & Hun2); auto.
    + lia.
    + unfold wordSize, TargetBits. change (32 / 8) with 4.
      assert (Hx : 0 <= a + 4 < 4294967296) by (clear - Ha He Hhi; lia).
      rewrite (uintptr_small _ Hx). unfold word_range. lia.
    + lia.
    + exists h2. split; [exact E |]. split; [exact Hgood2 | lia].
Qed.

Lemma markRoots_returns k :
  forall n fuel h a e,
    good rt h -> (unmarked (states h) <= k)%nat -> word_range a e n ->
    (n + 1 + k * (poolWords rt + 2) <= fuel)%nat ->
    exists h', markRoots rt fuel h a e = Some h' /\ good rt h' /\
               (unmarked (states h') <= unmarked (states h))%nat.
Proof.
  induction k as [| k IHk]; intros n fuel h a e Hgood Hk Hr Hfuel.
  - apply (markRoots_loop 0 0) with (n := n); auto.
    intros f _ h1 a1 e1 n1 _ Hlt. lia.
  - apply (markRoots_loop (S k) (S k * (poolWords rt + 2))) with (n := n); auto.
    intros f Hf h1 a1 e1 n1 Hg1 Hlt Hr1 Hn1.
    apply (IHk n1); auto; lia.
Qed.

Lemma markRoot_fuel_mono (self self' : heap -> Z -> Z -> option heap) h addr root h' :
  (forall h1 a e h2, self h1 a e = Some h2 -> self' h1 a e = Some h2) ->
  markRoot rt self h addr root = Some h' -> markRoot rt self' h addr root = Some h'.
Proof.
  intros Hm. unfold markRoot.
  destruct (addressOnHeap rt root); [| auto].
  destruct (negb _); [| auto]. apply Hm.
Qed.

Lemma markRoots_fuel_mono fuel :
  forall h a e h', markRoots rt fuel h a e = Some h' ->
                   markRoots rt (S fuel) h a e = Some h'.
Proof.
  induction fuel as [| fuel IH]; intros h a e h' H; [discriminate |].
  cbn in H. change (markRoots rt (S (S fuel)) h a e) with
    (if a =? e then Some h
     else match markRoot rt (markRoots rt (S fuel)) h a (load rt a) with
          | Some h1 => markRoots rt (S fuel) h1 (uintptr (a + wordSize)) e
          | None => None
          end).
  destruct (a =? e); [exact H |].
  destruct (markRoot rt (markRoots rt fuel) h a (load rt a)) as [h1 |] eqn:E;
    [| discriminate].
  rewrite (markRoot_fuel_mono _ (markRoots rt (S fuel)) _ _ _ _ IH E).
  now apply IH.
Qed.

Lemma markRoots_fuel_le fuel fuel' h a e h' :
  (fuel <= fuel')%nat -> markRoots rt fuel h a e = Some h' ->
  markRoots rt fuel' h a e = Some h'.
Proof.
  intros Hle H. induction Hle; [exact H | now apply markRoots_fuel_mono].
Qed.
End MarkFacts.

Section MarkPhase.
Import Word GC.
Local Open Scope Z_scope.
Variable rt : runtime.
Hypothesis rt_ok : runtime_ok rt.

Lemma markRoots_scans_below k fuel :
  (k * (poolWords rt + 2) <= fuel)%nat -> scans_below rt (markRoots rt fuel) k.
Proof.
  intros Hf h1 a e n Hg Hlt Hr Hn. destruct k as [| k]; [lia |].
  apply (markRoots_returns rt rt_ok k n); auto; lia.
Qed.

Lemma markGlobals_loop_returns k fuel :
  (k * (poolWords rt + 2) <= fuel)%nat ->
  forall n i h,
    good rt h -> (unmarked (states h) <= k)%nat ->
    exists h', markGlobals_loop rt fuel n i h = Some h' /\ good rt h' /\
               (unmarked (states h') <= unmarked (states h))%nat.
Proof.
  intros Hf. induction n as [| n IH]; intros i h Hg Hk; cbn [markGlobals_loop].
  - exists h. auto.
  - assert (Hslot : exists h1,
               (if tracked rt i
                then markRoot rt (markRoots rt fuel) h
                       (uintptr (trackedGlobalsStart rt + i * wordSize))
                       (load rt (uintptr (trackedGlobalsStart rt + i * wordSize)))
                else Some h) = Some h1
               /\ good rt h1 /\ (unmarked (states h1) <= unmarked (states h))%nat).
    { destruct (tracked rt i); [| exists h; auto].
      apply (markRoot_returns rt rt_ok (markRoots rt fuel) k); auto.
      now apply markRoots_scans_below. }
    destruct Hslot as (h1 & -> & Hg1 & Hun1).
    destruct (IH (i + 1) h1) as (h2 & E & Hg2 & Hun2); auto; [lia |].
    exists h2. split; [exact E |]. split; [exact Hg2 | lia].
Qed.

Lemma markGlobals_loop_fuel_le fuel fuel' :
  (fuel <= fuel')%nat ->
  forall n i h h', markGlobals_loop rt fuel n i h = Some h' ->
                   markGlobals_loop rt fuel' n i h = Some h'.
Proof.
  intros Hle. induction n as [| n IH]; intros i h h' H;
    cbn [markGlobals_loop] in *; [exact H |].
  destruct (tracked rt i).
  - destruct (markRoot rt (markRoots rt fuel) h _ _) as [h1 |] eqn:E; [| discriminate].
    rewrite (markRoot_fuel_mono rt _ (markRoots rt fuel') _ _ _ _
               (fun h1 a e h2 => markRoots_fuel_le rt fuel fuel' h1 a e h2 Hle) E).
    now apply IH.
  - now apply IH.
Qed.

Lemma markRoots_empty_range fuel h a : markRoots rt (S fuel) h a a = Some h.
Proof. cbn. now rewrite Z.eqb_refl. Qed.

End MarkPhase.

Section CollectionCycle.
Import Word GC.
Local Open Scope Z_scope.

(** C9: on WebAssembly [getCurrentStackPointer] is [stackTop], the scan of
    the stack in [GC] covers the empty range and returns the heap as it got
    it (no block marked, no object scanned), and a cycle is the sweep of
    what [markGlobals] leaves. *)
Theorem GC_wasm_scans_only_globals (rt : runtime) (sweep : heap -> heap)
        (fuel : nat) (h : heap) :
  Wasm.getCurrentStackPointer (stackTop rt) = stackTop rt /\
  (forall h1, markRoots rt (S fuel) h1
                (Wasm.getCurrentStackPointer (stackTop rt)) (stackTop rt) = Some h1) /\
  GC_wasm rt sweep (S fuel) h = option_map sweep (markGlobals rt (S fuel) h).
Proof.
  split; [reflexivity |]. split.
  - intros h1. apply markRoots_empty_range.
  - unfold GC_wasm, GC. destruct (markGlobals rt (S fuel) h) as [h1 |]; [| reflexivity].
    unfold Wasm.getCurrentStackPointer. now rewrite markRoots_empty_range.
Qed.

(** C10: [markRoot] leaves a heap whose head is marked alone (no scan),
    and otherwise marks the head before it hands the object to [markRoots];
    the mark phase of a cycle returns for every large enough fuel, whatever
    the pointers in the heap, and scans no object twice. *)
Theorem mark_phase_terminates_scans_once (rt : runtime) (sweep : heap -> heap)
        (sp : Z) (h : heap) :
  runtime_ok rt ->
  List.length (states h) = endBlock rt -> scans h = [] ->
  (0 <= sp <= stackTop rt)%Z -> (stackTop rt < 4294967296)%Z ->
  ((stackTop rt - sp) mod 4 = 0)%Z ->
  (forall self addr root,
      addressOnHeap rt root = true ->
      let head := findHead (states h) (blockFromAddr rt root) in
      (state (states h) head = blockStateMark ->
       markRoot rt self h addr root = Some h) /\
      (state (states h) head <> blockStateMark ->
       exists h1 a e,
         markRoot rt self h addr root = self h1 a e /\
         state (states h1) head = blockStateMark /\
         scans h1 = head :: scans h)) /\
  exists fuel0 h2,
    (forall fuel, (fuel0 <= fuel)%nat -> GC rt sweep sp fuel h = Some (sweep h2)) /\
    NoDup (scans h2) /\
    (forall b, In b (scans h2) -> state (states h2) b = blockStateMark).
Proof.
  intros Hrt Hlen Hsc Hsp Htop Hal. split.
  - intros self addr root Hon head.
    pose proof (blockFromAddr_lt rt Hrt root Hon) as Hblk.
    pose proof (findHead_le (states h) (blockFromAddr rt root)) as Hhd.
    fold head in Hhd. unfold markRoot. rewrite Hon. fold head. split.
    + intros ->. reflexivity.
    + intros Hst.
      replace (is_mark (state (states h) head)) with false
        by (destruct (state (states h) head) eqn:Es; try reflexivity; congruence).
      cbn [negb]. do 3 eexists. split; [reflexivity |]. split; [| reflexivity].
      cbn [states]. apply state_setState_same. lia.
  - assert (Hgood : good rt h).
    { split; [exact Hlen |]. rewrite Hsc. split; [constructor | intros b []]. }
    set (k := unmarked (states h)).
    set (n := Z.to_nat ((stackTop rt - sp) / 4)).
    set (fuel0 := (n + 1 + k * (poolWords rt + 2))%nat).
    destruct (markGlobals_loop_returns rt Hrt k fuel0 ltac:(unfold fuel0; lia)
                (Z.to_nat (trackedGlobalsLength rt)) 0%Z h Hgood (le_n _))
      as (h1 & E1 & Hg1 & Hun1).
    assert (Hrange : word_range sp (stackTop rt) n).
    { unfold word_range, n.
      pose proof (Z.div_mod (stackTop rt - sp) 4 ltac:(lia)).
      assert (0 <= (stackTop rt - sp) / 4) by (apply Z.div_pos; lia).
      rewrite Z2Nat.id by assumption. lia. }
    destruct (markRoots_returns rt Hrt k n fuel0 h1 sp (stackTop rt) Hg1 Hun1 Hrange
                                (le_n _))
      as (h2 & E2 & Hg2 & Hun2).
    exists fuel0, h2. split; [| destruct Hg2 as (_ & Hnd & Hmk); auto].
    intros fuel Hfuel. unfold GC, markGlobals.
    rewrite (markGlobals_loop_fuel_le rt fuel0 fuel Hfuel _ _ _ _ E1).
    now rewrite (markRoots_fuel_le rt fuel0 fuel _ _ _ _ Hfuel E2).
Qed.

Lemma mark_phase_terminates_scans_once_witness :
  exists fuel0 h2,
    (forall fuel, (fuel0 <= fuel)%nat ->
                  GC cyclic_rt (fun h => h) 2040 fuel cyclic_heap = Some h2) /\
    NoDup (scans h2) /\
    (forall b, In b (scans h2) -> state (states h2) b = blockStateMark).
Proof.
  refine (proj2 (mark_phase_terminates_scans_once
                   cyclic_rt (fun h => h) 2040 cyclic_heap _ _ _ _ _ _));
    unfold runtime_ok; by_evaluation.
Defined.
End CollectionCycle.

(** ** The escape analysis *)

Section EscapeFacts.
Import IR Optimizer.
Variable m : module.

Lemma value_eqb_eq a b : value_eqb a b = true <-> a = b.
Proof. unfold value_eqb. destruct (value_eq_dec a b); split; congruence. Qed.

Lemma value_eqb_neq a b : value_eqb a b = false <-> a <> b.
Proof. unfold value_eqb. destruct (value_eq_dec a b); split; congruence. Qed.

Lemma has_param_attr_In fn i kind :
  has_param_attr fn i kind = true <-> In kind (nth i (fparams fn) []).
Proof.
  unfold has_param_attr. rewrite existsb_exists. split.
  - intros (x & Hin & Heq). apply String.eqb_eq in Heq. now subst.
  - intros Hin. exists kind. split; [assumption | apply String.eqb_refl].
Qed.

Lemma hasFlag_spec call param kind :
  hasFlag m call param kind = true <->
  exists name fn,
    CalledValue call = VFunc name /\ getFunc m name = Some fn /\
    forall i, (i < ParamsCount fn)%nat -> Operand call i = param ->
              In kind (nth i (fparams fn) []).
Proof.
  unfold hasFlag. destruct (CalledValue call) as [| | name | | | |];
    try (split; [discriminate | intros (? & ? & ? & _); discriminate]).
  destruct (getFunc m name) as [fn |] eqn:Hfn.
  - rewrite forallb_forall. split.
    + intros H. exists name, fn. repeat split; auto.
      intros i Hi Hop. specialize (H i). rewrite in_seq in H.
      specialize (H ltac:(lia)). apply value_eqb_eq in Hop. rewrite Hop in H.
      now apply has_param_attr_In.
    + intros (name' & fn' & Hn & Hf & H) i Hi. apply in_seq in Hi.
      injection Hn as <-. rewrite Hfn in Hf. injection Hf as <-.
      destruct (value_eqb (Operand call i) param) eqn:E; cbn; [| reflexivity].
      apply has_param_attr_In. apply H; [lia | now apply value_eqb_eq].
  - split; [discriminate |]. intros (name' & fn' & Hn & Hf & _).
    injection Hn as <-. congruence.
Qed.

(** The loop of [doesEscape] says "no" exactly when every use passes. *)
Lemma escape_walk_false self v uses :
  escape_walk self m v uses = Some false <->
  forall u, In u uses ->
    match iop u with
    | GetElementPtr | BitCast => self (VInst (iid u)) = Some false
    | Load | ICmp => True
    | Store => Operand u 0 <> v
    | Call => hasFlag m u v "nocapture" = true
    | _ => False
    end.
Proof.
  induction uses as [| u uses IH]; cbn [escape_walk].
  - split; [intros _ u [] | reflexivity].
  - split.
    + intros H u' [<- | Hin].
      * destruct (iop u); try discriminate; auto.
        -- destruct (hasFlag m u v "nocapture"); [reflexivity | discriminate].
        -- destruct (self (VInst (iid u))) as [[] |]; [discriminate | reflexivity | discriminate].
        -- destruct (self (VInst (iid u))) as [[] |]; [discriminate | reflexivity | discriminate].
        -- destruct (value_eqb (Operand u 0) v) eqn:E; [discriminate |].
           now apply value_eqb_neq.
      * revert u' Hin. apply IH.
        destruct (iop u); try discriminate; auto.
        -- destruct (hasFlag m u v "nocapture"); [exact H | discriminate].
        -- destruct (self (VInst (iid u))) as [[] |]; [discriminate | exact H | discriminate].
        -- destruct (self (VInst (iid u))) as [[] |]; [discriminate | exact H | discriminate].
        -- destruct (value_eqb (Operand u 0) v); [discriminate | exact H].
    + intros H. pose proof (H u (or_introl eq_refl)) as Hu.
      assert (Hrest : escape_walk self m v uses = Some false)
        by (apply IH; intros u' Hin; apply H; now right).
      destruct (iop u); try contradiction; auto.
      * now rewrite Hu.
      * now rewrite Hu.
      * now rewrite Hu.
      * apply value_eqb_neq in Hu. now rewrite Hu.
Qed.

Lemma escape_walk_mono (self self' : value -> option bool) v uses b :
  (forall x c, self x = Some c -> self' x = Some c) ->
  escape_walk self m v uses = Some b -> escape_walk self' m v uses = Some b.
Proof.
  intros Hm. induction uses as [| u uses IH]; cbn [escape_walk]; [auto |].
  destruct (iop u); auto.
  - destruct (hasFlag m u v "nocapture"); auto.
  - destruct (self (VInst (iid u))) as [[] |] eqn:E; try discriminate;
      rewrite (Hm _ _ E); auto.
  - destruct (self (VInst (iid u))) as [[] |] eqn:E; try discriminate;
      rewrite (Hm _ _ E); auto.
  - destruct (value_eqb (Operand u 0) v); auto.
Qed.

Lemma doesEscape_rec_S fuel v b :
  doesEscape_rec fuel m v = Some b -> doesEscape_rec (S fuel) m v = Some b.
Proof.
  revert v b. induction fuel as [| fuel IH]; intros v b H; [discriminate |].
  cbn [doesEscape_rec] in *. eapply escape_walk_mono; [| exact H].
  intros x c. apply IH.
Qed.

Lemma escape_walk_total self v uses :
  (forall u, In u uses -> is_derivation u = true ->
             exists b, self (VInst (iid u)) = Some b) ->
  exists b, escape_walk self m v uses = Some b.
Proof.
  induction uses as [| u uses IH]; intros H; cbn [escape_walk]; [eauto |].
  assert (Hrest : exists b, escape_walk self m v uses = Some b)
    by (apply IH; intros u' Hin; apply H; now right).
  pose proof (H u (or_introl eq_refl)) as Hu. unfold is_derivation in Hu.
  destruct (iop u); eauto.
  - destruct (negb _); eauto.
  - destruct (Hu eq_refl) as [[] ->]; eauto.
  - destruct (Hu eq_refl) as [[] ->]; eauto.
  - destruct (value_eqb _ _); eauto.
Qed.

Variable rk : nat -> nat.
Hypothesis Hrk : ranked m rk = true.

Lemma In_users u v : In u (users m v) -> In u (all_insts m) /\ In v (ioperands u).
Proof.
  unfold users. destruct v; try contradiction;
    (intros H; apply filter_In in H as [Hin Hu]; split; [assumption |];
     unfold uses_value in Hu; apply existsb_exists in Hu as (x & Hx & Hxe);
     apply value_eqb_eq in Hxe; now subst).
Qed.

Lemma ranked_inst u :
  In u (all_insts m) -> is_derivation u = true ->
  (rk (iid u) < mnext m)%nat /\
  forall j, In (VInst j) (ioperands u) -> (rk (iid u) < rk j)%nat.
Proof.
  intros Hin Hd. unfold ranked in Hrk. rewrite forallb_forall in Hrk.
  specialize (Hrk u Hin). rewrite Hd in Hrk. cbn in Hrk.
  apply andb_prop in Hrk as [H1 H2]. apply Nat.ltb_lt in H1. split; [assumption |].
  intros j Hj. rewrite forallb_forall in H2. specialize (H2 _ Hj). cbn in H2.
  now apply Nat.ltb_lt.
Qed.

Lemma doesEscape_rec_total n v :
  (forall u, In u (users m v) -> is_derivation u = true -> (rk (iid u) < n)%nat) ->
  exists b, doesEscape_rec (S n) m v = Some b.
Proof.
  revert v. induction n as [| n IH]; intros v H; cbn [doesEscape_rec].
  - apply escape_walk_total. intros u Hin Hd. specialize (H u Hin Hd). lia.
  - apply escape_walk_total. intros u Hin Hd. apply IH.
    intros u' Hin' Hd'. apply In_users in Hin' as [Hall' Hop'].
    destruct (ranked_inst u' Hall' Hd') as [_ Hlt]. specialize (Hlt _ Hop').
    specialize (H u Hin Hd). lia.
Qed.

Lemma doesEscape_total v : exists b, doesEscape m v = Some b.
Proof.
  unfold doesEscape, analysis_fuel.
  assert (H : exists b, doesEscape_rec (S (mnext m)) m v = Some b).
  { apply doesEscape_rec_total. intros u Hin Hd. apply In_users in Hin as [Hall _].
    now destruct (ranked_inst u Hall Hd). }
  destruct H as [b H]. exists b. now apply doesEscape_rec_S.
Qed.
End EscapeFacts.

Section EscapeTheorems.
Import IR Optimizer.
Variable m : module.
Variable rk : nat -> nat.
Hypothesis Hrk : ranked m rk = true.

Lemma escape_walk_true self v uses :
  escape_walk self m v uses = Some true ->
  exists u, In u uses /\
    match iop u with
    | GetElementPtr | BitCast => self (VInst (iid u)) = Some true
    | Load | ICmp => False
    | Store => Operand u 0 = v
    | Call => hasFlag m u v "nocapture" = false
    | _ => True
    end.
Proof.
  induction uses as [| u uses IH]; cbn [escape_walk]; [discriminate |].
  intros H.
  assert (Hrest : escape_walk self m v uses = Some true ->
                  exists u0, In u0 (u :: uses) /\
                    match iop u0 with
                    | GetElementPtr | BitCast => self (VInst (iid u0)) = Some true
                    | Load | ICmp => False
                    | Store => Operand u0 0 = v
                    | Call => hasFlag m u0 v "nocapture" = false
                    | _ => True
                    end).
  { intros H'. destruct (IH H') as (u0 & Hin & Hu0). exists u0. split; [now right | exact Hu0]. }
  destruct (iop u) eqn:Eop; auto.
  - destruct (hasFlag m u v "nocapture") eqn:E; cbn in H; auto.
    exists u. split; [now left |]. now rewrite Eop.
  - destruct (self (VInst (iid u))) as [[] |] eqn:E; try discriminate; auto.
    exists u. split; [now left |]. now rewrite Eop.
  - destruct (self (VInst (iid u))) as [[] |] eqn:E; try discriminate; auto.
    exists u. split; [now left |]. now rewrite Eop.
  - destruct (value_eqb (Operand u 0) v) eqn:E; auto.
    exists u. split; [now left |]. rewrite Eop. now apply value_eqb_eq.
  - exists u. split; [now left |]. now rewrite Eop.
  - exists u. split; [now left |]. now rewrite Eop.
  - exists u. split; [now left |]. now rewrite Eop.
Qed.

Lemma doesEscape_unfold v :
  doesEscape m v = escape_walk (doesEscape_rec (S (mnext m)) m) m v (users m v).
Proof. reflexivity. Qed.

(** The recursive call one level down answers as [doesEscape] does. *)
Lemma doesEscape_inner u b :
  In u (all_insts m) -> is_derivation u = true ->
  (doesEscape_rec (S (mnext m)) m (VInst (iid u)) = Some b <->
   doesEscape m (VInst (iid u)) = Some b).
Proof.
  intros Hin Hd. split; [apply doesEscape_rec_S |]. intros H.
  destruct (doesEscape_rec_total m rk Hrk (mnext m) (VInst (iid u))) as [b' Hb'].
  - intros u' Hin' Hd'. apply In_users in Hin' as [Hall' _].
    now destruct (ranked_inst m rk Hrk u' Hall' Hd').
  - pose proof (doesEscape_rec_S m _ _ _ Hb') as Hb''.
    unfold doesEscape, analysis_fuel in H. congruence.
Qed.

End EscapeTheorems.

Section EscapeExamples.
Import IR Optimizer Examples.


End EscapeExamples.

(** ** Modules under mutation *)

Section ModuleFacts.
Import IR Optimizer.

Lemma nodup_ids_NoDup l : nodup_ids l = true <-> NoDup l.
Proof.
  induction l as [| x l IH]; cbn.
  - split; [constructor | reflexivity].
  - rewrite andb_true_iff, negb_true_iff, IH. split.
    + intros [Hx Hl]. constructor; [| assumption]. intros Hin.
      assert (existsb (Nat.eqb x) l = true)
        by (apply existsb_exists; exists x; split; [assumption | apply Nat.eqb_refl]).
      congruence.
    + intros H. inversion H as [| ? ? Hx Hl]; subst. split; [| assumption].
      destruct (existsb (Nat.eqb x) l) eqn:E; [| reflexivity].
      apply existsb_exists in E as (y & Hy & Hxy). apply Nat.eqb_eq in Hxy. now subst.
Qed.

Lemma wf_module_ids m : wf_module m = true -> NoDup (map iid (all_insts m)).
Proof.
  unfold wf_module. intros H. apply andb_prop in H as [H _]. now apply nodup_ids_NoDup.
Qed.

Lemma wf_module_fresh m u :
  wf_module m = true -> In u (all_insts m) -> (iid u < mnext m)%nat.
Proof.
  unfold wf_module. intros H Hin. apply andb_prop in H as [_ H].
  rewrite forallb_forall in H. specialize (H u Hin). unfold inst_ok in H.
  apply andb_prop in H as [H _]. apply andb_prop in H as [H _]. now apply Nat.ltb_lt.
Qed.

Lemma find_unique_id (l : list inst) u :
  NoDup (map iid l) -> In u l -> find (has_id (iid u)) l = Some u.
Proof.
  induction l as [| x l IH]; intros Hnd Hin; [contradiction |].
  cbn in *. inversion Hnd as [| ? ? Hx Hl]; subst. unfold has_id at 1.
  destruct Hin as [-> | Hin].
  - now rewrite Nat.eqb_refl.
  - destruct (Nat.eqb (iid x) (iid u)) eqn:E; [| auto].
    apply Nat.eqb_eq in E. exfalso. apply Hx. rewrite E. now apply in_map.
Qed.

Lemma getInst_unique m u :
  wf_module m = true -> In u (all_insts m) -> getInst m (iid u) = Some u.
Proof. intros Hwf Hin. apply find_unique_id; [now apply wf_module_ids | assumption]. Qed.

Lemma getInst_In m id u : getInst m id = Some u -> In u (all_insts m) /\ iid u = id.
Proof.
  unfold getInst. intros H. apply find_some in H as [Hin Hid].
  split; [assumption | now apply Nat.eqb_eq].
Qed.

Lemma users_In m v u : In u (users m v) -> In u (all_insts m) /\ uses_value v u = true.
Proof.
  unfold users. destruct v; try contradiction; intros H; now apply filter_In in H.
Qed.

Lemma NoDup_ids_filter (p : inst -> bool) l :
  NoDup (map iid l) -> NoDup (map iid (filter p l)).
Proof.
  induction l as [| x l IH]; cbn; intros Hnd; [constructor |].
  inversion Hnd as [| ? ? Hx Hl]; subst. destruct (p x); cbn; [| auto].
  constructor; [| auto]. intros Hin. apply Hx.
  apply in_map_iff in Hin as (y & Hy & Hin). apply filter_In in Hin as [Hin _].
  rewrite <- Hy. now apply in_map.
Qed.

Lemma users_NoDup m v : wf_module m = true -> NoDup (getUses m v).
Proof.
  intros Hwf. apply wf_module_ids in Hwf. unfold getUses, users.
  destruct v; try (now apply NoDup_ids_filter). constructor.
Qed.

Lemma all_insts_concat m :
  all_insts m = List.concat (map func_insts (mfuncs m)).
Proof. unfold all_insts. apply flat_map_concat_map. Qed.

Lemma Forall2_concat (R : list inst -> list inst -> Prop) l l' :
  R [] [] ->
  (forall a a' b b', R a a' -> R b b' -> R (a ++ b) (a' ++ b')) ->
  Forall2 R l l' -> R (List.concat l) (List.concat l').
Proof.
  intros Hnil Happ H. induction H; cbn; auto.
Qed.

Lemma same_shape_all_insts (R : list inst -> list inst -> Prop) m m' :
  R [] [] ->
  (forall a a' b b', R a a' -> R b b' -> R (a ++ b) (a' ++ b')) ->
  same_shape R m m' -> R (all_insts m) (all_insts m').
Proof.
  intros Hnil Happ H. rewrite !all_insts_concat.
  apply Forall2_concat; auto.
  unfold same_shape in H. induction H as [| f f' l l' (_ & _ & Hb) _ IH]; cbn.
  - constructor.
  - constructor; [| exact IH]. unfold func_insts. now apply Forall2_concat.
Qed.

Lemma same_shape_getFunc R m m' name :
  same_shape R m m' ->
  (getFunc m' name = None <-> getFunc m name = None).
Proof.
  unfold same_shape, getFunc. intros H.
  induction H as [| f f' l l' (Hn & _ & _) _ IH]; cbn; [tauto |].
  rewrite Hn. destruct (String.eqb (fname f') name); [split; discriminate | exact IH].
Qed.

Lemma same_shape_NamedFunction R m m' name :
  same_shape R m m' -> NamedFunction m' name = NamedFunction m name.
Proof.
  intros H. pose proof (same_shape_getFunc R m m' name H) as Hg.
  unfold NamedFunction.
  destruct (getFunc m' name), (getFunc m name); try reflexivity.
  - destruct Hg as [_ Hg]. specialize (Hg eq_refl). discriminate.
  - destruct Hg as [Hg _]. specialize (Hg eq_refl). discriminate.
Qed.

Lemma same_shape_map_blocks (R R' : list inst -> list inst -> Prop) g m m' :
  (forall b b', R b b' -> R' b (g b')) ->
  same_shape R m m' -> same_shape R' m (map_blocks g m').
Proof.
  intros Hg H. unfold same_shape in *. cbn.
  induction H as [| f f' l l' (Hn & Hp & Hb) _ IH]; cbn; constructor; auto.
  cbn. repeat split; auto.
  clear - Hb Hg. induction Hb; cbn; constructor; auto.
Qed.
End ModuleFacts.

Section TrapFacts.
Import IR Optimizer.
Variable lo : nat.

Lemma trapped_refl b : trapped [] lo b b.
Proof. induction b; constructor; auto. Qed.

Lemma trapped_app uses a a' b b' :
  trapped uses lo a a' -> trapped uses lo b b' -> trapped uses lo (a ++ b) (a' ++ b').
Proof.
  intros Ha Hb. induction Ha; cbn; auto.
  - now constructor.
  - now constructor.
Qed.

Lemma trapped_ext uses uses' b b' :
  (forall id, In id uses <-> In id uses') ->
  trapped uses lo b b' -> trapped uses' lo b b'.
Proof.
  intros He H. induction H.
  - constructor.
  - apply trapped_keep; [now rewrite <- He | assumption].
  - apply trapped_trap; [now rewrite <- He | assumption | assumption].
Qed.

Lemma trapped_find uses b b' id :
  (id < lo)%nat -> trapped uses lo b b' ->
  find (has_id id) b' = find (has_id id) b.
Proof.
  intros Hid H. induction H as [| i b b' Hn H IH | i t b b' Hi (_ & _ & Ht) H IH]; cbn.
  - reflexivity.
  - now rewrite IH.
  - replace (has_id id t) with false
      by (symmetry; unfold has_id; apply Nat.eqb_neq; lia).
    now rewrite IH.
Qed.

Lemma trapped_filter_uses uses b b' v :
  v <> VFunc "llvm.trap" -> trapped uses lo b b' ->
  filter (uses_value v) b' = filter (uses_value v) b.
Proof.
  intros Hv H. induction H as [| i b b' Hn H IH | i t b b' Hi (_ & Ht & _) H IH]; cbn.
  - reflexivity.
  - now rewrite IH.
  - replace (uses_value v t) with false.
    + now rewrite IH.
    + unfold uses_value. rewrite Ht. cbn. unfold value_eqb.
      destruct (value_eq_dec v (VFunc "llvm.trap")); [contradiction | reflexivity].
Qed.

(** One more use gets its trap. *)
Lemma trapped_place uses b b' use new :
  (use < lo)%nat -> ~ In use uses -> is_trap_call lo new ->
  trapped uses lo b b' ->
  trapped (use :: uses) lo b (place_before use new b').
Proof.
  intros Hu Hnew Ht H.
  induction H as [| i b b' Hn H IH | i t b b' Hi Hti H IH]; cbn.
  - constructor.
  - unfold has_id at 1. destruct (Nat.eqb (iid i) use) eqn:E; cbn.
    + apply Nat.eqb_eq in E. apply trapped_trap; [now left | assumption | exact IH].
    + apply Nat.eqb_neq in E. apply trapped_keep; [| exact IH].
      intros [Heq | Hin]; [congruence | contradiction].
  - destruct Hti as (Hop & Hargs & Hid).
    replace (has_id use t) with false
      by (symmetry; unfold has_id; apply Nat.eqb_neq; lia).
    cbn. unfold has_id at 1. destruct (Nat.eqb (iid i) use) eqn:E.
    + apply Nat.eqb_eq in E. subst use. contradiction.
    + cbn. apply trapped_trap; [now right | repeat split; assumption | exact IH].
Qed.
End TrapFacts.

(** ** replacePanicsWithTrap *)

Section TrapPass.
Import IR Optimizer.
Variable m : module.
Hypothesis Hwf : wf_module m = true.

Lemma trapping_insts mc done :
  trapping m mc done -> trapped done (mnext m) (all_insts m) (all_insts mc).
Proof.
  intros [H _]. apply same_shape_all_insts; auto.
  - constructor.
  - intros; now apply trapped_app.
Qed.

Lemma trapping_getInst mc done u :
  trapping m mc done -> In u (all_insts m) -> getInst mc (iid u) = Some u.
Proof.
  intros H Hin. unfold getInst.
  rewrite (trapped_find (mnext m) done _ _ (iid u)
             (wf_module_fresh m u Hwf Hin) (trapping_insts mc done H)).
  now apply getInst_unique.
Qed.

Lemma trapping_users mc done v :
  trapping m mc done -> v <> VFunc "llvm.trap" -> users mc v = users m v.
Proof.
  intros H Hv. unfold users. destruct v; try reflexivity;
    apply (trapped_filter_uses (mnext m) done); auto using trapping_insts.
Qed.

Lemma trap_before_step fn mc done u :
  trapping m mc done -> In u (all_insts m) ->
  (direct_call fn u = false ->
   trap_before (VFunc "llvm.trap") fn mc (iid u) = Panic trap_msg) /\
  (direct_call fn u = true -> ~ In (iid u) done ->
   exists mc2, trap_before (VFunc "llvm.trap") fn mc (iid u) = Done mc2 /\
               trapping m mc2 (iid u :: done)).
Proof.
  intros Hinv Hin. unfold trap_before, live.
  rewrite (trapping_getInst mc done u Hinv Hin). cbn [bind].
  rewrite <- negb_andb. fold (direct_call fn u). split.
  - intros ->. reflexivity.
  - intros -> Hnew. cbn [negb]. unfold CreateCall, create_before. cbn [IsNil].
    rewrite (trapping_getInst mc done u Hinv Hin). cbn [bind app].
    eexists. split; [reflexivity |]. destruct Hinv as [Hs Hn]. split; [| cbn; lia].
    unfold trapping.
    change (same_shape (trapped (iid u :: done) (mnext m)) m
              (map_blocks
                 (place_before (iid u)
                    {| iid := mnext mc; iop := Call;
                       ioperands := [VFunc "llvm.trap"]; ity := TVoid |}) mc)).
    apply (same_shape_map_blocks (trapped done (mnext m))); [| exact Hs].
    intros b b' Hb. apply trapped_place; auto.
    + now apply wf_module_fresh.
    + repeat split; auto.
Qed.

Lemma trap_loop fn :
  forall us done mc,
    trapping m mc done ->
    (forall u, In u us -> In u (all_insts m)) ->
    NoDup (map iid us) ->
    (forall u, In u us -> direct_call fn u = true -> ~ In (iid u) done) ->
    if forallb (direct_call fn) us
    then exists mc2,
        for_each (trap_before (VFunc "llvm.trap") fn) (map iid us) mc = Done mc2 /\
        trapping m mc2 (rev (map iid us) ++ done)
    else for_each (trap_before (VFunc "llvm.trap") fn) (map iid us) mc = Panic trap_msg.
Proof.
  induction us as [| u us IH]; intros done mc Hinv Hall Hnd Hfresh; cbn [forallb map for_each].
  - exists mc. split; [reflexivity | exact Hinv].
  - destruct (trap_before_step fn mc done u Hinv (Hall u (or_introl eq_refl)))
      as [Hbad Hgood].
    destruct (direct_call fn u) eqn:Ed; cbn [andb].
    + destruct (Hgood eq_refl (Hfresh u (or_introl eq_refl) Ed)) as (mc1 & -> & Hinv1).
      cbn [bind]. inversion Hnd as [| ? ? Hu Hnd']; subst.
      specialize (IH (iid u :: done) mc1 Hinv1
                     (fun u' H => Hall u' (or_intror H)) Hnd').
      assert (Hfresh' : forall u', In u' us -> direct_call fn u' = true ->
                                   ~ In (iid u') (iid u :: done)).
      { intros u' Hin' Hd' [Heq | Hin2].
        - apply Hu. rewrite Heq. now apply in_map.
        - now apply (Hfresh u' (or_intror Hin') Hd'). }
      specialize (IH Hfresh').
      destruct (forallb (direct_call fn) us); [| exact IH].
      destruct IH as (mc2 & E & Hinv2). exists mc2. split; [exact E |].
      cbn [rev]. now rewrite <- app_assoc.
    + rewrite (Hbad eq_refl). reflexivity.
Qed.

Lemma trap_uses_of_unfold mc done name :
  trapping m mc done -> In name panic_names ->
  trap_uses_of (VFunc "llvm.trap") mc name =
  for_each (trap_before (VFunc "llvm.trap") (NamedFunction m name))
           (getUses m (NamedFunction m name)) mc.
Proof.
  intros Hinv Hname. unfold trap_uses_of.
  rewrite (same_shape_NamedFunction _ m mc name (proj1 Hinv)).
  unfold getUses. rewrite (trapping_users mc done); auto.
  - destruct (NamedFunction m name); reflexivity.
  - unfold NamedFunction. destruct (getFunc m name); [| discriminate].
    destruct Hname as [<- | [<- | []]]; discriminate.
Qed.

Lemma users_inj u u' v v' :
  In u (users m v) -> In u' (users m v') -> iid u = iid u' -> u = u'.
Proof.
  intros H H' Hid. apply users_In in H as [H _]. apply users_In in H' as [H' _].
  pose proof (getInst_unique m u Hwf H) as E.
  pose proof (getInst_unique m u' Hwf H') as E'.
  rewrite Hid in E. congruence.
Qed.

(** C8: with [llvm.trap] declared, when every use of the panic functions
    of the module is a call of the function used, the pass returns the
    module with one new call of [llvm.trap] right before each of these
    uses and every instruction of the module still in place; when some
    use is not such a call the pass panics. *)
Theorem replacePanicsWithTrap_inserts_traps :
  NamedFunction m "llvm.trap" <> VNil ->
  ((forall name u, In name panic_names ->
                   In u (users m (NamedFunction m name)) ->
                   direct_call (NamedFunction m name) u = true) ->
   exists m', replacePanicsWithTrap m = Done m' /\
              same_shape (trapped (panic_uses m) (mnext m)) m m') /\
  ((exists name u, In name panic_names /\
                   In u (users m (NamedFunction m name)) /\
                   direct_call (NamedFunction m name) u = false) ->
   replacePanicsWithTrap m = Panic trap_msg).
Proof.
  intros Htrap.
  assert (Etrap : NamedFunction m "llvm.trap" = VFunc "llvm.trap").
  { unfold NamedFunction in *. destruct (getFunc m "llvm.trap"); congruence. }
  set (fn1 := NamedFunction m "runtime._panic").
  set (fn2 := NamedFunction m "runtime.runtimePanic").
  assert (Hinv0 : trapping m m []).
  { split; [| lia]. unfold same_shape.
    induction (mfuncs m) as [| f l IH]; constructor; auto.
    repeat split; auto. induction (fblocks f); constructor; auto using trapped_refl. }
  pose proof (trap_loop fn1 (users m fn1) [] m Hinv0
                (fun u H => proj1 (users_In m fn1 u H))
                (users_NoDup m fn1 Hwf) (fun _ _ _ H => H)) as L1.
  assert (Hrun : replacePanicsWithTrap m =
                 bind (for_each (trap_before (VFunc "llvm.trap") fn1)
                                (getUses m fn1) m)
                      (fun mc => bind (trap_uses_of (VFunc "llvm.trap") mc
                                                    "runtime.runtimePanic")
                                      (fun mc2 => Done mc2))).
  { unfold replacePanicsWithTrap. rewrite Etrap. unfold panic_names.
    cbn [for_each]. rewrite (trap_uses_of_unfold m [] "runtime._panic" Hinv0); cbn; auto. }
  assert (Hdisjoint : forall u, In u (users m fn2) -> direct_call fn2 u = true ->
                                forallb (direct_call fn1) (users m fn1) = true ->
                                ~ In (iid u) (rev (map iid (users m fn1)) ++ [])).
  { intros u Hin Hd Hall Hin1. rewrite app_nil_r, <- in_rev in Hin1.
    apply in_map_iff in Hin1 as (u1 & Hid & Hin1).
    pose proof (users_inj u1 u fn1 fn2 Hin1 Hin Hid) as ->.
    rewrite forallb_forall in Hall. specialize (Hall u Hin1).
    unfold direct_call in Hall, Hd.
    apply andb_prop in Hall as [_ H1]. apply andb_prop in Hd as [_ H2].
    apply value_eqb_eq in H1. apply value_eqb_eq in H2.
    unfold fn1, fn2, NamedFunction in *.
    destruct (getFunc m "runtime._panic"); [| contradiction].
    destruct (getFunc m "runtime.runtimePanic"); [| contradiction].
    rewrite H1 in H2. discriminate. }
  unfold getUses in Hrun.
  destruct (forallb (direct_call fn1) (users m fn1)) eqn:E1.
  - destruct L1 as (mc1 & Erun1 & Hinv1).
    pose proof (trap_loop fn2 (users m fn2) _ mc1 Hinv1
                  (fun u H => proj1 (users_In m fn2 u H))
                  (users_NoDup m fn2 Hwf)
                  (fun u Hin Hd => Hdisjoint u Hin Hd eq_refl)) as L2.
    rewrite Erun1 in Hrun. cbn [bind] in Hrun.
    rewrite (trap_uses_of_unfold mc1 _ "runtime.runtimePanic" Hinv1) in Hrun
      by (cbn; auto).
    fold fn2 in Hrun. unfold getUses in Hrun.
    destruct (forallb (direct_call fn2) (users m fn2)) eqn:E2.
    + destruct L2 as (mc2 & Erun2 & Hinv2). rewrite Erun2 in Hrun. cbn [bind] in Hrun.
      split.
      * intros _. exists mc2. split; [exact Hrun |].
        destruct Hinv2 as [Hs _]. unfold same_shape in *.
        eapply Forall2_impl; [| exact Hs].
        intros f f' (Hn & Hp & Hb). repeat split; auto.
        eapply Forall2_impl; [| exact Hb].
        intros b b'. apply trapped_ext. intros id.
        unfold panic_uses, panic_names. cbn [flat_map]. fold fn1 fn2.
        unfold getUses. rewrite !in_app_iff, <- !in_rev. cbn [In]. tauto.
      * intros (name & u & Hname & Hin & Hd). exfalso.
        rewrite forallb_forall in E1, E2.
        destruct Hname as [<- | [<- | []]].
        -- specialize (E1 u Hin). fold fn1 in Hd. congruence.
        -- specialize (E2 u Hin). fold fn2 in Hd. congruence.
    + rewrite L2 in Hrun. cbn [bind] in Hrun. split; [| intros _; exact Hrun].
      intros Hall. exfalso.
      assert (forallb (direct_call fn2) (users m fn2) = true); [| congruence].
      apply forallb_forall. intros u Hin. apply (Hall "runtime.runtimePanic"%string u); cbn; auto.
  - rewrite L1 in Hrun. cbn [bind] in Hrun. split; [| intros _; exact Hrun].
    intros Hall. exfalso.
    assert (forallb (direct_call fn1) (users m fn1) = true); [| congruence].
    apply forallb_forall. intros u Hin. apply (Hall "runtime._panic"%string u); cbn; auto.
Qed.
End TrapPass.

(** ** OptimizeMaps *)

Section EraseFacts.
Import IR Optimizer.

Lemma mem_id_In ids i : mem_id ids i = true <-> In (iid i) ids.
Proof.
  unfold mem_id. rewrite existsb_exists. split.
  - intros (x & Hin & Hx). apply Nat.eqb_eq in Hx. now subst.
  - intros Hin. exists (iid i). split; [assumption | apply Nat.eqb_refl].
Qed.

Lemma map_blocks_ext g g' m :
  (forall b, g b = g' b) -> map_blocks g m = map_blocks g' m.
Proof.
  intros H. unfold map_blocks. f_equal. apply map_ext. intros f. f_equal.
  apply map_ext. exact H.
Qed.

Lemma map_blocks_compose g g' m :
  map_blocks g (map_blocks g' m) = map_blocks (fun b => g (g' b)) m.
Proof.
  unfold map_blocks. cbn. f_equal. rewrite map_map. apply map_ext. intros f. cbn.
  f_equal. now rewrite map_map.
Qed.

Lemma map_blocks_id g m : (forall b, g b = b) -> map_blocks g m = m.
Proof.
  intros H. destruct m as [fs n]. unfold map_blocks. cbn. f_equal.
  induction fs as [| f fs IH]; cbn; [reflexivity |]. rewrite IH. f_equal.
  destruct f as [name ps bs]. cbn. f_equal.
  induction bs as [| b bs IHb]; cbn; [reflexivity |]. now rewrite H, IHb.
Qed.

Lemma filter_all (p : inst -> bool) l : (forall x, p x = true) -> filter p l = l.
Proof.
  intros H. induction l as [| x l IH]; cbn; [reflexivity |]. now rewrite H, IH.
Qed.

Lemma filter_twice (p q : inst -> bool) l :
  filter p (filter q l) = filter (fun x => q x && p x) l.
Proof.
  induction l as [| x l IH]; cbn; [reflexivity |].
  destruct (q x); cbn; [destruct (p x) |]; now rewrite IH.
Qed.

Lemma remove_all_nil m : remove_all [] m = m.
Proof. apply map_blocks_id. intros b. now apply filter_all. Qed.

Lemma remove_inst_remove_all id ids m :
  remove_inst id (remove_all ids m) = remove_all (id :: ids) m.
Proof.
  unfold remove_inst, remove_all. rewrite map_blocks_compose.
  apply map_blocks_ext. intros b. rewrite filter_twice. apply filter_ext.
  intros i. unfold mem_id. cbn. unfold has_id.
  destruct (Nat.eqb (iid i) id); destruct (existsb _ ids); reflexivity.
Qed.

Lemma remove_all_ext ids ids' m :
  (forall id, In id ids <-> In id ids') -> remove_all ids m = remove_all ids' m.
Proof.
  intros H. apply map_blocks_ext. intros b. apply filter_ext. intros i. f_equal.
  destruct (mem_id ids i) eqn:E, (mem_id ids' i) eqn:E'; try reflexivity.
  - apply mem_id_In, H, mem_id_In in E. congruence.
  - apply mem_id_In, H, mem_id_In in E'. congruence.
Qed.

Lemma all_insts_filter p m :
  all_insts (map_blocks (filter p) m) = filter p (all_insts m).
Proof.
  unfold all_insts, map_blocks. cbn.
  induction (mfuncs m) as [| f fs IH]; cbn; [reflexivity |].
  rewrite filter_app, IH. f_equal. unfold func_insts. cbn.
  induction (fblocks f) as [| b bs IHb]; cbn; [reflexivity |].
  now rewrite filter_app, IHb.
Qed.

Lemma all_insts_remove_all ids m :
  all_insts (remove_all ids m) = filter (fun i => negb (mem_id ids i)) (all_insts m).
Proof. apply all_insts_filter. Qed.

Lemma find_filter_id (p : inst -> bool) id l :
  find (has_id id) (filter p l) =
  match find (fun i => has_id id i && p i) l with
  | Some i => Some i
  | None => None
  end.
Proof.
  induction l as [| x l IH]; cbn; [reflexivity |].
  destruct (p x) eqn:Ep; cbn; destruct (has_id id x); cbn; auto.
Qed.

Lemma getInst_remove_all_in ids m id :
  In id ids -> getInst (remove_all ids m) id = None.
Proof.
  intros Hin. unfold getInst. rewrite all_insts_remove_all.
  destruct (find _ _) as [i |] eqn:E; [| reflexivity].
  apply find_some in E as [Hi Hid]. apply filter_In in Hi as [_ Hm].
  apply Nat.eqb_eq in Hid. apply negb_true_iff in Hm.
  assert (mem_id ids i = true) by (apply mem_id_In; now rewrite Hid). congruence.
Qed.

Lemma getInst_remove_all_out ids m u :
  wf_module m = true -> In u (all_insts m) -> ~ In (iid u) ids ->
  getInst (remove_all ids m) (iid u) = Some u.
Proof.
  intros Hwf Hin Hout. unfold getInst. rewrite all_insts_remove_all.
  apply find_unique_id.
  - apply NoDup_ids_filter. now apply wf_module_ids.
  - apply filter_In. split; [assumption |]. apply negb_true_iff.
    destruct (mem_id ids u) eqn:E; [| reflexivity]. now apply mem_id_In in E.
Qed.

Lemma users_remove_all ids m v :
  users (remove_all ids m) v = filter (fun i => negb (mem_id ids i)) (users m v).
Proof.
  unfold users. destruct v; try reflexivity;
    rewrite all_insts_remove_all, !filter_twice; apply filter_ext;
    intros i; apply andb_comm.
Qed.

Lemma users_remove_all_same ids m v :
  (forall u, In u (users m v) -> ~ In (iid u) ids) ->
  users (remove_all ids m) v = users m v.
Proof.
  intros H. rewrite users_remove_all.
  induction (users m v) as [| x l IH]; cbn; [reflexivity |].
  replace (mem_id ids x) with false.
  - cbn. f_equal. apply IH. intros u Hu. apply H. now right.
  - symmetry. destruct (mem_id ids x) eqn:E; [| reflexivity].
    apply mem_id_In in E. exfalso. apply (H x); [now left | assumption].
Qed.

(** Erasing live instructions one after the other. *)
Lemma erase_loop m :
  wf_module m = true ->
  forall us ids,
    (forall u, In u us -> In u (all_insts m) /\ ~ In (iid u) ids) ->
    NoDup (map iid us) ->
    for_each EraseFromParentAsInstruction (map iid us) (remove_all ids m)
    = Done (remove_all (rev (map iid us) ++ ids) m).
Proof.
  intros Hwf. induction us as [| u us IH]; intros ids Hus Hnd; cbn [map for_each].
  - reflexivity.
  - destruct (Hus u (or_introl eq_refl)) as [Hin Hout].
    unfold EraseFromParentAsInstruction at 1.
    rewrite (getInst_remove_all_out ids m u Hwf Hin Hout). cbn [bind].
    rewrite remove_inst_remove_all. inversion Hnd as [| ? ? Hu Hnd']; subst.
    rewrite IH; auto.
    + cbn [rev]. now rewrite <- app_assoc.
    + intros u' Hin'. destruct (Hus u' (or_intror Hin')) as [Ha Hb].
      split; [assumption |]. intros [Heq | Hc]; [| contradiction].
      apply Hu. rewrite Heq. now apply in_map.
Qed.
End EraseFacts.

Section MapsPass.
Import IR Optimizer.
Variable m : module.
Hypothesis Hwf : wf_module m = true.
Hypothesis Htyped : maps_typed m = true.

Let make := NamedFunction m "runtime.hashmapMake".
Let hbs := NamedFunction m "runtime.hashmapBinarySet".
Let hss := NamedFunction m "runtime.hashmapStringSet".

Lemma users_iff v u :
  v <> VNil -> (In u (users m v) <-> In u (all_insts m) /\ In v (ioperands u)).
Proof.
  intros Hv. split; [apply In_users |]. intros [Hin Hop].
  assert (Hf : In u (filter (uses_value v) (all_insts m))).
  { apply filter_In. split; [assumption |]. unfold uses_value.
    apply existsb_exists. exists v. split; [assumption | now apply value_eqb_eq]. }
  unfold users. destruct v; auto. contradiction.
Qed.

Lemma same_id u u' :
  In u (all_insts m) -> In u' (all_insts m) -> iid u = iid u' -> u = u'.
Proof.
  intros H H' Hid.
  pose proof (getInst_unique m u Hwf H) as E.
  pose proof (getInst_unique m u' Hwf H') as E'.
  rewrite Hid in E. congruence.
Qed.

Lemma In_map_operands k u :
  In k (users m make) -> In (VInst (iid k)) (ioperands u) ->
  In (VInst (iid k)) (map_operands m make u).
Proof.
  intros Hk Hop. unfold map_operands. apply filter_In. split; [assumption |].
  apply existsb_exists. exists k. split; [assumption | apply Nat.eqb_refl].
Qed.

Lemma makes_take_no_map k k' :
  In k (users m make) -> In k' (users m make) -> ~ In (VInst (iid k')) (ioperands k).
Proof.
  intros Hk Hk' Hop. unfold maps_typed in Htyped. fold make hbs hss in Htyped.
  apply andb_prop in Htyped as [H _]. rewrite forallb_forall in H.
  specialize (H k Hk). pose proof (In_map_operands k' k Hk' Hop) as Hin.
  destruct (map_operands m make k); [contradiction | discriminate].
Qed.

Lemma update_names_one_map u k1 k2 :
  In u (all_insts m) -> is_update hbs hss u = true ->
  In k1 (users m make) -> In k2 (users m make) ->
  In (VInst (iid k1)) (ioperands u) -> In (VInst (iid k2)) (ioperands u) ->
  iid k1 = iid k2.
Proof.
  intros Hu Hup Hk1 Hk2 H1 H2. unfold maps_typed in Htyped. fold make hbs hss in Htyped.
  apply andb_prop in Htyped as [_ H]. rewrite forallb_forall in H.
  specialize (H u Hu). rewrite Hup in H. cbn in H. rewrite forallb_forall in H.
  specialize (H _ (In_map_operands k1 u Hk1 H1)). rewrite forallb_forall in H.
  specialize (H _ (In_map_operands k2 u Hk2 H2)). apply value_eqb_eq in H. congruence.
Qed.

Lemma only_updated_use k u :
  only_updated m k = true -> In u (users m (VInst (iid k))) -> is_update hbs hss u = true.
Proof.
  unfold only_updated. rewrite forallb_forall. intros H Hin. now apply H.
Qed.

(** A map and its uses are out of reach of the erasing of other maps. *)
Lemma not_doomed ks k :
  (forall k', In k' ks -> In k' (users m make)) ->
  In k (users m make) ->
  (forall k', In k' ks -> only_updated m k' = true -> iid k' <> iid k) ->
  ~ doomed_by m ks (iid k) /\
  forall u, In u (users m (VInst (iid k))) -> ~ doomed_by m ks (iid u).
Proof.
  intros Hks Hk Hother.
  assert (Hall : In k (all_insts m)) by (apply (users_In m make k Hk)).
  split.
  - intros (k' & Hin' & Hup' & [Heq | Huse]).
    + apply (Hother k' Hin' Hup'). congruence.
    + unfold getUses in Huse. apply in_map_iff in Huse as (u & Hid & Hu).
      apply In_users in Hu as [Hua Huo].
      pose proof (same_id u k Hua Hall Hid) as ->.
      now apply (makes_take_no_map k k' Hk (Hks k' Hin')).
  - intros u Hu (k' & Hin' & Hup' & [Heq | Huse]).
    + apply In_users in Hu as [Hua Huo].
      pose proof (users_In m make k' (Hks k' Hin')) as [Hk'a _].
      pose proof (same_id u k' Hua Hk'a Heq) as ->.
      now apply (makes_take_no_map k' k (Hks k' Hin') Hk).
    + unfold getUses in Huse. apply in_map_iff in Huse as (u' & Hid & Hu').
      pose proof (only_updated_use k' u' Hup' Hu') as Hupd.
      apply In_users in Hu as [Hua Huo]. apply In_users in Hu' as [Hu'a Hu'o].
      pose proof (same_id u' u Hu'a Hua Hid) as ->.
      apply (Hother k' Hin' Hup').
      now apply (update_names_one_map u k' k Hua Hupd (Hks k' Hin') Hk).
Qed.

Lemma classify_use_step l b u :
  classify_use hbs hss (l, b) u =
  if is_update hbs hss u then (l ++ [iid u], b) else (l, true).
Proof.
  unfold classify_use, is_update. destruct (IsACallInst u); [| reflexivity].
  cbn [andb]. now destruct (value_eqb (CalledValue u) hbs || value_eqb (CalledValue u) hss).
Qed.

Lemma classify_fold us l b :
  fold_left (classify_use hbs hss) us (l, b) =
  (l ++ map iid (filter (is_update hbs hss) us),
   b || existsb (fun u => negb (is_update hbs hss u)) us).
Proof.
  revert l b. induction us as [| u us IH]; intros l b.
  - cbn. now rewrite app_nil_r, orb_false_r.
  - cbn [fold_left filter existsb]. rewrite classify_use_step.
    destruct (is_update hbs hss u); rewrite IH; cbn [negb orb map].
    + now rewrite <- app_assoc.
    + now rewrite orb_true_r.
Qed.

Lemma maps_body_step ids k :
  In k (all_insts m) -> ~ In (iid k) ids ->
  (forall u, In u (users m (VInst (iid k))) -> ~ In (iid u) ids) ->
  ~ In (iid k) (getUses m (VInst (iid k))) ->
  maps_body hbs hss (remove_all ids m) (iid k) =
  Done (if only_updated m k
        then remove_all (iid k :: rev (getUses m (VInst (iid k))) ++ ids) m
        else remove_all ids m).
Proof.
  intros Hk Hout Husers Hself. unfold maps_body, live.
  rewrite (getInst_remove_all_out ids m k Hwf Hk Hout). cbn [bind].
  rewrite (users_remove_all_same ids m _ Husers), classify_fold.
  cbn [app orb]. unfold only_updated. fold hbs hss.
  set (us := users m (VInst (iid k))) in *.
  destruct (forallb (is_update hbs hss) us) eqn:Eall.
  - replace (existsb (fun u => negb (is_update hbs hss u)) us) with false.
    + cbn [negb]. replace (filter (is_update hbs hss) us) with us.
      * rewrite (erase_loop m Hwf us ids).
        -- cbn [bind]. unfold EraseFromParentAsInstruction.
           rewrite (getInst_remove_all_out _ m k Hwf Hk).
           ++ now rewrite remove_inst_remove_all.
           ++ rewrite in_app_iff, <- in_rev. intros [H | H]; contradiction.
        -- intros u Hu. split; [apply (In_users m u _ Hu) | now apply Husers].
        -- apply (users_NoDup m (VInst (iid k)) Hwf).
      * symmetry. rewrite forallb_forall in Eall. clear - Eall.
        induction us as [| x l IH]; cbn; [reflexivity |].
        rewrite (Eall x (or_introl eq_refl)). f_equal. apply IH.
        intros y Hy. apply Eall. now right.
    + symmetry. destruct (existsb _ us) eqn:E; [| reflexivity].
      apply existsb_exists in E as (x & Hx & Hnx). rewrite forallb_forall in Eall.
      rewrite (Eall x Hx) in Hnx. discriminate.
  - replace (existsb (fun u => negb (is_update hbs hss u)) us) with true; [reflexivity |].
    symmetry. apply existsb_exists.
    assert (H : ~ forall x, In x us -> is_update hbs hss x = true)
      by (rewrite <- forallb_forall; congruence).
    clear - H. induction us as [| x l IH]; [exfalso; apply H; intros x [] |].
    destruct (is_update hbs hss x) eqn:E.
    + destruct IH as (y & Hy & Hny).
      * intros Hl. apply H. intros z [<- | Hz]; auto.
      * exists y. split; [now right | assumption].
    + exists x. split; [now left | now rewrite E].
Qed.

Lemma doomed_by_snoc done k id :
  doomed_by m (done ++ [k]) id <->
  doomed_by m done id \/
  (only_updated m k = true /\ (id = iid k \/ In id (getUses m (VInst (iid k))))).
Proof.
  unfold doomed_by. split.
  - intros (k' & Hin & Hup & H). apply in_app_or in Hin as [Hin | [<- | []]].
    + left. now exists k'.
    + right. auto.
  - intros [(k' & Hin & Hup & H) | (Hup & H)].
    + exists k'. split; [apply in_or_app; now left | auto].
    + exists k. split; [apply in_or_app; right; now left | auto].
Qed.

Lemma maps_loop :
  forall ks done ids,
    (forall k, In k ks -> In k (users m make)) ->
    NoDup (map iid ks) ->
    (forall k, In k done -> In k (users m make)) ->
    (forall k, In k done -> ~ In (iid k) (map iid ks)) ->
    (forall id, In id ids <-> doomed_by m done id) ->
    exists ids',
      for_each (maps_body hbs hss) (map iid ks) (remove_all ids m)
      = Done (remove_all ids' m) /\
      (forall id, In id ids' <-> doomed_by m (done ++ ks) id).
Proof.
  induction ks as [| k ks IH]; intros done ids Hks Hnd Hdone Hsep Hids; cbn [map for_each].
  - exists ids. split; [reflexivity |]. now rewrite app_nil_r.
  - inversion Hnd as [| ? ? Hk Hnd']; subst.
    assert (Hkm : In k (users m make)) by (apply Hks; now left).
    destruct (not_doomed done k Hdone Hkm) as [Hk1 Hk2].
    { intros k' Hin' _ Heq. apply (Hsep k' Hin'). left. now symmetry. }
    assert (Hself : ~ In (iid k) (getUses m (VInst (iid k)))).
    { unfold getUses. intros Hin. apply in_map_iff in Hin as (u & Hid & Hu).
      apply In_users in Hu as [Hua Huo].
      pose proof (same_id u k Hua (proj1 (users_In m make k Hkm)) Hid) as ->.
      now apply (makes_take_no_map k k Hkm Hkm). }
    rewrite (maps_body_step ids k (proj1 (users_In m make k Hkm))); auto.
    2:{ now rewrite Hids. }
    2:{ intros u Hu. rewrite Hids. now apply Hk2. }
    cbn [bind].
    set (ids1 := if only_updated m k
                 then iid k :: rev (getUses m (VInst (iid k))) ++ ids else ids).
    replace (if only_updated m k
             then remove_all (iid k :: rev (getUses m (VInst (iid k))) ++ ids) m
             else remove_all ids m)
      with (remove_all ids1 m)
      by (unfold ids1; destruct (only_updated m k); reflexivity).
    destruct (IH (done ++ [k]) ids1) as (ids' & Erun & Hids').
    + intros k' Hin'. apply Hks. now right.
    + exact Hnd'.
    + intros k' Hin'. apply in_app_or in Hin' as [Hin' | [<- | []]]; auto.
    + intros k' Hin' Hc. apply in_app_or in Hin' as [Hin' | [<- | []]].
      * apply (Hsep k' Hin'). now right.
      * contradiction.
    + intros id. rewrite doomed_by_snoc, <- Hids. unfold ids1.
      destruct (only_updated m k).
      * cbn [In]. rewrite in_app_iff, <- in_rev. split.
        -- intros [H | [H | H]]; auto.
        -- intros [H | (_ & [H | H])]; auto.
      * split; [auto |]. intros [H | (H & _)]; [exact H | discriminate].
    + exists ids'. split; [exact Erun |]. intros id. rewrite Hids'.
      now rewrite <- app_assoc.
Qed.

(** C5: on a module typed as the map functions are, [OptimizeMaps]
    returns a module where every use of [hashmapMake] whose result was only
    used by calls of [hashmapBinarySet] and [hashmapStringSet] is gone with
    all these calls, and every other use of [hashmapMake] is there as it
    was, with the uses of its result as they were. *)
Theorem OptimizeMaps_erases_unused_maps :
  exists m',
    OptimizeMaps m = Done m' /\
    forall k,
      In k (users m (NamedFunction m "runtime.hashmapMake")) ->
      (only_updated m k = true ->
       getInst m' (iid k) = None /\
       forall u, In u (users m (VInst (iid k))) -> getInst m' (iid u) = None) /\
      (only_updated m k = false ->
       getInst m' (iid k) = Some k /\
       users m' (VInst (iid k)) = users m (VInst (iid k))).
Proof.
  destruct (maps_loop (users m make) [] []) as (ids & Erun & Hids).
  - auto.
  - apply (users_NoDup m make Hwf).
  - intros k [].
  - intros k [].
  - intros id. split; [intros [] | intros (k & [] & _)].
  - cbn [app] in Hids. exists (remove_all ids m). split.
    + unfold OptimizeMaps. fold make hbs hss. rewrite remove_all_nil in Erun.
      destruct (IsNil make) eqn:En; [| exact Erun].
      f_equal. destruct make; try discriminate.
      cbn in Hids. symmetry.
      rewrite (remove_all_ext ids [] m); [apply remove_all_nil |].
      intros id. rewrite Hids. split; [intros (k & [] & _) | intros []].
    + intros k Hk. fold make in Hk.
      pose proof (users_In m make k Hk) as [Hka _]. split.
      * intros Hup. split.
        -- apply getInst_remove_all_in, Hids. exists k. auto.
        -- intros u Hu. apply getInst_remove_all_in, Hids. exists k.
           repeat split; auto. right. unfold getUses. now apply in_map.
      * intros Hup.
        destruct (not_doomed (users m make) k (fun _ H => H) Hk) as [Hk1 Hk2].
        { intros k' Hin' Hup' Heq.
          pose proof (same_id k' k (proj1 (users_In m make k' Hin')) Hka Heq) as ->.
          congruence. }
        split.
        -- apply getInst_remove_all_out; auto. now rewrite Hids.
        -- apply users_remove_all_same. intros u Hu. rewrite Hids. now apply Hk2.
Qed.
End MapsPass.

Section RewriteExamples.
Import IR Optimizer Examples.

Lemma replacePanicsWithTrap_inserts_traps_witness :
  ((forall name u, In name panic_names ->
                   In u (users panicking (NamedFunction panicking name)) ->
                   direct_call (NamedFunction panicking name) u = true) ->
   exists m', replacePanicsWithTrap panicking = Done m' /\
              same_shape (trapped (panic_uses panicking) (mnext panicking))
                         panicking m') /\
  ((exists name u, In name panic_names /\
                   In u (users panicking (NamedFunction panicking name)) /\
                   direct_call (NamedFunction panicking name) u = false) ->
   replacePanicsWithTrap panicking = Panic trap_msg).
Proof.
  apply (replacePanicsWithTrap_inserts_traps panicking); [reflexivity | discriminate].
Defined.

Lemma OptimizeMaps_erases_unused_maps_witness :
  exists m',
    OptimizeMaps two_maps = Done m' /\
    forall k,
      In k (users two_maps (NamedFunction two_maps "runtime.hashmapMake")) ->
      (only_updated two_maps k = true ->
       getInst m' (iid k) = None /\
       forall u, In u (users two_maps (VInst (iid k))) -> getInst m' (iid u) = None) /\
      (only_updated two_maps k = false ->
       getInst m' (iid k) = Some k /\
       users m' (VInst (iid k)) = users two_maps (VInst (iid k))).
Proof.
  apply (OptimizeMaps_erases_unused_maps two_maps); reflexivity.
Defined.

End RewriteExamples.

(** ** OptimizeStringToBytes *)

Section RewriteFacts.
Import IR Optimizer.

Lemma all_insts_map g m :
  all_insts (map_blocks (map g) m) = map g (all_insts m).
Proof.
  unfold all_insts, map_blocks. cbn.
  induction (mfuncs m) as [| f fs IH]; cbn; [reflexivity |].
  rewrite map_app, IH. f_equal. unfold func_insts. cbn.
  induction (fblocks f) as [| b bs IHb]; cbn; [reflexivity |].
  now rewrite map_app, IHb.
Qed.

Lemma filter_map_ids ids s (l : list inst) :
  filter (fun i => negb (mem_id ids i)) (map (rewrite_inst s) l) =
  map (rewrite_inst s) (filter (fun i => negb (mem_id ids i)) l).
Proof.
  induction l as [| x l IH]; cbn; [reflexivity |].
  change (mem_id ids (rewrite_inst s x)) with (mem_id ids x).
  destruct (negb (mem_id ids x)); cbn; now rewrite IH.
Qed.

Lemma all_insts_rewritten ids s m :
  all_insts (rewritten ids s m) =
  map (rewrite_inst s) (filter (fun i => negb (mem_id ids i)) (all_insts m)).
Proof.
  unfold rewritten, rewrite_operands.
  now rewrite all_insts_remove_all, all_insts_map, filter_map_ids.
Qed.

Lemma rewritten_start m : rewritten [] (fun v => v) m = m.
Proof.
  unfold rewritten. rewrite remove_all_nil. apply map_blocks_id.
  intros b. induction b as [| i b IH]; cbn; [reflexivity |].
  rewrite IH. f_equal. destruct i. unfold rewrite_inst. cbn. now rewrite map_id.
Qed.

Lemma ReplaceAllUsesWith_rewritten ids s m old new :
  ReplaceAllUsesWith (rewritten ids s m) old new =
  rewritten ids (fun v => subst_value old new (s v)) m.
Proof.
  unfold ReplaceAllUsesWith, rewritten, remove_all, rewrite_operands.
  rewrite !map_blocks_compose. apply map_blocks_ext. intros b.
  induction b as [| i b IH]; cbn; [reflexivity |].
  change (mem_id ids (rewrite_inst s i)) with (mem_id ids i).
  change (mem_id ids (rewrite_inst (fun v => subst_value old new (s v)) i))
    with (mem_id ids i).
  destruct (negb (mem_id ids i)); cbn; rewrite IH; [| reflexivity].
  f_equal. unfold subst_inst, rewrite_inst. cbn. now rewrite map_map.
Qed.

Lemma remove_inst_rewritten id ids s m :
  remove_inst id (rewritten ids s m) = rewritten (id :: ids) s m.
Proof. apply remove_inst_remove_all. Qed.

Lemma getInst_rewritten_in ids s m id :
  In id ids -> getInst (rewritten ids s m) id = None.
Proof. apply getInst_remove_all_in. Qed.

Lemma getInst_rewritten_out ids s m u :
  wf_module m = true -> In u (all_insts m) -> ~ In (iid u) ids ->
  getInst (rewritten ids s m) (iid u) = Some (rewrite_inst s u).
Proof.
  intros Hwf Hin Hout. unfold getInst. rewrite all_insts_rewritten.
  apply (find_unique_id _ (rewrite_inst s u)).
  - rewrite map_map. cbn. apply NoDup_ids_filter. now apply wf_module_ids.
  - apply in_map. apply filter_In. split; [assumption |]. apply negb_true_iff.
    destruct (mem_id ids u) eqn:E; [| reflexivity]. now apply mem_id_In in E.
Qed.

Lemma getInst_rewritten_Some ids s m id w :
  getInst (rewritten ids s m) id = Some w ->
  exists u, In u (all_insts m) /\ iid u = id /\ ~ In id ids /\ w = rewrite_inst s u.
Proof.
  intros H. apply getInst_In in H as [Hin Hid]. rewrite all_insts_rewritten in Hin.
  apply in_map_iff in Hin as (u & Hw & Hu). apply filter_In in Hu as [Hu Hm].
  exists u. subst w. cbn in Hid. repeat split; auto.
  intros Hc. apply negb_true_iff in Hm.
  assert (mem_id ids u = true) by (apply mem_id_In; now rewrite Hid). congruence.
Qed.

Lemma ssa_ranked_inst m rk u :
  ssa_ranked m rk = true -> In u (all_insts m) ->
  (forall t, iop u <> OtherOp t) ->
  (rk (iid u) < mnext m)%nat /\
  forall j, In (VInst j) (ioperands u) -> (rk (iid u) < rk j)%nat.
Proof.
  unfold ssa_ranked. rewrite forallb_forall. intros H Hin Hop. specialize (H u Hin).
  assert (H' : Nat.ltb (rk (iid u)) (mnext m)
               && forallb (fun v => match v with
                                    | VInst j => Nat.ltb (rk (iid u)) (rk j)
                                    | _ => true
                                    end) (ioperands u) = true).
  { destruct (iop u); try exact H. now specialize (Hop tag). }
  apply andb_prop in H' as [H1 H2]. apply Nat.ltb_lt in H1. split; [assumption |].
  intros j Hj. rewrite forallb_forall in H2. specialize (H2 _ Hj). now apply Nat.ltb_lt.
Qed.

Lemma gep_ranked_rewritten ids s m rk :
  ssa_ranked m rk = true -> rank_monotone rk s ->
  gep_ranked (rewritten ids s m) rk.
Proof.
  intros Hrk [Hfix Hmono] w Hw Hop. rewrite all_insts_rewritten in Hw.
  apply in_map_iff in Hw as (u & <- & Hu). apply filter_In in Hu as [Hu _].
  cbn in *. destruct (ssa_ranked_inst m rk u Hrk Hu) as [Hlt Hops].
  { intros t. rewrite Hop. discriminate. }
  split; [exact Hlt |]. intros j' Hj'. apply in_map_iff in Hj' as (v & Hv & Hin).
  destruct v as [| j | | | | |];
    try (rewrite Hfix in Hv by (intros; discriminate); discriminate).
  specialize (Hmono _ _ Hv). specialize (Hops j Hin). lia.
Qed.

Lemma rank_monotone_id rk : rank_monotone rk (fun v => v).
Proof.
  split; [reflexivity |]. intros j j' H. injection H as ->. lia.
Qed.

Lemma rank_monotone_subst rk s e x :
  rank_monotone rk s ->
  (forall j, x = VInst j -> (rk e < rk j)%nat) ->
  rank_monotone rk (fun v => subst_value (VInst e) x (s v)).
Proof.
  intros [Hfix Hmono] Hx. split.
  - intros v Hv. rewrite (Hfix v Hv). unfold subst_value.
    destruct (value_eqb v (VInst e)) eqn:E; [| reflexivity].
    apply value_eqb_eq in E. now specialize (Hv e).
  - intros j j'. unfold subst_value.
    destruct (value_eqb (s (VInst j)) (VInst e)) eqn:E.
    + apply value_eqb_eq in E. intros Hxj. specialize (Hx _ Hxj).
      specialize (Hmono _ _ E). lia.
    + apply Hmono.
Qed.
End RewriteFacts.

Section ReadOnlyFacts.
Import IR Optimizer.
Variable m : module.
Variable rk : nat -> nat.
Hypothesis Hrk : gep_ranked m rk.

Lemma readonly_walk_total self v uses :
  (forall u, In u uses -> iop u = GetElementPtr ->
             exists b, self (VInst (iid u)) = Some b) ->
  exists b, readonly_walk self m v uses = Some b.
Proof.
  induction uses as [| u uses IH]; intros H; cbn [readonly_walk]; [eauto |].
  assert (Hrest : exists b, readonly_walk self m v uses = Some b)
    by (apply IH; intros u' Hin; apply H; now right).
  pose proof (H u (or_introl eq_refl)) as Hu.
  destruct (iop u); eauto.
  - destruct (negb _); eauto.
  - destruct (Hu eq_refl) as [[] ->]; eauto.
Qed.

Lemma isReadOnly_rec_total n v :
  (forall u, In u (users m v) -> iop u = GetElementPtr -> (rk (iid u) < n)%nat) ->
  exists b, isReadOnly_rec (S n) m v = Some b.
Proof.
  revert v. induction n as [| n IH]; intros v H; cbn [isReadOnly_rec].
  - apply readonly_walk_total. intros u Hin Hd. specialize (H u Hin Hd). lia.
  - apply readonly_walk_total. intros u Hin Hd. apply IH.
    intros u' Hin' Hd'. apply In_users in Hin' as [Hall' Hop'].
    destruct (Hrk u' Hall' Hd') as [_ Hlt]. specialize (Hlt _ Hop').
    specialize (H u Hin Hd). lia.
Qed.

Lemma isReadOnly_total v : exists b, isReadOnly m v = Some b.
Proof.
  unfold isReadOnly, analysis_fuel. apply isReadOnly_rec_total.
  intros u Hin Hd. apply In_users in Hin as [Hall _].
  destruct (Hrk u Hall Hd). lia.
Qed.
End ReadOnlyFacts.

Section StringToBytes.
Import IR Optimizer.
Variable m : module.
Variable rk : nat -> nat.
Variable call : nat.
Variables strptr strlen : value.
Hypothesis Hwf : wf_module m = true.
Hypothesis Hrk : ssa_ranked m rk = true.
Hypothesis Htyped : extracts_typed m call = true.
Hypothesis Hptr : forall j, strptr = VInst j -> (rk call < rk j)%nat.
Hypothesis Hlen : forall j, strlen = VInst j -> (rk call < rk j)%nat.

Let turn := s2b_turn m strptr strlen.

Lemma opcode_eqb_eq a b : opcode_eqb a b = true <-> a = b.
Proof.
  destruct a, b; cbn; split; try congruence; try discriminate.
  - intros H. apply Nat.eqb_eq in H. now subst.
  - intros H. injection H as ->. apply Nat.eqb_refl.
Qed.

Lemma Operand_In i n j : Operand i n = VInst j -> In (VInst j) (ioperands i).
Proof.
  unfold Operand. intros H.
  destruct (Nat.lt_ge_cases n (List.length (ioperands i))) as [Hlt | Hge].
  - rewrite <- H. now apply nth_In.
  - rewrite nth_overflow in H by assumption. discriminate.
Qed.

Lemma for_each_app {S X : Type} (body : S -> X -> outcome S) (xs ys : list X) (s : S) :
  for_each body (xs ++ ys) s = bind (for_each body xs s) (for_each body ys).
Proof.
  revert s. induction xs as [| x xs IH]; intros s; cbn [app for_each bind];
    [reflexivity |].
  destruct (body s x); cbn [bind]; auto.
Qed.

Lemma extract_below_call u :
  In u (users m (VInst call)) -> IsAExtractValueInst u = true ->
  (rk (iid u) < rk call)%nat.
Proof.
  intros Hu He. apply In_users in Hu as [Hall Hop].
  apply opcode_eqb_eq in He.
  destruct (ssa_ranked_inst m rk u Hrk Hall) as [_ H].
  - intros t. rewrite He. discriminate.
  - now apply H.
Qed.

Lemma replacement_above u j :
  replacement strptr strlen u = VInst j -> (rk call < rk j)%nat.
Proof. unfold replacement. destruct (TypeKind (ity u)); auto. Qed.

(** What a field is replaced with is no field of the call. *)
Lemma replacement_no_field u u' :
  In u' (users m (VInst call)) -> IsAExtractValueInst u' = true ->
  replacement strptr strlen u <> VInst (iid u').
Proof.
  intros Hu He Heq. apply replacement_above in Heq.
  pose proof (extract_below_call u' Hu He). lia.
Qed.

Lemma extract_kind u :
  In u (users m (VInst call)) -> IsAExtractValueInst u = true ->
  TypeKind (ity u) = IntegerTypeKind \/ TypeKind (ity u) = PointerTypeKind.
Proof.
  intros Hu He. unfold extracts_typed in Htyped. rewrite forallb_forall in Htyped.
  specialize (Htyped u Hu). rewrite He in Htyped. cbn in Htyped.
  destruct (TypeKind (ity u)); try discriminate; auto.
Qed.

Lemma gets_rewritten_extract mc u :
  gets_rewritten mc u = true -> IsAExtractValueInst u = true.
Proof. unfold gets_rewritten. intros H. now apply andb_prop in H as [H _]. Qed.

Lemma turn_cases st u :
  (gets_rewritten (s2b_module m st) u = true /\
   turn st u = {| erased := iid u :: erased st;
                  renamed := fun v => subst_value (VInst (iid u))
                                                  (replacement strptr strlen u)
                                                  (renamed st v);
                  converted := converted st |}) \/
  (gets_rewritten (s2b_module m st) u = false /\
   turn st u = {| erased := erased st; renamed := renamed st; converted := false |}).
Proof.
  unfold turn, s2b_turn. destruct (gets_rewritten (s2b_module m st) u); auto.
Qed.

(** One turn of the loop, from a module in the middle of the rewrite. *)
Lemma s2b_use_run st u :
  rank_monotone rk (renamed st) ->
  In u (users m (VInst call)) -> ~ In (iid u) (erased st) ->
  s2b_use strptr strlen (s2b_module m st, converted st) (iid u) =
  Done (s2b_module m (turn st u), converted (turn st u)) /\
  rank_monotone rk (renamed (turn st u)).
Proof.
  intros Hs Hu Hout. destruct st as [ids s flag]. unfold s2b_module in *.
  cbn [erased renamed converted] in *.
  set (mc := rewritten ids s m).
  pose proof (In_users m u _ Hu) as [Hall _].
  assert (Hro : exists ro, isReadOnly mc (VInst (iid u)) = Some ro).
  { apply (isReadOnly_total mc rk). now apply gep_ranked_rewritten. }
  assert (Hlive : forall x,
             EraseFromParentAsInstruction
               (ReplaceAllUsesWith mc (VInst (iid u)) x) (iid u) =
             Done (rewritten (iid u :: ids)
                             (fun v => subst_value (VInst (iid u)) x (s v)) m)).
  { intros x. unfold EraseFromParentAsInstruction, mc.
    rewrite ReplaceAllUsesWith_rewritten.
    rewrite (getInst_rewritten_out ids _ m u Hwf Hall Hout).
    now rewrite remove_inst_rewritten. }
  destruct (turn_cases {| erased := ids; renamed := s; converted := flag |} u)
    as [[Eg ->] | [Eg ->]]; unfold s2b_module in Eg; cbn [erased renamed converted] in *;
    fold mc in Eg.
  - pose proof (gets_rewritten_extract _ _ Eg) as He. split.
    + unfold s2b_use, live. unfold mc at 1.
      rewrite (getInst_rewritten_out ids s m u Hwf Hall Hout). cbn [bind].
      change (IsAExtractValueInst (rewrite_inst s u)) with (IsAExtractValueInst u).
      change (ity (rewrite_inst s u)) with (ity u).
      fold mc. unfold gets_rewritten in Eg. rewrite He in *. cbn [negb andb] in *.
      unfold replacement.
      destruct (extract_kind u Hu He) as [E | E]; rewrite E in *.
      * now rewrite Hlive.
      * destruct Hro as [ro Hro]. rewrite Hro in *. cbn [analysis bind].
        destruct ro; [| discriminate]. cbn [negb]. now rewrite Hlive.
    + apply rank_monotone_subst; [assumption |]. intros j Hj.
      apply replacement_above in Hj. pose proof (extract_below_call u Hu He). lia.
  - split; [| exact Hs].
    unfold s2b_use, live. unfold mc at 1.
    rewrite (getInst_rewritten_out ids s m u Hwf Hall Hout). cbn [bind].
    change (IsAExtractValueInst (rewrite_inst s u)) with (IsAExtractValueInst u).
    change (ity (rewrite_inst s u)) with (ity u).
    fold mc. unfold gets_rewritten in Eg.
    destruct (IsAExtractValueInst u) eqn:He; cbn [negb andb] in *; [| reflexivity].
    destruct (extract_kind u Hu He) as [E | E]; rewrite E in *; [discriminate |].
    destruct Hro as [ro Hro]. rewrite Hro in *. cbn [analysis bind].
    destruct ro; [discriminate | reflexivity].
Qed.

Lemma turn_erased st u id :
  In id (erased (turn st u)) ->
  In id (erased st) \/ (id = iid u /\ IsAExtractValueInst u = true).
Proof.
  destruct (turn_cases st u) as [[Eg ->] | [Eg ->]]; cbn [erased].
  - intros [<- | H]; [right | now left].
    split; [reflexivity | now apply gets_rewritten_extract in Eg].
  - now left.
Qed.

Lemma turn_erased_sup st u id : In id (erased st) -> In id (erased (turn st u)).
Proof.
  destruct (turn_cases st u) as [[Eg ->] | [Eg ->]]; cbn [erased]; auto.
  intros H. now right.
Qed.

Lemma uses_erased_sub us :
  forall st id,
    In id (erased (fold_left turn us st)) ->
    In id (erased st) \/
    exists u, In u us /\ iid u = id /\ IsAExtractValueInst u = true.
Proof.
  induction us as [| u us IH]; intros st id; cbn [fold_left]; [now left |].
  intros H. destruct (IH _ _ H) as [H1 | (u' & H1 & H2 & H3)].
  - apply turn_erased in H1 as [H1 | [-> He]]; [now left |].
    right. exists u. split; [now left | auto].
  - right. exists u'. split; [now right | auto].
Qed.

Lemma uses_erased_sup us :
  forall st id, In id (erased st) -> In id (erased (fold_left turn us st)).
Proof.
  induction us as [| u us IH]; intros st id H; cbn [fold_left]; [exact H |].
  apply IH. now apply turn_erased_sup.
Qed.

(** The loop over uses that are there. *)
Lemma s2b_uses_run us :
  forall st,
    (forall u, In u us -> In u (users m (VInst call)) /\ ~ In (iid u) (erased st)) ->
    NoDup (map iid us) -> rank_monotone rk (renamed st) ->
    for_each (s2b_use strptr strlen) (map iid us) (s2b_module m st, converted st) =
    Done (s2b_module m (fold_left turn us st), converted (fold_left turn us st)) /\
    rank_monotone rk (renamed (fold_left turn us st)).
Proof.
  induction us as [| u us IH]; intros st Hus Hnd Hs; cbn [map for_each fold_left].
  - split; [reflexivity | exact Hs].
  - destruct (Hus u (or_introl eq_refl)) as [Hu Hout].
    destruct (s2b_use_run st u Hs Hu Hout) as [Estep Hs1].
    rewrite Estep. cbn [bind]. inversion Hnd as [| ? ? Hfresh Hnd']; subst.
    apply IH; [| assumption | assumption].
    intros u' Hin'. destruct (Hus u' (or_intror Hin')) as [Ha Hb].
    split; [assumption |]. intros Hc. apply turn_erased in Hc as [Hc | [Hc _]].
    + contradiction.
    + apply Hfresh. rewrite <- Hc. now apply in_map.
Qed.

Lemma uses_converted us :
  forall st,
    (forall u, In u us -> ~ In (iid u) (erased st)) -> NoDup (map iid us) ->
    (converted (fold_left turn us st) = true <->
     converted st = true /\ forall u, In u us -> In (iid u) (erased (fold_left turn us st))).
Proof.
  induction us as [| u us IH]; intros st Hus Hnd; cbn [fold_left].
  - split; [intros H; split; [exact H | intros u []] | intros [H _]; exact H].
  - inversion Hnd as [| ? ? Hfresh Hnd']; subst.
    assert (Hrest : forall u', In u' us -> ~ In (iid u') (erased (turn st u))).
    { intros u' Hin' Hc. apply turn_erased in Hc as [Hc | [Hc _]].
      - apply (Hus u' (or_intror Hin')). exact Hc.
      - apply Hfresh. rewrite <- Hc. now apply in_map. }
    rewrite (IH _ Hrest Hnd').
    destruct (turn_cases st u) as [[Eg E] | [Eg E]]; rewrite E in *;
      cbn [converted erased] in *.
    + split; intros [Hf Hall]; (split; [exact Hf |]).
      * intros u' [<- | Hin']; [| now apply Hall].
        apply uses_erased_sup. now left.
      * intros u' Hin'. apply Hall. now right.
    + split; [intros [Hf _]; discriminate |]. intros [_ Hall]. exfalso.
      specialize (Hall u (or_introl eq_refl)).
      apply uses_erased_sub in Hall as [Hc | (u' & H1 & H2 & _)].
      * apply (Hus u (or_introl eq_refl)). exact Hc.
      * apply Hfresh. rewrite <- H2. now apply in_map.
Qed.

Lemma uses_moves us :
  forall st v,
    renamed (fold_left turn us st) v <> v ->
    renamed st v <> v \/
    exists u, In u us /\ In (iid u) (erased (fold_left turn us st)) /\ v = VInst (iid u).
Proof.
  induction us as [| u us IH]; intros st v; cbn [fold_left]; [now left |].
  intros H. destruct (IH _ _ H) as [H1 | (u' & H1 & H2 & H3)].
  - destruct (turn_cases st u) as [[Eg E] | [Eg E]]; rewrite E in H1;
      cbn [renamed] in H1; [| now left].
    destruct (value_eq_dec (renamed st v) v) as [Hv | Hv]; [| now left].
    right. exists u. split; [now left |]. split.
    + apply uses_erased_sup. rewrite E. now left.
    + rewrite Hv in H1. unfold subst_value in H1.
      destruct (value_eqb v (VInst (iid u))) eqn:Ev; [| contradiction].
      now apply value_eqb_eq in Ev.
  - right. exists u'. split; [now right | auto].
Qed.

Lemma uses_stable us :
  forall st v,
    (forall u, In u us -> IsAExtractValueInst u = true -> renamed st v <> VInst (iid u)) ->
    renamed (fold_left turn us st) v = renamed st v.
Proof.
  induction us as [| u us IH]; intros st v Hv; cbn [fold_left]; [reflexivity |].
  assert (E1 : renamed (turn st u) v = renamed st v).
  { destruct (turn_cases st u) as [[Eg E] | [Eg E]]; rewrite E; cbn [renamed];
      [| reflexivity].
    unfold subst_value. destruct (value_eqb (renamed st v) (VInst (iid u))) eqn:Ev;
      [| reflexivity].
    apply value_eqb_eq in Ev. exfalso.
    apply (Hv u (or_introl eq_refl)); [| exact Ev].
    now apply gets_rewritten_extract in Eg. }
  rewrite IH; [exact E1 |]. intros u' Hin' He'. rewrite E1. apply Hv; [now right | exact He'].
Qed.

Lemma uses_same us :
  forall st v w,
    renamed st v = renamed st w ->
    renamed (fold_left turn us st) v = renamed (fold_left turn us st) w.
Proof.
  induction us as [| u us IH]; intros st v w H; cbn [fold_left]; [exact H |].
  apply IH. destruct (turn_cases st u) as [[Eg E] | [Eg E]]; rewrite E; cbn [renamed];
    now rewrite ?H.
Qed.

Lemma uses_range us :
  forall st v,
    renamed (fold_left turn us st) v = renamed st v \/
    renamed (fold_left turn us st) v = strptr \/
    renamed (fold_left turn us st) v = strlen.
Proof.
  induction us as [| u us IH]; intros st v; cbn [fold_left]; [now left |].
  destruct (IH (turn st u) v) as [H | H]; [| now right].
  rewrite H. destruct (turn_cases st u) as [[Eg E] | [Eg E]]; rewrite E; cbn [renamed];
    [| now left].
  unfold subst_value. destruct (value_eqb _ _); [| now left].
  right. unfold replacement. destruct (TypeKind (ity u)); auto.
Qed.

(** Each use at its turn: the module the loop has made of the uses before
    it, what the analysis says there, and what becomes of the use. *)
Lemma uses_turns us :
  forall st,
    (forall u, In u us -> In u (users m (VInst call)) /\ ~ In (iid u) (erased st)) ->
    NoDup (map iid us) -> rank_monotone rk (renamed st) ->
    forall u, In u us ->
      exists pre post mc flag ro,
        us = pre ++ u :: post /\
        for_each (s2b_use strptr strlen) (map iid pre) (s2b_module m st, converted st)
        = Done (mc, flag) /\
        isReadOnly mc (VInst (iid u)) = Some ro /\
        (In (iid u) (erased (fold_left turn us st)) <-> gets_rewritten mc u = true) /\
        (renamed st (VInst (iid u)) = VInst (iid u) ->
         In (iid u) (erased (fold_left turn us st)) ->
         renamed (fold_left turn us st) (VInst (iid u)) = replacement strptr strlen u).
Proof.
  induction us as [| u0 us IH]; intros st Hus Hnd Hs u Hin; [contradiction |].
  cbn [fold_left]. inversion Hnd as [| ? ? Hfresh Hnd']; subst.
  destruct (Hus u0 (or_introl eq_refl)) as [Hu0 Hout0].
  destruct (s2b_use_run st u0 Hs Hu0 Hout0) as [Estep Hs1].
  assert (Hrest : forall u', In u' us ->
                    In u' (users m (VInst call)) /\ ~ In (iid u') (erased (turn st u0))).
  { intros u' Hin'. destruct (Hus u' (or_intror Hin')) as [Ha Hb].
    split; [assumption |]. intros Hc. apply turn_erased in Hc as [Hc | [Hc _]].
    - contradiction.
    - apply Hfresh. rewrite <- Hc. now apply in_map. }
  destruct Hin as [<- | Hin].
  - assert (Hro : exists ro, isReadOnly (s2b_module m st) (VInst (iid u0)) = Some ro).
    { apply (isReadOnly_total _ rk). now apply gep_ranked_rewritten. }
    destruct Hro as [ro Hro].
    exists [], us, (s2b_module m st), (converted st), ro.
    split; [reflexivity |]. split; [reflexivity |]. split; [exact Hro |].
    destruct (turn_cases st u0) as [[Eg E] | [Eg E]].
    + split.
      * split; [intros _; exact Eg |]. intros _.
        apply uses_erased_sup. fold turn. rewrite E. now left.
      * intros Hfix _. rewrite uses_stable.
        -- fold turn. rewrite E. cbn [renamed]. rewrite Hfix. unfold subst_value.
           destruct (value_eqb (VInst (iid u0)) (VInst (iid u0))) eqn:Ev; [reflexivity |].
           apply value_eqb_neq in Ev. congruence.
        -- intros u' Hin' He'. fold turn. rewrite E. cbn [renamed]. rewrite Hfix.
           unfold subst_value.
           destruct (value_eqb (VInst (iid u0)) (VInst (iid u0))) eqn:Ev.
           ++ apply replacement_no_field; [apply (Hus u' (or_intror Hin')) | exact He'].
           ++ apply value_eqb_neq in Ev. congruence.
    + assert (Hnot : ~ In (iid u0) (erased (fold_left turn us (turn st u0)))).
      { intros Hc. apply uses_erased_sub in Hc as [Hc | (u' & H1 & H2 & _)].
        - fold turn in Hc. rewrite E in Hc. cbn [erased] in Hc. contradiction.
        - apply Hfresh. rewrite <- H2. now apply in_map. }
      split.
      * split; [intros Hc; contradiction | intros Hc; congruence].
      * intros _ Hc. contradiction.
  - destruct (IH (turn st u0) Hrest Hnd' Hs1 u Hin)
      as (pre & post & mc & flag & ro & Eus & Erun & Hro & Hiff & Hval).
    exists (u0 :: pre), post, mc, flag, ro.
    split; [cbn [app]; now rewrite Eus |].
    split; [cbn [map for_each]; rewrite Estep; cbn [bind]; exact Erun |].
    split; [exact Hro |]. split; [exact Hiff |].
    intros Hfix. apply Hval.
    destruct (turn_cases st u0) as [[Eg E] | [Eg E]]; fold turn; rewrite E;
      cbn [renamed]; [| exact Hfix].
    rewrite Hfix. unfold subst_value.
    destruct (value_eqb (VInst (iid u)) (VInst (iid u0))) eqn:Ev; [| reflexivity].
    apply value_eqb_eq in Ev. injection Ev as Ev. exfalso. apply Hfresh.
    rewrite <- Ev. now apply in_map.
Qed.
End StringToBytes.

Section RewrittenUsers.
Import IR Optimizer.

Lemma existsb_map_eq (v : value) (s : value -> value) (l : list value) :
  (forall x, s x = v <-> x = v) ->
  existsb (value_eqb v) (map s l) = existsb (value_eqb v) l.
Proof.
  intros Hs. induction l as [| x l IH]; cbn; [reflexivity |]. rewrite IH. f_equal.
  destruct (value_eqb v x) eqn:E.
  - apply value_eqb_eq in E. apply value_eqb_eq. symmetry. apply Hs. now symmetry.
  - apply value_eqb_neq in E. apply value_eqb_neq. intros H. apply E.
    symmetry. apply Hs. now symmetry.
Qed.

Lemma filter_map_uses (v : value) (s : value -> value) (l : list inst) :
  (forall x, s x = v <-> x = v) ->
  filter (uses_value v) (map (rewrite_inst s) l) =
  map (rewrite_inst s) (filter (uses_value v) l).
Proof.
  intros Hs. induction l as [| i l IH]; cbn [map filter]; [reflexivity |].
  replace (uses_value v (rewrite_inst s i)) with (uses_value v i)
    by (unfold uses_value; cbn [ioperands rewrite_inst]; now rewrite existsb_map_eq).
  destruct (uses_value v i); cbn [map]; now rewrite IH.
Qed.

(** The users of a value that the rewrite neither makes nor unmakes. *)
Lemma users_rewritten ids s m v :
  (forall x, s x = v <-> x = v) ->
  users (rewritten ids s m) v =
  map (rewrite_inst s) (filter (fun i => negb (mem_id ids i)) (users m v)).
Proof.
  intros Hs. unfold users. destruct v; try reflexivity;
    rewrite all_insts_rewritten, filter_map_uses by assumption; f_equal;
    rewrite !filter_twice; apply filter_ext; intros i; apply andb_comm.
Qed.

Lemma filter_keeps (p : inst -> bool) (l : list inst) :
  (forall x, In x l -> p x = true) -> filter p l = l.
Proof.
  induction l as [| x l IH]; intros H; cbn [filter]; [reflexivity |].
  rewrite (H x (or_introl eq_refl)). f_equal. apply IH. intros y Hy. apply H. now right.
Qed.

Lemma Operand_renamed s i n :
  s VNil = VNil -> Operand (rewrite_inst s i) n = s (Operand i n).
Proof.
  intros Hs. unfold Operand. cbn [ioperands rewrite_inst].
  rewrite <- Hs at 1. apply map_nth.
Qed.
End RewrittenUsers.

Section StringToBytesPass.
Import IR Optimizer.
Variable m : module.
Variable rk : nat -> nat.
Hypothesis Hwf : wf_module m = true.
Hypothesis Hrk : ssa_ranked m rk = true.
Hypothesis Htyped : strings_typed m = true.

Let calls := users m (NamedFunction m "runtime.stringToBytes").

Lemma calls_In c : In c calls -> In c (all_insts m).
Proof. intros H. apply (users_In m _ c H). Qed.

Lemma calls_typed c :
  In c calls ->
  IsACallInst c = true /\ extracts_typed m (iid c) = true /\
  forall k, In k calls -> ~ In (VInst (iid k)) (ioperands c).
Proof.
  intros Hc. unfold strings_typed in Htyped. fold calls in Htyped.
  apply andb_prop in Htyped as [H _]. rewrite forallb_forall in H.
  specialize (H c Hc). apply andb_prop in H as [H H3]. apply andb_prop in H as [H1 H2].
  split; [exact H1 |]. split; [exact H3 |]. intros k Hk Hin.
  rewrite forallb_forall in H2. specialize (H2 _ Hin). apply negb_true_iff in H2.
  assert (existsb (fun k0 => value_eqb (VInst (iid k)) (VInst (iid k0))) calls = true);
    [| congruence].
  apply existsb_exists. exists k. split; [exact Hk | now apply value_eqb_eq].
Qed.

Lemma extract_unary u :
  In u (all_insts m) -> IsAExtractValueInst u = true -> exists x, ioperands u = [x].
Proof.
  intros Hu He. unfold strings_typed in Htyped.
  apply andb_prop in Htyped as [_ H]. rewrite forallb_forall in H.
  specialize (H u Hu). rewrite He in H. cbn in H. apply Nat.eqb_eq in H.
  destruct (ioperands u) as [| x [| y l]]; try discriminate. now exists x.
Qed.

(** A field is taken out of one slice. *)
Lemma field_of_one u k k' :
  In u (users m (VInst k)) -> In u (users m (VInst k')) ->
  IsAExtractValueInst u = true -> k = k'.
Proof.
  intros H H' He. apply In_users in H as [Hu Hk]. apply In_users in H' as [_ Hk'].
  destruct (extract_unary u Hu He) as [x Hx]. rewrite Hx in *.
  destruct Hk as [Hk | []]. destruct Hk' as [Hk' | []]. congruence.
Qed.

Lemma call_not_extract c u :
  In c calls -> In u (all_insts m) -> IsAExtractValueInst u = true -> iid u <> iid c.
Proof.
  intros Hc Hu He Hid. pose proof (same_id m Hwf u c Hu (calls_In c Hc) Hid) as ->.
  destruct (calls_typed c Hc) as [Hcall _].
  unfold IsAExtractValueInst in He. unfold IsACallInst in Hcall.
  apply opcode_eqb_eq in He. apply opcode_eqb_eq in Hcall. congruence.
Qed.

Lemma call_not_user c k : In c calls -> In k calls -> ~ In c (users m (VInst (iid k))).
Proof.
  intros Hc Hk Hin. apply In_users in Hin as [_ Hop].
  now apply (proj2 (proj2 (calls_typed c Hc)) k Hk).
Qed.

Lemma calls_NoDup : NoDup (map iid calls).
Proof. apply (users_NoDup m _ Hwf). Qed.

Lemma call_below_operand c n j :
  In c calls -> Operand c n = VInst j -> (rk (iid c) < rk j)%nat.
Proof.
  intros Hc H. apply Operand_In in H.
  destruct (calls_typed c Hc) as [Hcall _]. apply opcode_eqb_eq in Hcall.
  destruct (ssa_ranked_inst m rk c Hrk (calls_In c Hc)) as [_ Hops].
  - intros t. rewrite Hcall. discriminate.
  - now apply Hops.
Qed.

(** The state of the pass after the calls [done]: only they and fields
    of their slices are erased, only erased fields are renamed, and none
    of them to a slice. *)
Let inv (done : list inst) (st : s2b_state) : Prop :=
  rank_monotone rk (renamed st) /\
  (forall id, In id (erased st) ->
     exists k, In k done /\
               (id = iid k \/
                exists u, In u (users m (VInst (iid k))) /\ iid u = id /\
                          IsAExtractValueInst u = true)) /\
  (forall v, renamed st v <> v ->
     exists k u, In k done /\ In u (users m (VInst (iid k))) /\
                 IsAExtractValueInst u = true /\ In (iid u) (erased st) /\
                 v = VInst (iid u)) /\
  (forall v k, In k calls -> renamed st v = VInst (iid k) -> v = VInst (iid k)).

Lemma call_live done st c :
  inv done st -> incl done calls -> In c calls -> ~ In c done ->
  ~ In (iid c) (erased st).
Proof.
  intros (_ & H1 & _) Hdone Hc Hnew Hin.
  destruct (H1 _ Hin) as (k & Hk & [Hid | (u & Hu & Hid & He)]).
  - pose proof (same_id m Hwf c k (calls_In c Hc) (calls_In k (Hdone k Hk)) Hid) as ->.
    contradiction.
  - apply In_users in Hu as [Hu _]. now apply (call_not_extract c u Hc Hu He).
Qed.

Lemma uses_live done st c u :
  inv done st -> incl done calls -> In c calls -> ~ In c done ->
  In u (users m (VInst (iid c))) -> ~ In (iid u) (erased st).
Proof.
  intros (_ & H1 & _) Hdone Hc Hnew Hu Hin.
  pose proof (In_users m u _ Hu) as [Hua _].
  destruct (H1 _ Hin) as (k & Hk & [Hid | (u' & Hu' & Hid & He)]).
  - pose proof (same_id m Hwf u k Hua (calls_In k (Hdone k Hk)) Hid) as ->.
    now apply (call_not_user k c (Hdone k Hk) Hc).
  - pose proof (In_users m u' _ Hu') as [Hu'a _].
    pose proof (same_id m Hwf u' u Hu'a Hua Hid) as ->.
    pose proof (field_of_one u _ _ Hu' Hu He) as Hid'.
    pose proof (same_id m Hwf k c (calls_In k (Hdone k Hk)) (calls_In c Hc) Hid') as ->.
    contradiction.
Qed.

Lemma call_fixed done st c :
  inv done st -> In c calls ->
  forall x, renamed st x = VInst (iid c) <-> x = VInst (iid c).
Proof.
  intros (_ & _ & H2 & H5) Hc x. split; [now apply H5 |]. intros ->.
  destruct (value_eq_dec (renamed st (VInst (iid c))) (VInst (iid c))) as [E | E];
    [exact E |].
  destruct (H2 _ E) as (k & u & _ & Hu & He & _ & Hv). injection Hv as Hv.
  apply In_users in Hu as [Hu _]. symmetry in Hv.
  now destruct (call_not_extract c u Hc Hu He).
Qed.

Lemma use_fixed done st c u :
  inv done st -> incl done calls -> In c calls -> ~ In c done ->
  In u (users m (VInst (iid c))) -> renamed st (VInst (iid u)) = VInst (iid u).
Proof.
  intros Hinv Hdone Hc Hnew Hu.
  destruct (value_eq_dec (renamed st (VInst (iid u))) (VInst (iid u))) as [E | E];
    [exact E |].
  destruct Hinv as (Hr & H1 & H2 & H5).
  destruct (H2 _ E) as (k & u' & _ & _ & _ & Hin & Hv). injection Hv as Hv.
  rewrite <- Hv in Hin.
  now destruct (uses_live done st c u (conj Hr (conj H1 (conj H2 H5))) Hdone Hc Hnew Hu).
Qed.

(** The uses of a call when the pass comes to it are its uses in [m]. *)
Lemma uses_at_turn done st c :
  inv done st -> incl done calls -> In c calls -> ~ In c done ->
  getUses (s2b_module m st) (VInst (iid c)) = getUses m (VInst (iid c)).
Proof.
  intros Hinv Hdone Hc Hnew. unfold getUses, s2b_module.
  rewrite users_rewritten by (apply (call_fixed done st c Hinv Hc)).
  rewrite map_map. cbn [iid rewrite_inst]. f_equal.
  apply filter_keeps.
  intros u Hu. apply negb_true_iff.
  destruct (mem_id (erased st) u) eqn:E; [| reflexivity].
  apply mem_id_In in E.
  now destruct (uses_live done st c u Hinv Hdone Hc Hnew Hu).
Qed.
Lemma operand_above st c n j :
  rank_monotone rk (renamed st) -> In c calls ->
  renamed st (Operand c n) = VInst j -> (rk (iid c) < rk j)%nat.
Proof.
  intros [Hfix Hmono] Hc E.
  destruct (Operand c n) as [| j0 | | | | |] eqn:Eo;
    try (rewrite Hfix in E by (intros; discriminate); discriminate).
  apply Hmono in E. pose proof (call_below_operand c n j0 Hc Eo). lia.
Qed.

Lemma operand_no_field st c n u :
  rank_monotone rk (renamed st) -> In c calls ->
  In u (users m (VInst (iid c))) -> IsAExtractValueInst u = true ->
  renamed st (Operand c n) <> VInst (iid u).
Proof.
  intros Hr Hc Hu He E. apply (operand_above st c n _ Hr Hc) in E.
  pose proof (extract_below_call m rk (iid c) Hrk u Hu He). lia.
Qed.

(** The state in which the loop over the uses of [c] starts and ends. *)
Let start (st : s2b_state) : s2b_state :=
  {| erased := erased st; renamed := renamed st; converted := true |}.

Let uses_of (st : s2b_state) (c : inst) : s2b_state :=
  fold_left (s2b_turn m (renamed st (Operand c 0)) (renamed st (Operand c 1)))
            (users m (VInst (iid c))) (start st).

Lemma one_cases st c :
  (converted (uses_of st c) = true /\
   s2b_one m st c = {| erased := iid c :: erased (uses_of st c);
                       renamed := renamed (uses_of st c); converted := true |}) \/
  (converted (uses_of st c) = false /\ s2b_one m st c = uses_of st c).
Proof.
  unfold s2b_one. fold (start st). fold (uses_of st c).
  destruct (converted (uses_of st c)); auto.
Qed.

Lemma one_renamed st c : renamed (s2b_one m st c) = renamed (uses_of st c).
Proof. destruct (one_cases st c) as [[_ ->] | [_ ->]]; reflexivity. Qed.

Lemma one_erased st c id :
  In id (erased (s2b_one m st c)) <-> (converted (uses_of st c) = true /\ id = iid c) \/
                                      In id (erased (uses_of st c)).
Proof.
  destruct (one_cases st c) as [[E ->] | [E ->]]; cbn [erased]; rewrite E.
  - split.
    + intros [<- | H]; [left; split; reflexivity | now right].
    + intros [[_ ->] | H]; [now left | now right].
  - split; [intros H; now right | intros [[H _] | H]; [discriminate | exact H]].
Qed.

Lemma one_erased_sub st c id :
  In id (erased (s2b_one m st c)) ->
  In id (erased st) \/ id = iid c \/
  exists u, In u (users m (VInst (iid c))) /\ iid u = id /\ IsAExtractValueInst u = true.
Proof.
  rewrite one_erased. intros [[_ ->] | H]; [auto |].
  apply uses_erased_sub in H as [H | H]; auto.
Qed.

Lemma one_erased_sup st c id : In id (erased st) -> In id (erased (s2b_one m st c)).
Proof.
  intros H. apply one_erased. right. unfold uses_of. now apply uses_erased_sup.
Qed.

Lemma one_same st c v w :
  renamed st v = renamed st w -> renamed (s2b_one m st c) v = renamed (s2b_one m st c) w.
Proof. intros H. rewrite one_renamed. unfold uses_of. now apply uses_same. Qed.

Lemma uses_ready done st c :
  inv done st -> incl done calls -> In c calls -> ~ In c done ->
  forall u, In u (users m (VInst (iid c))) ->
            In u (users m (VInst (iid c))) /\ ~ In (iid u) (erased (start st)).
Proof.
  intros Hinv Hdone Hc Hnew u Hu. split; [exact Hu |].
  now apply (uses_live done st c u).
Qed.

Lemma call_not_field done st c :
  inv done st -> incl done calls -> In c calls -> ~ In c done ->
  ~ In (iid c) (erased (uses_of st c)).
Proof.
  intros Hinv Hdone Hc Hnew Hin. unfold uses_of in Hin.
  apply uses_erased_sub in Hin as [Hin | (u & Hu & Hid & He)].
  - now apply (call_live done st c).
  - apply In_users in Hu as [Hu _]. now apply (call_not_extract c u Hc Hu He).
Qed.

(** One call, from a module in the middle of the pass. *)
Lemma s2b_call_run done st c :
  inv done st -> incl done calls -> In c calls -> ~ In c done ->
  s2b_call (s2b_module m st) (iid c) = Done (s2b_module m (s2b_one m st c)) /\
  inv (done ++ [c]) (s2b_one m st c).
Proof.
  intros Hinv Hdone Hc Hnew.
  pose proof Hinv as (Hr & H1 & H2 & H5).
  destruct (calls_typed c Hc) as (Hcall & Hty & Hops).
  pose proof (call_live done st c Hinv Hdone Hc Hnew) as Hlive.
  destruct (s2b_uses_run m rk (iid c) (renamed st (Operand c 0))
              (renamed st (Operand c 1)) Hwf Hrk Hty
              (fun j => operand_above st c 0 j Hr Hc)
              (fun j => operand_above st c 1 j Hr Hc)
              (users m (VInst (iid c))) (start st)
              (uses_ready done st c Hinv Hdone Hc Hnew)
              (users_NoDup m _ Hwf) Hr) as [Erun Hr1].
  fold (uses_of st c) in Erun, Hr1.
  pose proof (call_not_field done st c Hinv Hdone Hc Hnew) as Hnf.
  split.
  - unfold s2b_call, live. unfold s2b_module at 1.
    rewrite (getInst_rewritten_out _ _ m c Hwf (calls_In c Hc) Hlive). cbn [bind].
    rewrite !Operand_renamed by (apply (proj1 Hr); intros; discriminate).
    rewrite (uses_at_turn done st c Hinv Hdone Hc Hnew). unfold getUses.
    change (s2b_module m st, true) with (s2b_module m (start st), converted (start st)).
    rewrite Erun. cbn [bind].
    destruct (one_cases st c) as [[E ->] | [E ->]]; rewrite E; [| reflexivity].
    unfold EraseFromParentAsInstruction, s2b_module.
    rewrite (getInst_rewritten_out _ _ m c Hwf (calls_In c Hc) Hnf).
    now rewrite remove_inst_rewritten.
  - unfold inv. rewrite one_renamed. split; [exact Hr1 |]. split; [| split].
    + intros id Hid. apply one_erased_sub in Hid as [Hid | [-> | (u & Hu & Hid & He)]].
      * destruct (H1 _ Hid) as (k & Hk & Hrest). exists k.
        split; [apply in_or_app; now left | exact Hrest].
      * exists c. split; [apply in_or_app; right; now left | now left].
      * exists c. split; [apply in_or_app; right; now left |]. right. now exists u.
    + intros v Hv. unfold uses_of in Hv. apply uses_moves in Hv as [Hv | (u & Hu & Hin & ->)].
      * destruct (H2 _ Hv) as (k & u & Hk & Hu & He & Hin & ->). exists k, u.
        split; [apply in_or_app; now left |]. split; [exact Hu |]. split; [exact He |].
        split; [now apply one_erased_sup | reflexivity].
      * exists c, u. split; [apply in_or_app; right; now left |]. split; [exact Hu |].
        fold (uses_of st c) in Hin. split; [| split; [| reflexivity]].
        -- unfold uses_of in Hin. apply uses_erased_sub in Hin as [Hin | (u' & Hu' & Hid & He)].
           ++ now destruct (uses_live done st c u Hinv Hdone Hc Hnew Hu).
           ++ pose proof (In_users m u _ Hu) as [Hua _].
              pose proof (In_users m u' _ Hu') as [Hu'a _].
              now rewrite <- (same_id m Hwf u' u Hu'a Hua Hid).
        -- apply one_erased. now right.
    + intros v k Hk E. unfold uses_of in E.
      destruct (uses_range m (renamed st (Operand c 0)) (renamed st (Operand c 1))
                           (users m (VInst (iid c))) (start st) v) as [Hv | [Hv | Hv]];
        rewrite Hv in E.
      * now apply H5.
      * exfalso. apply H5 in E; [| exact Hk]. apply Operand_In in E. now apply (Hops k).
      * exfalso. apply H5 in E; [| exact Hk]. apply Operand_In in E. now apply (Hops k).
Qed.

(** What the pass has made of the call [c] and of its uses when it is in
    the state [st]. *)
Let settled (c : inst) (st : s2b_state) : Prop :=
  (forall u, In u (users m (VInst (iid c))) ->
     exists mc ro,
       reaches m (iid c) (iid u) mc /\
       isReadOnly mc (VInst (iid u)) = Some ro /\
       (In (iid u) (erased st) <-> gets_rewritten mc u = true) /\
       (In (iid u) (erased st) ->
        renamed st (VInst (iid u)) =
        renamed st (replacement (Operand c 0) (Operand c 1) u))) /\
  (In (iid c) (erased st) <->
   forall u, In u (users m (VInst (iid c))) -> In (iid u) (erased st)).

Lemma split_fresh (done cs : list inst) (c : inst) :
  calls = done ++ c :: cs ->
  incl done calls /\ In c calls /\ incl cs calls /\ ~ In c done /\ ~ In c cs.
Proof.
  intros E. pose proof calls_NoDup as Hnd. rewrite E in *.
  rewrite map_app in Hnd. cbn [map] in Hnd.
  split; [intros x Hx; apply in_or_app; now left |].
  split; [apply in_or_app; right; now left |].
  split; [intros x Hx; apply in_or_app; right; now right |].
  apply NoDup_remove_2 in Hnd. split; intros H; apply Hnd; apply in_or_app;
    [left | right]; now apply in_map.
Qed.

Lemma use_not_call c u :
  In c calls -> In u (users m (VInst (iid c))) -> iid u <> iid c.
Proof.
  intros Hc Hu Hid. pose proof (In_users m u _ Hu) as [Hua _].
  pose proof (same_id m Hwf u c Hua (calls_In c Hc) Hid) as ->.
  now apply (call_not_user c c Hc Hc).
Qed.

Lemma one_settles done rest st c :
  calls = done ++ c :: rest -> inv done st ->
  for_each s2b_call (map iid done) m = Done (s2b_module m st) ->
  settled c (s2b_one m st c).
Proof.
  intros Ecalls Hinv Hhere.
  destruct (split_fresh done rest c Ecalls) as (Hdone & Hc & _ & Hnew & _).
  pose proof Hinv as (Hr & H1 & H2 & H5).
  destruct (calls_typed c Hc) as (Hcall & Hty & Hops).
  pose proof (call_live done st c Hinv Hdone Hc Hnew) as Hlive.
  assert (Hnil : renamed st VNil = VNil) by (apply (proj1 Hr); intros; discriminate).
  split.
  - intros u Hu.
    destruct (uses_turns m rk (iid c) (renamed st (Operand c 0))
                (renamed st (Operand c 1)) Hwf Hrk Hty
                (fun j => operand_above st c 0 j Hr Hc)
                (fun j => operand_above st c 1 j Hr Hc)
                (users m (VInst (iid c))) (start st)
                (uses_ready done st c Hinv Hdone Hc Hnew)
                (users_NoDup m _ Hwf) Hr u Hu)
      as (pre & post & mc & flag & ro & Eus & Erun & Hro & Hiff & Hval).
    fold (uses_of st c) in Hiff, Hval.
    exists mc, ro. split; [| split; [exact Hro | split]].
    + exists (map iid done), (map iid rest), (s2b_module m st),
             (rewrite_inst (renamed st) c), (map iid pre), (map iid post), flag.
      split; [unfold getUses; fold calls; rewrite Ecalls; now rewrite map_app |].
      split; [exact Hhere |].
      split; [apply (getInst_rewritten_out _ _ m c Hwf (calls_In c Hc) Hlive) |].
      split.
      * rewrite (uses_at_turn done st c Hinv Hdone Hc Hnew). unfold getUses.
        rewrite Eus. now rewrite map_app.
      * rewrite !Operand_renamed by exact Hnil. exact Erun.
    + rewrite one_erased, <- Hiff. split; [| intros H; now right].
      intros [[_ Hid] | H]; [| exact H]. now destruct (use_not_call c u Hc Hu).
    + rewrite one_erased, one_renamed. intros Hin.
      assert (Hin' : In (iid u) (erased (uses_of st c))).
      { destruct Hin as [[_ Hid] | H]; [| exact H]. now destruct (use_not_call c u Hc Hu). }
      rewrite (Hval (use_fixed done st c u Hinv Hdone Hc Hnew Hu) Hin').
      assert (Hop : forall n, renamed (uses_of st c) (Operand c n) = renamed st (Operand c n)).
      { intros n. unfold uses_of. rewrite uses_stable; [reflexivity |].
        intros u' Hu' He'. now apply operand_no_field. }
      unfold replacement. destruct (TypeKind (ity u)); now rewrite Hop.
  - pose proof (uses_converted m (renamed st (Operand c 0)) (renamed st (Operand c 1))
                  (users m (VInst (iid c))) (start st)
                  (fun u Hu => uses_live done st c u Hinv Hdone Hc Hnew Hu)
                  (users_NoDup m _ Hwf)) as Hconv.
    fold (uses_of st c) in Hconv. cbn [converted start] in Hconv.
    rewrite one_erased. split.
    + intros [[E _] | Hin].
      * intros u Hu. apply one_erased. right. now apply Hconv.
      * now destruct (call_not_field done st c Hinv Hdone Hc Hnew).
    + intros Hall. left. split; [| reflexivity]. apply Hconv. split; [reflexivity |].
      intros u Hu. specialize (Hall u Hu). apply one_erased in Hall as [[_ Hid] | H];
        [| exact H].
      now destruct (use_not_call c u Hc Hu).
Qed.

(** The calls that come later leave a call and its uses as they are. *)
Lemma settled_kept c cs st st' :
  In c calls -> incl cs calls -> ~ In c cs ->
  (forall id, In id (erased st) -> In id (erased st')) ->
  (forall id, In id (erased st') ->
     In id (erased st) \/
     exists k, In k cs /\
               (id = iid k \/
                exists u, In u (users m (VInst (iid k))) /\ iid u = id /\
                          IsAExtractValueInst u = true)) ->
  (forall v w, renamed st v = renamed st w -> renamed st' v = renamed st' w) ->
  settled c st -> settled c st'.
Proof.
  intros Hc Hcs Hnew Hsup Hsub Hsame [Huses Hcall].
  assert (Huse : forall u, In u (users m (VInst (iid c))) ->
                           (In (iid u) (erased st') <-> In (iid u) (erased st))).
  { intros u Hu. split; [| apply Hsup]. intros Hin.
    pose proof (In_users m u _ Hu) as [Hua _].
    destruct (Hsub _ Hin) as [H | (k & Hk & [Hid | (u' & Hu' & Hid & He)])]; [exact H | |].
    - pose proof (same_id m Hwf u k Hua (calls_In k (Hcs k Hk)) Hid) as ->.
      now destruct (call_not_user k c (Hcs k Hk) Hc).
    - pose proof (In_users m u' _ Hu') as [Hu'a _].
      pose proof (same_id m Hwf u' u Hu'a Hua Hid) as ->.
      pose proof (field_of_one u _ _ Hu' Hu He) as Hid'.
      pose proof (same_id m Hwf k c (calls_In k (Hcs k Hk)) (calls_In c Hc) Hid') as ->.
      contradiction. }
  split.
  - intros u Hu. destruct (Huses u Hu) as (mc & ro & Hreach & Hro & Hiff & Hval).
    exists mc, ro. split; [exact Hreach |]. split; [exact Hro |].
    rewrite (Huse u Hu). split; [exact Hiff |]. intros Hin. apply Hsame. now apply Hval.
  - assert (Hself : In (iid c) (erased st') <-> In (iid c) (erased st)).
    { split; [| apply Hsup]. intros Hin.
      destruct (Hsub _ Hin) as [H | (k & Hk & [Hid | (u' & Hu' & Hid & He)])]; [exact H | |].
      - pose proof (same_id m Hwf c k (calls_In c Hc) (calls_In k (Hcs k Hk)) Hid) as ->.
        contradiction.
      - apply In_users in Hu' as [Hu' _]. now destruct (call_not_extract c u' Hc Hu' He). }
    rewrite Hself, Hcall. split; intros H u Hu; apply (Huse u Hu); now apply H.
Qed.

(** The loop over the calls. *)
Lemma s2b_calls_run cs :
  forall done st,
    calls = done ++ cs -> inv done st ->
    for_each s2b_call (map iid done) m = Done (s2b_module m st) ->
    exists st',
      for_each s2b_call (map iid cs) (s2b_module m st) = Done (s2b_module m st') /\
      inv calls st' /\
      (forall id, In id (erased st) -> In id (erased st')) /\
      (forall id, In id (erased st') ->
         In id (erased st) \/
         exists k, In k cs /\
                   (id = iid k \/
                    exists u, In u (users m (VInst (iid k))) /\ iid u = id /\
                              IsAExtractValueInst u = true)) /\
      (forall v w, renamed st v = renamed st w -> renamed st' v = renamed st' w) /\
      (forall c, In c cs -> settled c st').
Proof.
  induction cs as [| c cs IH]; intros done st Ecalls Hinv Hhere.
  - exists st. rewrite app_nil_r in Ecalls. subst done.
    split; [reflexivity |]. split; [exact Hinv |]. split; [auto |].
    split; [intros id H; now left |]. split; [auto |]. intros c [].
  - destruct (split_fresh done cs c Ecalls) as (Hdone & Hc & Hcs & Hnew & Hlater).
    destruct (s2b_call_run done st c Hinv Hdone Hc Hnew) as [Estep Hinv1].
    pose proof (one_settles done cs st c Ecalls Hinv Hhere) as Hset1.
    destruct (IH (done ++ [c]) (s2b_one m st c)) as (st' & Erun & Hinv' & Hsup & Hsub & Hsame & Hset).
    + rewrite <- app_assoc. exact Ecalls.
    + exact Hinv1.
    + rewrite map_app, for_each_app, Hhere. cbn [bind map for_each]. rewrite Estep.
      reflexivity.
    + exists st'. split; [cbn [map for_each]; rewrite Estep; exact Erun |].
      split; [exact Hinv' |]. split; [| split; [| split]].
      * intros id Hid. apply Hsup. now apply one_erased_sup.
      * intros id Hid. destruct (Hsub _ Hid) as [H | (k & Hk & Hrest)].
        -- apply one_erased_sub in H as [H | [-> | Hu]]; [now left | |].
           ++ right. exists c. split; [now left | now left].
           ++ right. exists c. split; [now left | now right].
        -- right. exists k. split; [now right | exact Hrest].
      * intros v w H. apply Hsame. now apply one_same.
      * intros c' [<- | Hin]; [| now apply Hset].
        apply (settled_kept c cs (s2b_one m st c) st'); assumption.
Qed.

Lemma gets_rewritten_iff mc u ro :
  isReadOnly mc (VInst (iid u)) = Some ro ->
  (gets_rewritten mc u = true <->
   IsAExtractValueInst u = true /\
   (TypeKind (ity u) = IntegerTypeKind \/
    TypeKind (ity u) = PointerTypeKind /\ ro = true)).
Proof.
  intros Hro. unfold gets_rewritten. rewrite Hro.
  destruct (IsAExtractValueInst u); cbn [andb];
    [| split; [discriminate | intros [H _]; discriminate]].
  destruct (TypeKind (ity u)); destruct ro; split; try discriminate; auto;
    try (intros [_ [H | [H H']]]; discriminate).
Qed.

(** C4: on a well-formed module in SSA order, typed as [stringToBytes]
    and [extractvalue] are, [OptimizeStringToBytes] returns, and what it
    returns is the module it got with the instructions [ids] erased and
    the operands of the others renamed by [s], where, for every use [c]
    of [stringToBytes] and every use [u] of [c]:
    - the pass comes to [u] with the module as some [mc], and [isReadOnly]
      has an answer [ro] for [u] there;
    - [u] is erased exactly when it is an [extractvalue] of integer type,
      or one of pointer type with [ro] true; any other use stays;
    - where an erased field of integer type was an operand there now is
      what [strlen], the second operand of [c], has become, and where one
      of pointer type was, what [strptr], the first operand, has become;
    - [c] is erased exactly when every use of it is;
    - nothing else is erased, and no operand is renamed but the erased
      fields: an erased instruction is gone from the module, and every
      other one is found under its handle, with its operands renamed.
    What [strlen] and [strptr] have become is themselves but where they
    are erased fields of a call that came before. *)
Theorem OptimizeStringToBytes_rewrites_calls :
  exists ids s,
    OptimizeStringToBytes m = Done (rewritten ids s m) /\
    (forall c u,
        In c (users m (NamedFunction m "runtime.stringToBytes")) ->
        In u (users m (VInst (iid c))) ->
        exists mc ro,
          reaches m (iid c) (iid u) mc /\
          isReadOnly mc (VInst (iid u)) = Some ro /\
          (In (iid u) ids <->
           IsAExtractValueInst u = true /\
           (TypeKind (ity u) = IntegerTypeKind \/
            TypeKind (ity u) = PointerTypeKind /\ ro = true)) /\
          (In (iid u) ids -> TypeKind (ity u) = IntegerTypeKind ->
           s (VInst (iid u)) = s (Operand c 1)) /\
          (In (iid u) ids -> TypeKind (ity u) = PointerTypeKind ->
           s (VInst (iid u)) = s (Operand c 0))) /\
    (forall c, In c (users m (NamedFunction m "runtime.stringToBytes")) ->
               (In (iid c) ids <->
                forall u, In u (users m (VInst (iid c))) -> In (iid u) ids)) /\
    (forall id, In id ids ->
                exists c, In c (users m (NamedFunction m "runtime.stringToBytes")) /\
                          (id = iid c \/
                           exists u, In u (users m (VInst (iid c))) /\ iid u = id)) /\
    (forall v, (forall c u, In c (users m (NamedFunction m "runtime.stringToBytes")) ->
                            In u (users m (VInst (iid c))) -> In (iid u) ids ->
                            v <> VInst (iid u)) ->
               s v = v) /\
    (forall id, In id ids -> getInst (rewritten ids s m) id = None) /\
    (forall i, In i (all_insts m) -> ~ In (iid i) ids ->
               getInst (rewritten ids s m) (iid i) =
               Some {| iid := iid i; iop := iop i; ioperands := map s (ioperands i);
                       ity := ity i |}).
Proof.
  fold calls.
  destruct (s2b_calls_run calls [] {| erased := []; renamed := fun v => v;
                                      converted := true |})
    as (st & Erun & Hinv & _ & _ & _ & Hset).
  - reflexivity.
  - split; [apply rank_monotone_id |]. split; [intros id [] |].
    split; [intros v H; now destruct H | intros v k _ H; exact H].
  - unfold s2b_module. cbn [map for_each erased renamed]. now rewrite rewritten_start.
  - unfold s2b_module in Erun. cbn [erased renamed] in Erun.
    rewrite rewritten_start in Erun. destruct Hinv as (Hr & H1 & H2 & H5).
    exists (erased st), (renamed st).
    split; [| split; [| split; [| split; [| split; [| split]]]]].
    + unfold OptimizeStringToBytes. fold calls.
      destruct (IsNil (NamedFunction m "runtime.stringToBytes")) eqn:En.
      * unfold getUses in Erun. fold calls in Erun.
        assert (E : calls = []).
        { unfold calls. destruct (NamedFunction m "runtime.stringToBytes");
            try discriminate. reflexivity. }
        rewrite E in Erun. cbn [map for_each] in Erun. exact Erun.
      * exact Erun.
    + intros c u Hc Hu. destruct (Hset c Hc) as [Huses _].
      destruct (Huses u Hu) as (mc & ro & Hreach & Hro & Hiff & Hval).
      exists mc, ro. split; [exact Hreach |]. split; [exact Hro |].
      split; [rewrite Hiff; now apply gets_rewritten_iff |].
      unfold replacement in Hval.
      split; intros Hin Hk; rewrite (Hval Hin), Hk; reflexivity.
    + intros c Hc. now destruct (Hset c Hc) as [_ Hcall].
    + intros id Hid. destruct (H1 _ Hid) as (k & Hk & [-> | (u & Hu & <- & _)]).
      * exists k. split; [exact Hk | now left].
      * exists k. split; [exact Hk |]. right. now exists u.
    + intros v Hv.
      destruct (value_eq_dec (renamed st v) v) as [E | E]; [exact E |].
      destruct (H2 _ E) as (k & u & Hk & Hu & _ & Hin & ->).
      now destruct (Hv k u Hk Hu Hin).
    + intros id Hid. now apply getInst_rewritten_in.
    + intros i Hi Hout. now apply getInst_rewritten_out.
Qed.
End StringToBytesPass.

Section StringToBytesExample.
Import IR Optimizer Examples.

Lemma OptimizeStringToBytes_rewrites_calls_witness :
  exists ids s,
    OptimizeStringToBytes two_slices = Done (rewritten ids s two_slices) /\
    (forall c u,
        In c (users two_slices (NamedFunction two_slices "runtime.stringToBytes")) ->
        In u (users two_slices (VInst (iid c))) ->
        exists mc ro,
          reaches two_slices (iid c) (iid u) mc /\
          isReadOnly mc (VInst (iid u)) = Some ro /\
          (In (iid u) ids <->
           IsAExtractValueInst u = true /\
           (TypeKind (ity u) = IntegerTypeKind \/
            TypeKind (ity u) = PointerTypeKind /\ ro = true)) /\
          (In (iid u) ids -> TypeKind (ity u) = IntegerTypeKind ->
           s (VInst (iid u)) = s (Operand c 1)) /\
          (In (iid u) ids -> TypeKind (ity u) = PointerTypeKind ->
           s (VInst (iid u)) = s (Operand c 0))) /\
    (forall c, In c (users two_slices (NamedFunction two_slices "runtime.stringToBytes")) ->
               (In (iid c) ids <->
                forall u, In u (users two_slices (VInst (iid c))) -> In (iid u) ids)) /\
    (forall id, In id ids ->
                exists c,
                  In c (users two_slices (NamedFunction two_slices "runtime.stringToBytes")) /\
                  (id = iid c \/
                   exists u, In u (users two_slices (VInst (iid c))) /\ iid u = id)) /\
    (forall v, (forall c u,
                   In c (users two_slices (NamedFunction two_slices "runtime.stringToBytes")) ->
                   In u (users two_slices (VInst (iid c))) -> In (iid u) ids ->
                   v <> VInst (iid u)) ->
               s v = v) /\
    (forall id, In id ids -> getInst (rewritten ids s two_slices) id = None) /\
    (forall i, In i (all_insts two_slices) -> ~ In (iid i) ids ->
               getInst (rewritten ids s two_slices) (iid i) =
               Some {| iid := iid i; iop := iop i; ioperands := map s (ioperands i);
                       ity := ity i |}).
Proof.
  apply (OptimizeStringToBytes_rewrites_calls two_slices (program_order two_slices));
    reflexivity.
Defined.

(** The two slices of [two_slices]: the fields of the first are replaced
    with the pointer and the length of the string and the call goes; of
    the second, the length is replaced, and the pointer and the call
    stay, for [scribble] may write through the pointer. *)
Example OptimizeStringToBytes_two_slices :
  OptimizeStringToBytes two_slices =
  Done {| mfuncs :=
            [declare "runtime.stringToBytes" [[]; []];
             declare "reader" [["readonly"%string]; []];
             declare "scribble" [[]; []];
             {| fname := "main"; fparams := [];
                fblocks :=
                  [[mk 4 Call [VConstOther 0; VConstInt 2; VFunc "reader"] TVoid;
                    mk 5 Call [VConstOther 1; VConstInt 3; VFunc "runtime.stringToBytes"]
                       (TOther 1);
                    mk 6 ExtractValue [VInst 5] i8ptr;
                    mk 8 Call [VInst 6; VConstInt 3; VFunc "scribble"] TVoid;
                    mk 9 (OtherOp 1) [] TVoid]] |}];
          mnext := 10 |}.
Proof. reflexivity. Qed.
(** [writer([]byte("hi"))]: [writer] only reads its slice, so the three
    fields are replaced with the pointer and the length of the string,
    and the call of [stringToBytes] goes. *)
Example OptimizeStringToBytes_bytes_of_constant :
  OptimizeStringToBytes bytes_of_constant =
  Done {| mfuncs :=
            [declare "runtime.stringToBytes" [[]; []];
             declare "writer" [["readonly"%string]; []; []];
             {| fname := "main"; fparams := [];
                fblocks :=
                  [[mk 5 Call [VConstOther 0; VConstInt 2; VConstInt 2; VFunc "writer"]
                       TVoid;
                    mk 6 (OtherOp 1) [] TVoid]] |}];
          mnext := 7 |}.
Proof. reflexivity. Qed.
End StringToBytesExample.

(** ** OptimizeAllocs *)

Section AllocFacts.
Import IR Optimizer.
Local Open Scope Z_scope.
Variable alignment : Z.

Lemma alloc_body_not_constant m heapalloc h :
  getInst m heapalloc = Some h -> IsAConstant (Operand h 0) = false ->
  alloc_body alignment m heapalloc = Done m.
Proof.
  intros Hh Hc. unfold alloc_body, live. rewrite Hh. cbn [bind]. now rewrite Hc.
Qed.

Lemma alloc_body_too_large m heapalloc h n :
  getInst m heapalloc = Some h -> Operand h 0 = VConstInt n ->
  256 < n < 2 ^ 64 ->
  alloc_body alignment m heapalloc = Done m.
Proof.
  intros Hh Hop Hn. unfold alloc_body, live. rewrite Hh. cbn [bind]. rewrite Hop.
  cbn [IsAConstant negb ZExtValue bind]. rewrite Z.mod_small by lia.
  replace (256 <? n) with true by (symmetry; apply Z.ltb_lt; lia). reflexivity.
Qed.

Lemma alloc_body_not_integer m heapalloc h :
  getInst m heapalloc = Some h -> IsAConstant (Operand h 0) = true ->
  (forall n, Operand h 0 <> VConstInt n) ->
  alloc_body alignment m heapalloc = Undefined.
Proof.
  intros Hh Hc Hn. unfold alloc_body, live. rewrite Hh. cbn [bind]. rewrite Hc.
  cbn [negb]. destruct (Operand h 0); try reflexivity. now specialize (Hn n).
Qed.

(** X13: The number of words covers the size: it is the ceiling of
    [size / alignment]. *)
Lemma sizeInWords_ceiling size :
  0 < alignment -> 0 <= size ->
  alignment * (sizeInWords alignment size - 1) < size <= alignment * sizeInWords alignment size.
Proof.
  intros Ha Hs. unfold sizeInWords.
  pose proof (Z.div_mod (size + alignment - 1) alignment ltac:(lia)).
  pose proof (Z.mod_pos_bound (size + alignment - 1) alignment Ha). nia.
Qed.
End AllocFacts.

Section PlaceFacts.
Import IR Optimizer.

Lemma place_before_app pos new a b :
  place_before pos new (a ++ b) = place_before pos new a ++ place_before pos new b.
Proof. unfold place_before. apply flat_map_app. Qed.

Lemma all_insts_distr (g : list inst -> list inst) m :
  g [] = [] -> (forall a b, g (a ++ b) = g a ++ g b) ->
  all_insts (map_blocks g m) = g (all_insts m).
Proof.
  intros Hnil Happ. unfold all_insts, map_blocks. cbn [mfuncs].
  induction (mfuncs m) as [| f fs IH]; cbn [map flat_map]; [now rewrite Hnil |].
  rewrite Happ, IH. f_equal. unfold func_insts. cbn [fblocks].
  induction (fblocks f) as [| b bs IHb]; cbn [map List.concat]; [now rewrite Hnil |].
  now rewrite Happ, IHb.
Qed.

Lemma all_insts_place_before pos new m :
  all_insts (map_blocks (place_before pos new) m) = place_before pos new (all_insts m).
Proof.
  apply all_insts_distr; [reflexivity | intros; apply place_before_app].
Qed.

Lemma In_place_before pos new l x :
  In x (place_before pos new l) <->
  In x l \/ (x = new /\ exists i, In i l /\ iid i = pos).
Proof.
  unfold place_before. rewrite in_flat_map. split.
  - intros (i & Hi & Hx). unfold has_id in Hx.
    destruct (Nat.eqb (iid i) pos) eqn:E.
    + apply Nat.eqb_eq in E. destruct Hx as [<- | [<- | []]].
      * right. split; [reflexivity |]. now exists i.
      * now left.
    + destruct Hx as [<- | []]. now left.
  - intros [Hx | (-> & i & Hi & Hid)].
    + exists x. split; [assumption |]. destruct (has_id pos x); cbn; auto.
    + exists i. split; [assumption |]. unfold has_id. rewrite Hid, Nat.eqb_refl.
      now left.
Qed.

Lemma getInst_present m id :
  (exists i, In i (all_insts m) /\ iid i = id) -> exists w, getInst m id = Some w.
Proof.
  intros (i & Hi & Hid). unfold getInst.
  destruct (find (has_id id) (all_insts m)) as [w |] eqn:E; [now exists w |].
  pose proof (find_none _ _ E i Hi) as H. unfold has_id in H.
  rewrite Hid, Nat.eqb_refl in H. discriminate.
Qed.

Lemma create_before_form m pos op operands t :
  (exists i, In i (all_insts m) /\ iid i = pos) ->
  create_before m pos op operands t =
  Done ({| mfuncs :=
             mfuncs (map_blocks
                       (place_before pos {| iid := mnext m; iop := op;
                                            ioperands := operands; ity := t |}) m);
           mnext := S (mnext m) |}, VInst (mnext m)).
Proof.
  intros H. unfold create_before. now destruct (getInst_present m pos H) as [w ->].
Qed.

Lemma erase_form m id :
  (exists i, In i (all_insts m) /\ iid i = id) ->
  EraseFromParentAsInstruction m id = Done (remove_inst id m).
Proof.
  intros H. unfold EraseFromParentAsInstruction.
  now destruct (getInst_present m id H) as [w ->].
Qed.

Lemma entry_of_map_blocks g m name params entry :
  entry_of m name params entry -> entry_of (map_blocks g m) name params (g entry).
Proof.
  intros (fs1 & f & fs2 & blocks & Hm & Hn & Hp & Hb).
  unfold entry_of, map_blocks. cbn. rewrite Hm, map_app. cbn.
  do 4 eexists. split; [reflexivity |]. cbn. rewrite Hb. cbn. auto.
Qed.

Lemma parent_func_entry m id fn first :
  parent_func m id = Some fn -> entry_first fn = Some first ->
  exists i rest,
    entry_of m (fname fn) (fparams fn) (i :: rest) /\ iid i = first /\
    In i (all_insts m).
Proof.
  unfold parent_func, entry_first. intros Hf He. apply find_some in Hf as [Hin _].
  destruct (fblocks fn) as [| [| i rest] blocks] eqn:Eb; try discriminate.
  injection He as <-. exists i, rest. split; [| split; [reflexivity |]].
  - apply in_split in Hin as (fs1 & fs2 & Hm). exists fs1, fn, fs2, blocks. auto.
  - unfold all_insts. apply in_flat_map. exists fn. split; [assumption |].
    unfold func_insts. rewrite Eb. cbn. now left.
Qed.

Lemma all_insts_subst old new m :
  all_insts (ReplaceAllUsesWith m old new) = map (subst_inst old new) (all_insts m).
Proof. apply all_insts_map. Qed.

Lemma all_insts_remove_inst id m :
  all_insts (remove_inst id m) = filter (fun i => negb (has_id id i)) (all_insts m).
Proof. apply all_insts_filter. Qed.
End PlaceFacts.

Section Promotion.
Import IR Optimizer.
Local Open Scope Z_scope.
Variable alignment : Z.
Variable m : module.
Variable heapalloc : nat.
Variable h : inst.
Variable n : Z.
Variable fn : func.
Variable first : nat.
Hypothesis Hwf : wf_module m = true.
Hypothesis Hh : getInst m heapalloc = Some h.
Hypothesis Hop : Operand h 0 = VConstInt n.
Hypothesis Hn : 0 <= n <= 256.
Hypothesis Hesc : doesEscape m (VInst (iid (effective_value m h))) = Some false.
Hypothesis Hfn : parent_func m (iid (effective_value m h)) = Some fn.
Hypothesis Hfirst : entry_first fn = Some first.

Let b := effective_value m h.
Let k := mnext m.
Let A := alloca_inst alignment n k.
Let St := zero_store_inst alignment n k.
Let C := stackalloc_inst (ity b) k.
Let sub := subst_inst (VInst (iid b)) (VInst (S (S k))).

Lemma effective_value_In : In b (all_insts m).
Proof.
  unfold b, effective_value. apply getInst_In in Hh as [Hin _].
  destruct (users m (VInst (iid h))) as [| u [| u' us]] eqn:E; auto.
  destruct (IsABitCastInst u); auto.
  apply (users_In m (VInst (iid h)) u). rewrite E. now left.
Qed.

Lemma ids_below :
  (iid b < k)%nat /\ (heapalloc < k)%nat /\ (first < k)%nat.
Proof.
  pose proof effective_value_In as Hb.
  destruct (parent_func_entry m _ fn first Hfn Hfirst) as (i & rest & _ & Hid & Hi).
  pose proof (getInst_In m heapalloc h Hh) as [Hhin Hhid].
  unfold k. repeat split.
  - now apply wf_module_fresh.
  - rewrite <- Hhid. now apply wf_module_fresh.
  - rewrite <- Hid. now apply wf_module_fresh.
Qed.

Lemma sub_new : sub A = A /\ sub St = St /\ sub C = C.
Proof.
  destruct ids_below as (Hb & _ & _).
  assert (E : subst_value (VInst (iid b)) (VInst (S (S k))) (VInst k) = VInst k).
  { unfold subst_value. destruct (value_eqb (VInst k) (VInst (iid b))) eqn:E; [| reflexivity].
    apply value_eqb_eq in E. injection E as E. lia. }
  unfold sub, subst_inst, A, St, C, alloca_inst, zero_store_inst, stackalloc_inst.
  cbn [iid iop ioperands ity map]. rewrite E. repeat split; reflexivity.
Qed.

(** The module after the three insertions and the replacement. *)
Let inserted : module :=
  map_blocks (place_before first C)
    (map_blocks (place_before first St) (map_blocks (place_before first A) m)).

Let replaced : module :=
  ReplaceAllUsesWith {| mfuncs := mfuncs inserted; mnext := S (S (S k)) |}
                     (VInst (iid b)) (VInst (S (S k))).

Lemma all_insts_replaced :
  all_insts replaced =
  map sub (place_before first C (place_before first St (place_before first A (all_insts m)))).
Proof.
  unfold replaced. rewrite all_insts_subst.
  change (all_insts {| mfuncs := mfuncs inserted; mnext := S (S (S k)) |})
    with (all_insts inserted).
  unfold inserted. now rewrite !all_insts_place_before.
Qed.

Lemma first_present :
  exists i, In i (all_insts m) /\ iid i = first.
Proof.
  destruct (parent_func_entry m _ fn first Hfn Hfirst) as (i & rest & _ & Hid & Hi).
  now exists i.
Qed.

Lemma In_replaced w' :
  In w' (all_insts replaced) <->
  (w' = A \/ w' = St \/ w' = C) \/ exists w, In w (all_insts m) /\ w' = sub w.
Proof.
  destruct first_present as (i0 & Hi0 & Hid0).
  destruct sub_new as (EA & ES & EC).
  rewrite all_insts_replaced, in_map_iff. split.
  - intros (x & <- & Hx).
    apply In_place_before in Hx as [Hx | [-> _]]; [| left; auto].
    apply In_place_before in Hx as [Hx | [-> _]]; [| left; auto].
    apply In_place_before in Hx as [Hx | [-> _]]; [| left; auto].
    right. now exists x.
  - intros [[-> | [-> | ->]] | (w & Hw & ->)].
    + exists A. split; [exact EA |]. do 2 (apply In_place_before; left).
      apply In_place_before. right. split; [reflexivity |]. now exists i0.
    + exists St. split; [exact ES |]. apply In_place_before; left.
      apply In_place_before. right. split; [reflexivity |]. exists i0.
      split; [| assumption]. apply In_place_before. now left.
    + exists C. split; [exact EC |]. apply In_place_before. right.
      split; [reflexivity |]. exists i0. split; [| assumption].
      do 2 (apply In_place_before; left). assumption.
    + exists w. split; [reflexivity |]. do 3 (apply In_place_before; left). assumption.
Qed.

Lemma In_remove_inst id X w :
  In w (all_insts (remove_inst id X)) <-> In w (all_insts X) /\ iid w <> id.
Proof.
  rewrite all_insts_remove_inst, filter_In. unfold has_id.
  rewrite negb_true_iff, Nat.eqb_neq. tauto.
Qed.

Lemma filter_keep id a l :
  iid a <> id ->
  filter (fun i => negb (has_id id i)) (a :: l) =
  a :: filter (fun i => negb (has_id id i)) l.
Proof.
  intros H. cbn [filter]. unfold has_id at 1.
  now rewrite (proj2 (Nat.eqb_neq _ _) H).
Qed.

Lemma getInst_absent X id :
  (forall w, In w (all_insts X) -> iid w <> id) -> getInst X id = None.
Proof.
  intros H. unfold getInst. destruct (find _ _) as [w |] eqn:E; [| reflexivity].
  apply find_some in E as [Hin Hid]. apply Nat.eqb_eq in Hid. now apply H in Hin.
Qed.

Lemma entry_replaced :
  exists i0 r,
    entry_of replaced (fname fn) (fparams fn) (A :: St :: C :: sub i0 :: r) /\
    iid i0 = first.
Proof.
  destruct ids_below as (Hb & Hha & Hf).
  destruct (parent_func_entry m _ fn first Hfn Hfirst) as (i0 & rest & He & Hid & _).
  exists i0. eexists. split; [| exact Hid].
  destruct sub_new as (EA & ES & EC).
  pose proof (entry_of_map_blocks (place_before first A) _ _ _ _ He) as H1.
  pose proof (entry_of_map_blocks (place_before first St) _ _ _ _ H1) as H2.
  pose proof (entry_of_map_blocks (place_before first C) _ _ _ _ H2) as H3.
  fold inserted in H3.
  assert (H4 : entry_of {| mfuncs := mfuncs inserted; mnext := S (S (S k)) |}
                        (fname fn) (fparams fn)
                        (place_before first C
                           (place_before first St (place_before first A (i0 :: rest)))))
    by exact H3.
  pose proof (entry_of_map_blocks (map sub) _ _ _ _ H4) as H5.
  fold (ReplaceAllUsesWith {| mfuncs := mfuncs inserted; mnext := S (S (S k)) |}
                           (VInst (iid b)) (VInst (S (S k)))) in H5.
  fold replaced in H5.
  assert (Hi0 : has_id first i0 = true) by (unfold has_id; rewrite Hid; apply Nat.eqb_refl).
  assert (HA : has_id first A = false)
    by (unfold has_id, A, alloca_inst; cbn [iid]; apply Nat.eqb_neq; lia).
  assert (HS : has_id first St = false)
    by (unfold has_id, St, zero_store_inst; cbn [iid]; apply Nat.eqb_neq; lia).
  assert (Eentry :
            place_before first C
              (place_before first St (place_before first A (i0 :: rest))) =
            A :: St :: C :: i0 ::
              place_before first C (place_before first St (place_before first A rest))).
  { unfold place_before at 3. cbn [flat_map]. rewrite Hi0. cbn [app].
    fold (place_before first A rest).
    unfold place_before at 2. cbn [flat_map]. rewrite HA, Hi0. cbn [app].
    fold (place_before first St (place_before first A rest)).
    unfold place_before at 1. cbn [flat_map]. rewrite HA, HS, Hi0. cbn [app].
    reflexivity. }
  rewrite Eentry in H5. cbn [map] in H5. rewrite EA, ES, EC in H5. exact H5.
Qed.

End Promotion.

Section AllocExamples.
Import IR Optimizer Examples.

(** C1, where the code departs from it: the size of the allocation of
    [undef_sized_alloc] is a constant but no constant integer; the pass
    takes it past its guard ([IsAConstant]) and asks for its integer value,
    which the IR library only defines for constant integers, where the claim
    has the call left unchanged. *)
Theorem OptimizeAllocs_non_integer_constant (alignment : Z) :
  getUses undef_sized_alloc (NamedFunction undef_sized_alloc "runtime.alloc") = [1%nat] /\
  (exists h, getInst undef_sized_alloc 1 = Some h /\
             IsACallInst h = true /\
             CalledValue h = VFunc "runtime.alloc" /\
             IsAConstant (Operand h 0) = true /\
             forall n, Operand h 0 <> VConstInt n) /\
  OptimizeAllocs alignment undef_sized_alloc = Undefined /\
  OptimizeAllocs alignment undef_sized_alloc <> Done undef_sized_alloc.
Proof.
  split; [reflexivity |]. split.
  - eexists. split; [reflexivity |]. repeat split; try reflexivity.
    intros n. cbn. discriminate.
  - split; [reflexivity | discriminate].
Qed.

(** A size that is no constant and a size above 256 bytes: both calls
    stay. *)
Example OptimizeAllocs_leaves_unpromoted (alignment : Z) :
  OptimizeAllocs alignment unpromoted_allocs = Done unpromoted_allocs.
Proof. reflexivity. Qed.

(** The 16-byte object of [local_object] moves to the stack: with 4-byte
    pointers the entry block starts with the alloca of [4 x i32]. *)
Example OptimizeAllocs_promotes_local_object :
  exists m' entry',
    OptimizeAllocs 4 local_object = Done m' /\
    getInst m' 1 = None /\ getInst m' 2 = None /\
    entry_of m' "main" []
             (alloca_inst 4 16 7 :: zero_store_inst 4 16 7
                :: stackalloc_inst (TPtr (TInt 32)) 7 :: entry') /\
    sizeInWords 4 16 = 4%Z.
Proof.
  do 2 eexists. split; [reflexivity |]. split; [reflexivity |].
  split; [reflexivity |]. split; [| reflexivity].
  exists [declare "runtime.alloc" [[]]; declare "sink" [["nocapture"%string]]].
  do 3 eexists. split; [reflexivity |]. repeat split; reflexivity.
Qed.

End AllocExamples.

(** ** Word alignment and the default heap of the WebAssembly target *)

Section AlignFacts.
Import Word Wasm.
Local Open Scope Z_scope.

Lemma align_div (ptr : Z) :
  0 <= ptr -> ptr + 3 < 4294967296 -> align ptr = 4 * ((ptr + 3) / 4).
Proof.
  intros H0 H1. unfold align. rewrite uintptr_small by lia.
  change 3 with (2 ^ 2 - 1) at 2. rewrite andnot_pow2 by lia. reflexivity.
Qed.

Lemma align_bounds (ptr : Z) :
  0 <= ptr -> ptr + 3 < 4294967296 ->
  align ptr mod 4 = 0 /\ ptr <= align ptr < ptr + 4.
Proof.
  intros H0 H1. rewrite align_div by assumption.
  pose proof (Z.div_mod (ptr + 3) 4 ltac:(lia)).
  pose proof (Z.mod_pos_bound (ptr + 3) 4 ltac:(lia)).
  split; [rewrite Z.mul_comm; apply Z.mod_mul; lia | lia].
Qed.

Lemma align_top (ptr : Z) :
  4294967296 - 3 <= ptr < 4294967296 -> align ptr = 0.
Proof.
  intros H. unfold align, uintptr, TargetBits.
  change (2 ^ 32) with 4294967296.
  replace ((ptr + 3) mod 4294967296) with (ptr + 3 - 4294967296).
  - assert (Hc : ptr + 3 - 4294967296 = 0 \/ ptr + 3 - 4294967296 = 1
                 \/ ptr + 3 - 4294967296 = 2) by lia.
    destruct Hc as [-> | [-> | ->]]; reflexivity.
  - apply Z.mod_unique with (q := 1); lia.
Qed.

(** X1: [align] returns the least multiple of the word size that is not below
    its argument, as long as [ptr + 3] fits the 32-bit [uintptr]. *)
Theorem align_rounds_up_to_word (ptr : Z) :
  0 <= ptr -> ptr + 3 < 2 ^ 32 ->
  align ptr mod 4 = 0 /\ ptr <= align ptr < ptr + 4 /\
  forall q, ptr <= q -> q mod 4 = 0 -> align ptr <= q.
Proof.
  change (2 ^ 32) with 4294967296. intros H0 H1.
  destruct (align_bounds ptr H0 H1) as [Hm Hb].
  split; [exact Hm |]. split; [exact Hb |].
  rewrite align_div by assumption.
  intros q Hq Hq4.
  pose proof (Z.div_mod q 4 ltac:(lia)) as Hdq. rewrite Hq4 in Hdq.
  assert ((ptr + 3) / 4 <= q / 4); [| lia].
  apply Z.div_le_lower_bound; [lia |].
  pose proof (Z.div_mod (ptr + 3) 4 ltac:(lia)).
  pose proof (Z.mod_pos_bound (ptr + 3) 4 ltac:(lia)).
  rewrite align_div in Hb by assumption.
  assert (Hlt : 4 * ((ptr + 3) / 4) < 4 * (q / 4) + 4) by lia.
  lia.
Qed.

Lemma align_rounds_up_to_word_witness :
  align 5 mod 4 = 0 /\ 5 <= align 5 < 5 + 4 /\
  forall q, 5 <= q -> q mod 4 = 0 -> align 5 <= q.
Proof. apply (align_rounds_up_to_word 5); [lia | reflexivity]. Defined.

(** X2: In the last three addresses of the address space the sum [ptr + 3]
    wraps around and [align] returns 0, an address below its argument. *)
Theorem align_wraps_at_top (ptr : Z) :
  2 ^ 32 - 3 <= ptr < 2 ^ 32 ->
  align ptr = 0 /\ align ptr < ptr.
Proof.
  change (2 ^ 32) with 4294967296. intros H.
  rewrite align_top by assumption. split; [reflexivity | lia].
Qed.

Lemma align_wraps_at_top_witness :
  align 4294967295 = 0 /\ align 4294967295 < 4294967295.
Proof. apply (align_wraps_at_top 4294967295). vm_compute. split; congruence. Defined.

(** X3: On every 32-bit address [align] is idempotent, and the addresses it
    leaves as they are are the multiples of the word size. *)
Theorem align_fixes_words (ptr : Z) :
  0 <= ptr < 2 ^ 32 ->
  (align ptr = ptr <-> ptr mod 4 = 0) /\ align (align ptr) = align ptr.
Proof.
  change (2 ^ 32) with 4294967296. intros H.
  assert (Hfix : forall p, 0 <= p < 4294967296 -> p mod 4 = 0 -> align p = p).
  { intros p Hp Hp4. pose proof (Z.div_mod p 4 ltac:(lia)) as Hd.
    rewrite Hp4 in Hd. rewrite align_div by lia.
    replace (p + 3) with (3 + (p / 4) * 4) by lia.
    rewrite Z.div_add by lia. change (3 / 4) with 0. lia. }
  assert (Hal : align ptr mod 4 = 0 /\ 0 <= align ptr < 4294967296).
  { destruct (Z_lt_le_dec (ptr + 3) 4294967296) as [Hlt | Hge].
    - destruct (align_bounds ptr) as (Hm & Hb); [lia | exact Hlt |].
      split; [exact Hm |]. rewrite align_div in * by lia.
      pose proof (Z.div_mod (ptr + 3) 4 ltac:(lia)).
      pose proof (Z.mod_pos_bound (ptr + 3) 4 ltac:(lia)). lia.
    - rewrite align_top by lia. split; [reflexivity | lia]. }
  split.
  - split.
    + intros Heq. rewrite <- Heq. apply Hal.
    + apply Hfix, H.
  - apply Hfix; apply Hal.
Qed.

Lemma align_fixes_words_witness :
  (align 8 = 8 <-> 8 mod 4 = 0) /\ align (align 8) = align 8.
Proof. apply (align_fixes_words 8). vm_compute. split; congruence. Defined.

(** X4: The default heap of the WebAssembly target is empty exactly when the
    heap base is a multiple of the page size. *)
Theorem heapEnd_empty_iff_page_aligned (heapStart : Z) :
  0 <= heapStart -> heapStart + 65535 < 2 ^ 32 ->
  (heapEnd heapStart = heapStart <-> heapStart mod wasmPageSize = 0).
Proof.
  intros H0 H1. rewrite heapEnd_align_up by assumption.
  unfold wasmPageSize. change (64 * 1024) with 65536.
  pose proof (Z.div_mod heapStart 65536 ltac:(lia)) as Hd.
  pose proof (Z.mod_pos_bound heapStart 65536 ltac:(lia)) as Hb.
  pose proof (Z.div_mod (heapStart + 65535) 65536 ltac:(lia)) as Hd'.
  pose proof (Z.mod_pos_bound (heapStart + 65535) 65536 ltac:(lia)) as Hb'.
  split.
  - intros Heq. 
    assert (Hm : heapStart = (heapStart + 65535) / 65536 * 65536) by lia.
    rewrite Hm at 1. apply Z.mod_mul. lia.
  - intros Hm. rewrite Hm in Hd.
    replace (heapStart + 65535) with (65535 + heapStart / 65536 * 65536) by lia.
    rewrite Z.div_add by lia. change (65535 / 65536) with 0. lia.
Qed.

Lemma heapEnd_empty_iff_page_aligned_witness :
  heapEnd 131072 = 131072 <-> 131072 mod wasmPageSize = 0.
Proof. apply (heapEnd_empty_iff_page_aligned 131072); [lia | reflexivity]. Defined.
End AlignFacts.

(** ** The layout that [init] leaves *)

Section InitLayout.
Import Word GCInit.
Local Open Scope Z_scope.

Variable k : Z.
Variables heapStart heapEnd : Z.
Hypothesis Hk : 0 <= k <= 29.
Hypothesis H0 : 0 <= heapStart.
Hypothesis Hle : heapStart <= heapEnd.
Hypothesis Hhi : heapEnd < 4294967296.

Let B := 2 ^ k.
Let c := 2 ^ (30 - k).
Let M := (heapEnd - heapStart) / (4 * B).
Let x := heapStart + M + (B - 1).

Lemma block_size_facts : 0 < B /\ B <= 536870912 /\ 0 < c /\ 4 * c * B = 4294967296.
Proof.
  assert (HB : 0 < B) by (apply Z.pow_pos_nonneg; lia).
  assert (HB29 : B <= 2 ^ 29) by (apply Z.pow_le_mono_r; lia).
  assert (Hc : 0 < c) by (apply Z.pow_pos_nonneg; lia).
  repeat split; try assumption.
  unfold c, B. replace (4 * 2 ^ (30 - k) * 2 ^ k) with (4 * (2 ^ (30 - k) * 2 ^ k)) by lia.
  rewrite <- Z.pow_add_r by lia. replace (30 - k + k) with 30 by lia. reflexivity.
Qed.

Lemma metadata_facts : 0 <= M /\ 4 * B * M <= heapEnd - heapStart /\ M < c.
Proof.
  destruct block_size_facts as (HB & HB29 & Hc & HcB).
  assert (HM0 : 0 <= M) by (apply Z.div_pos; lia).
  assert (HMT : 4 * B * M <= heapEnd - heapStart) by (apply Z.mul_div_le; lia).
  repeat split; try assumption. nia.
Qed.

(** The layout as [init] computes it, with the wrap-arounds resolved. *)
Lemma layout_cases :
  let l := compute_layout B heapStart heapEnd in
  metadataSize l = M /\ poolEnd l = B * (heapEnd / B) /\
  ((x < 4294967296 /\ x / B <= heapEnd / B /\
    poolStart l = B * (x / B) /\ numBlocks l = heapEnd / B - x / B) \/
   numBlocks l = 4 * c - 1).
Proof.
  destruct block_size_facts as (HB & HB29 & Hc & HcB).
  destruct metadata_facts as (HM0 & HMT & HMc).
  assert (HA : forall y, andnot y (B - 1) = B * (y / B))
    by (intros y; unfold B; apply andnot_pow2; lia).
  assert (HMle : heapStart + M <= heapEnd) by nia.
  cbv zeta. unfold compute_layout, blocksPerStateByte.
  rewrite (uintptr_small (heapEnd - heapStart)) by lia.
  rewrite (uintptr_small (4 * B)) by lia. fold M.
  rewrite (uintptr_small (heapStart + M)) by lia.
  rewrite (uintptr_small (B - 1)) by lia.
  cbn [metadataSize poolEnd poolStart numBlocks]. rewrite !HA.
  split; [reflexivity |]. split; [reflexivity |].
  fold x.
  pose proof (Z.div_mod heapEnd B ltac:(lia)) as He.
  pose proof (Z.mod_pos_bound heapEnd B ltac:(lia)) as Her.
  destruct (Z_lt_le_dec x 4294967296) as [Hx | Hx].
  - rewrite (uintptr_small x) by (unfold x; lia).
    pose proof (Z.div_mod x B ltac:(lia)) as Hxd.
    pose proof (Z.mod_pos_bound x B ltac:(lia)) as Hxr.
    destruct (Z_le_gt_dec (x / B) (heapEnd / B)) as [Hq | Hq].
    + left. repeat split; try assumption.
      assert (0 <= x / B) by (apply Z.div_pos; unfold x; lia).
      rewrite uintptr_small by nia.
      rewrite <- Z.mul_sub_distr_l, Z.mul_comm. apply Z.div_mul. lia.
    + right.
      assert (Hone : x / B = heapEnd / B + 1) by (unfold x in *; nia).
      rewrite Hone.
      replace (B * (heapEnd / B) - B * (heapEnd / B + 1)) with (- B) by lia.
      unfold uintptr, TargetBits. change (2 ^ 32) with 4294967296.
      replace ((- B) mod 4294967296) with (4294967296 - B)
        by (apply Z.mod_unique with (q := -1); lia).
      rewrite <- HcB. replace (4 * c * B - B) with ((4 * c - 1) * B) by lia.
      apply Z.div_mul. lia.
  - right.
    assert (Hxw : uintptr x = x - 4294967296).
    { unfold uintptr, TargetBits. change (2 ^ 32) with 4294967296.
      symmetry. apply Z.mod_unique with (q := 1); unfold x in *; lia. }
    rewrite Hxw.
    assert (Hz : (x - 4294967296) / B = 0)
      by (apply Z.div_small; unfold x in *; lia).
    rewrite Hz, Z.mul_0_r, Z.sub_0_r.
    assert (Hq : heapEnd / B = 4 * c - 1) by (unfold x in *; nia).
    rewrite Hq. rewrite uintptr_small by nia.
    rewrite Z.mul_comm. apply Z.div_mul. lia.
Qed.

Lemma underflow_is_caught :
  numBlocks (compute_layout B heapStart heapEnd) = 4 * c - 1 ->
  metadata_too_small (compute_layout B heapStart heapEnd) = true.
Proof.
  intros Hn.
  destruct block_size_facts as (HB & HB29 & Hc & HcB).
  destruct metadata_facts as (HM0 & HMT & HMc).
  destruct layout_cases as (HM & _ & _). cbv zeta in HM.
  unfold metadata_too_small. rewrite Hn, HM. unfold blocksPerStateByte.
  rewrite uintptr_small by nia. apply Z.ltb_lt. lia.
Qed.

(** X5: When [init] returns with the assertions of the collector on, the
    globals it leaves describe a sound heap: the metadata prefix, then the
    pool of whole blocks on block boundaries inside the heap, and a state
    for every block. *)
Theorem init_layout_sound (l : layout) :
  init B true heapStart heapEnd = Done l ->
  heapStart + metadataSize l <= poolStart l /\
  poolStart l <= poolEnd l /\ poolEnd l <= heapEnd /\
  poolStart l mod B = 0 /\ poolEnd l mod B = 0 /\
  poolEnd l - poolStart l = numBlocks l * B /\
  numBlocks l <= metadataSize l * blocksPerStateByte.
Proof.
  intros Hinit.
  destruct block_size_facts as (HB & HB29 & Hc & HcB).
  destruct metadata_facts as (HM0 & HMT & HMc).
  pose proof layout_cases as Hl. cbv zeta in Hl.
  unfold init in Hinit. cbn [andb] in Hinit.
  destruct (metadata_too_small (compute_layout B heapStart heapEnd)) eqn:Hsmall;
    [discriminate |].
  injection Hinit as <-.
  destruct Hl as (HM & HE & [(Hx & Hq & HS & HN) | Hunder]).
  - rewrite HM, HE, HS, HN.
    pose proof (Z.div_mod heapEnd B ltac:(lia)) as He.
    pose proof (Z.mod_pos_bound heapEnd B ltac:(lia)) as Her.
    pose proof (Z.div_mod x B ltac:(lia)) as Hxd.
    pose proof (Z.mod_pos_bound x B ltac:(lia)) as Hxr.
    unfold metadata_too_small in Hsmall. rewrite HM, HN in Hsmall.
    unfold blocksPerStateByte in *. rewrite uintptr_small in Hsmall by nia.
    apply Z.ltb_ge in Hsmall.
    repeat split.
    + unfold x in *. lia.
    + nia.
    + lia.
    + rewrite Z.mul_comm. apply Z.mod_mul. lia.
    + rewrite Z.mul_comm. apply Z.mod_mul. lia.
    + lia.
    + lia.
  - apply underflow_is_caught in Hunder. congruence.
Qed.

(** X6: A heap that lies inside one block and does not start on its boundary
    has no room for a block: the subtraction [poolEnd - poolStart] wraps
    around, the block count comes out as [2^32 / bytesPerBlock - 1], and
    only the sanity check of [init] stops the allocator from using it. *)
Theorem init_heap_inside_a_block :
  heapStart mod B <> 0 -> heapStart / B = heapEnd / B ->
  numBlocks (compute_layout B heapStart heapEnd) = 2 ^ (32 - k) - 1 /\
  init B true heapStart heapEnd = Panic "gc: metadata array is too small" /\
  init B false heapStart heapEnd = Done (compute_layout B heapStart heapEnd).
Proof.
  intros Hmod Hsame.
  destruct block_size_facts as (HB & HB29 & Hc & HcB).
  destruct metadata_facts as (HM0 & HMT & HMc).
  pose proof layout_cases as Hl. cbv zeta in Hl.
  assert (Hpow : 2 ^ (32 - k) = 4 * c).
  { unfold c. replace (32 - k) with (2 + (30 - k)) by lia.
    rewrite Z.pow_add_r by lia. reflexivity. }
  assert (Hunder : numBlocks (compute_layout B heapStart heapEnd) = 4 * c - 1).
  { destruct Hl as (HM & HE & [(Hx & Hq & HS & HN) | Hunder]); [| exact Hunder].
    exfalso.
    pose proof (Z.div_mod heapStart B ltac:(lia)) as Hs.
    pose proof (Z.mod_pos_bound heapStart B ltac:(lia)) as Hsr.
    assert (Hxq : heapStart / B + 1 <= x / B).
    { apply Z.div_le_lower_bound; [lia |]. unfold x. lia. }
    lia. }
  split; [rewrite Hpow; exact Hunder |].
  unfold init. rewrite (underflow_is_caught Hunder). split; reflexivity.
Qed.
End InitLayout.

Section InitExamples.
Import Word GCInit.
Local Open Scope Z_scope.

Lemma init_layout_sound_witness :
  let l := compute_layout (2 ^ 4) 65536 131072 in
  65536 + metadataSize l <= poolStart l /\
  poolStart l <= poolEnd l /\ poolEnd l <= 131072 /\
  poolStart l mod 2 ^ 4 = 0 /\ poolEnd l mod 2 ^ 4 = 0 /\
  poolEnd l - poolStart l = numBlocks l * 2 ^ 4 /\
  numBlocks l <= metadataSize l * blocksPerStateByte.
Proof.
  apply (init_layout_sound 4 65536 131072); by_evaluation.
Defined.

Lemma init_heap_inside_a_block_witness :
  numBlocks (compute_layout (2 ^ 4) 5 10) = 2 ^ (32 - 4) - 1 /\
  init (2 ^ 4) true 5 10 = Panic "gc: metadata array is too small" /\
  init (2 ^ 4) false 5 10 = Done (compute_layout (2 ^ 4) 5 10).
Proof.
  apply (init_heap_inside_a_block 4 5 10); by_evaluation.
Defined.
End InitExamples.

(** ** What the mark phase does to the heap *)

Section OnlyMarks.
Import Word GC.
Local Open Scope Z_scope.
Variable rt : runtime.

Lemma state_setState_cases st x s b :
  state (setState st x s) b = state st b \/ state (setState st x s) b = s.
Proof.
  revert x b. induction st as [| y st IH]; intros [| x] [| b]; cbn; auto.
  apply IH.
Qed.

Lemma only_marks_refl h : only_marks h h.
Proof. split; [reflexivity |]. split; [auto | now exists []]. Qed.

Lemma only_marks_trans h1 h2 h3 :
  only_marks h1 h2 -> only_marks h2 h3 -> only_marks h1 h3.
Proof.
  intros (L1 & S1 & n1 & E1) (L2 & S2 & n2 & E2). split; [congruence |]. split.
  - intros b. destruct (S2 b) as [-> | ->]; auto.
  - exists (n2 ++ n1). now rewrite E2, E1, app_assoc.
Qed.

Lemma markRoot_only_marks self h addr root h' :
  (forall h1 a e h2, self h1 a e = Some h2 -> only_marks h1 h2) ->
  markRoot rt self h addr root = Some h' -> only_marks h h'.
Proof.
  intros Hself. unfold markRoot.
  destruct (addressOnHeap rt root);
    [| intros [= <-]; apply only_marks_refl].
  destruct (negb _); [| intros [= <-]; apply only_marks_refl].
  intros E. apply Hself in E. eapply only_marks_trans; [| exact E].
  split; [cbn; apply length_setState |]. split.
  - intros b. cbn. apply state_setState_cases.
  - now exists [findHead (states h) (blockFromAddr rt root)].
Qed.

Lemma markRoots_only_marks fuel :
  forall h a e h', markRoots rt fuel h a e = Some h' -> only_marks h h'.
Proof.
  induction fuel as [| fuel IH]; intros h a e h' E; [discriminate |].
  cbn in E. destruct (a =? e); [injection E as <-; apply only_marks_refl |].
  destruct (markRoot rt (markRoots rt fuel) h a (load rt a)) as [h1 |] eqn:E1;
    [| discriminate].
  apply (markRoot_only_marks _ _ _ _ _ IH) in E1. apply IH in E.
  eapply only_marks_trans; eassumption.
Qed.

Lemma markGlobals_loop_only_marks fuel n :
  forall i h h', markGlobals_loop rt fuel n i h = Some h' -> only_marks h h'.
Proof.
  induction n as [| n IH]; intros i h h' E; cbn [markGlobals_loop] in E.
  - injection E as <-. apply only_marks_refl.
  - destruct (tracked rt i).
    + destruct (markRoot rt (markRoots rt fuel) h _ _) as [h1 |] eqn:E1;
        [| discriminate].
      apply (markRoot_only_marks _ _ _ _ _ (markRoots_only_marks fuel)) in E1.
      apply IH in E. eapply only_marks_trans; eassumption.
    + now apply IH in E.
Qed.

(** X7: The mark phase never frees, unmarks or re-labels a block: whatever
    [markGlobals] and [markRoots] return has a state for the same blocks,
    each block in the state it had or marked, and the earlier scans. *)
Theorem mark_phase_only_marks (fuel : nat) (h h1 h2 : heap) (sp : Z) :
  markGlobals rt fuel h = Some h1 ->
  markRoots rt fuel h1 sp (stackTop rt) = Some h2 ->
  only_marks h h2 /\
  (forall b, state (states h) b = blockStateMark ->
             state (states h2) b = blockStateMark) /\
  (forall b, state (states h2) b <> blockStateMark ->
             state (states h2) b = state (states h) b).
Proof.
  intros E1 E2. apply markGlobals_loop_only_marks in E1.
  apply markRoots_only_marks in E2.
  pose proof (only_marks_trans _ _ _ E1 E2) as Hm. split; [exact Hm |].
  destruct Hm as (_ & Hs & _). split; intros b Hb.
  - destruct (Hs b) as [-> | ->]; auto.
  - destruct (Hs b) as [-> | Hmk]; [reflexivity | contradiction].
Qed.
End OnlyMarks.

Section OnlyMarksExample.
Import Word GC.
Local Open Scope Z_scope.

Lemma mark_phase_only_marks_witness :
  let h1 := {| states := [blockStateMark; blockStateMark; blockStateTail; blockStateFree];
               scans := [1%nat; 0%nat] |} in
  only_marks cyclic_heap h1 /\
  (forall b, state (states cyclic_heap) b = blockStateMark ->
             state (states h1) b = blockStateMark) /\
  (forall b, state (states h1) b <> blockStateMark ->
             state (states h1) b = state (states cyclic_heap) b).
Proof.
  intros h1.
  apply (mark_phase_only_marks cyclic_rt 10 cyclic_heap h1 h1 2048); reflexivity.
Defined.
End OnlyMarksExample.

(** ** Objects, and what the mark phase reaches *)

Section ObjectFacts.
Import Word GC.
Local Open Scope Z_scope.

Lemma same_tails_refl st : same_tails st st.
Proof. split; reflexivity. Qed.

Lemma same_tails_trans st1 st2 st3 :
  same_tails st1 st2 -> same_tails st2 st3 -> same_tails st1 st3.
Proof. intros [L1 T1] [L2 T2]. split; [congruence | intros b; now rewrite T1]. Qed.

Lemma is_tail_state st b : is_tail (state st b) = true <-> state st b = blockStateTail.
Proof. destruct (state st b); cbn; split; congruence. Qed.

Lemma same_tails_state st st' b :
  same_tails st st' -> (state st b = blockStateTail <-> state st' b = blockStateTail).
Proof. intros [_ T]. rewrite <- !is_tail_state. now rewrite T. Qed.

Lemma skipTails_same_tails st st' :
  same_tails st st' -> forall fuel b, skipTails st fuel b = skipTails st' fuel b.
Proof.
  intros [_ T] fuel. induction fuel as [| fuel IH]; intros b; cbn; [reflexivity |].
  specialize (T b).
  destruct (state st b), (state st' b); cbn in T; try discriminate;
    try reflexivity; apply IH.
Qed.

Lemma findHead_same_tails st st' :
  same_tails st st' -> forall b, findHead st b = findHead st' b.
Proof.
  intros [_ T] b. induction b as [| b IH]; cbn; [reflexivity |].
  specialize (T (S b)).
  destruct (state st (S b)), (state st' (S b)); cbn in T; try discriminate;
    try reflexivity; apply IH.
Qed.

Lemma objectEnd_same_tails st st' b :
  same_tails st st' -> objectEnd st b = objectEnd st' b.
Proof.
  intros H. unfold objectEnd. destruct H as [L T]. rewrite L.
  apply skipTails_same_tails. now split.
Qed.

Lemma findHead_not_tail st b :
  state st 0 <> blockStateTail -> state st (findHead st b) <> blockStateTail.
Proof.
  intros H0. induction b as [| b IH]; cbn; [exact H0 |].
  destruct (state st (S b)) eqn:E; try (rewrite E; discriminate). exact IH.
Qed.

Lemma same_tails_mark st b :
  state st b <> blockStateTail -> same_tails st (setState st b blockStateMark).
Proof.
  intros Hb. split; [now rewrite length_setState |]. intros b'.
  destruct (Nat.eq_dec b b') as [<- | Hne].
  - destruct (state_setState_cases st b blockStateMark b) as [-> | ->];
      [reflexivity |].
    destruct (state st b); try reflexivity. congruence.
  - now rewrite state_setState_other.
Qed.

Lemma skipTails_step st fuel b :
  state st b = blockStateTail -> skipTails st (S fuel) b = skipTails st fuel (S b).
Proof. intros H. cbn. now rewrite H. Qed.

(** From any block of an object, walking forward over the tails ends
    where the object ends. *)
Lemma objectEnd_of_head st b :
  (b < List.length st)%nat ->
  state st (findHead st b) <> blockStateTail ->
  objectEnd st (findHead st b) =
  skipTails st (List.length st - (if is_tail (state st b) then b else S b))
            (if is_tail (state st b) then b else S b).
Proof.
  induction b as [| b IH]; intros Hb Hh.
  - cbn [findHead] in *. destruct (state st 0) eqn:E; cbn [is_tail];
      try reflexivity. congruence.
  - cbn [findHead] in *. destruct (state st (S b)) eqn:E; cbn [is_tail];
      try reflexivity.
    rewrite IH by (lia || assumption).
    destruct (is_tail (state st b)) eqn:Et; [| reflexivity].
    apply is_tail_state in Et.
    replace (List.length st - b)%nat with (S (List.length st - S b)) by lia.
    now apply skipTails_step.
Qed.

Lemma findNext_marked_head st block :
  (block < List.length st)%nat ->
  state st (findHead st block) = blockStateMark ->
  findNext st block = objectEnd st (findHead st block).
Proof.
  intros Hb Hm. rewrite objectEnd_of_head by (assumption || congruence).
  unfold findNext.
  destruct (Nat.eq_dec (findHead st block) block) as [E | E].
  - rewrite E in Hm. rewrite Hm. reflexivity.
  - rewrite (findHead_moved st block E). reflexivity.
Qed.

Lemma findNext_le_objectEnd st b : (findNext st b <= objectEnd st b)%nat.
Proof.
  unfold findNext, objectEnd.
  destruct (state st b) eqn:E; try lia.
  - destruct (List.length st - b)%nat; cbn; rewrite ?E;
      pose proof (skipTails_ge st (List.length st - S b) (S b)); lia.
  - destruct (List.length st - b)%nat as [| f] eqn:Ef.
    + cbn. pose proof (skipTails_ge st (List.length st - S b) (S b)). lia.
    + rewrite skipTails_step by assumption.
      replace (List.length st - S b)%nat with f by lia. lia.
Qed.

Lemma objectEnd_le st b :
  (b < List.length st)%nat -> (b < objectEnd st b <= List.length st)%nat.
Proof.
  intros Hb. unfold objectEnd.
  pose proof (skipTails_ge st (List.length st - S b) (S b)).
  pose proof (skipTails_le st (List.length st - S b) (S b)). lia.
Qed.
End ObjectFacts.

Section MarkClosure.
Import Word GC.
Local Open Scope Z_scope.
Variable rt : runtime.
Hypothesis rt_ok : runtime_ok rt.

Lemma marks_kept_refl h : marks_kept h h.
Proof. split; [apply same_tails_refl | auto]. Qed.

Lemma marks_kept_trans h1 h2 h3 :
  marks_kept h1 h2 -> marks_kept h2 h3 -> marks_kept h1 h3.
Proof.
  intros [T1 M1] [T2 M2]. split; [eapply same_tails_trans; eassumption | auto].
Qed.

Lemma target_kept h h' p :
  marks_kept h h' -> target rt (states h') p = target rt (states h) p.
Proof. intros [T _]. unfold target. symmetry. now apply findHead_same_tails. Qed.

Lemma closed_kept h h' b : marks_kept h h' -> closed rt h b -> closed rt h' b.
Proof.
  intros Hk Hc i Hi Hon. rewrite (target_kept h h') by assumption.
  destruct Hk as [T M]. apply M. apply Hc; [| assumption].
  now rewrite (objectEnd_same_tails _ _ b T).
Qed.

Lemma marks_kept_shape h h' :
  marks_kept h h' ->
  List.length (states h) = endBlock rt -> state (states h) 0 <> blockStateTail ->
  List.length (states h') = endBlock rt /\ state (states h') 0 <> blockStateTail.
Proof.
  intros [T _] Hlen H0. split; [destruct T; congruence |].
  now rewrite <- (same_tails_state _ _ 0%nat T).
Qed.

Lemma markRoot_scanned self h addr root h' :
  scans_range rt self ->
  List.length (states h) = endBlock rt -> state (states h) 0 <> blockStateTail ->
  markRoot rt self h addr root = Some h' ->
  marks_kept h h' /\
  (addressOnHeap rt root = true ->
   state (states h') (target rt (states h') root) = blockStateMark) /\
  (forall b, state (states h') b = blockStateMark ->
             state (states h) b = blockStateMark \/ closed rt h' b).
Proof.
  intros Hself Hlen H0. unfold markRoot.
  destruct (addressOnHeap rt root) eqn:Hon.
  2:{ intros [= <-]. split; [apply marks_kept_refl |]. split; [discriminate | auto]. }
  pose proof (blockFromAddr_lt rt rt_ok root Hon) as Hblk.
  set (block := blockFromAddr rt root) in *.
  set (head := findHead (states h) block).
  pose proof (findHead_le (states h) block) as Hhead. fold head in Hhead.
  destruct (is_mark (state (states h) head)) eqn:Hst; cbn [negb].
  { intros [= <-]. split; [apply marks_kept_refl |]. split; [| auto].
    intros _. unfold target. fold block head.
    destruct (state (states h) head); try discriminate. reflexivity. }
  set (st1 := setState (states h) head blockStateMark).
  set (h1 := {| states := st1; scans := head :: scans h |}).
  assert (Hnt : state (states h) head <> blockStateTail)
    by (apply findHead_not_tail; assumption).
  assert (HT1 : same_tails (states h) st1) by (apply same_tails_mark; assumption).
  assert (Hlen1 : List.length st1 = endBlock rt)
    by (unfold st1; now rewrite length_setState).
  assert (Hhm : state st1 head = blockStateMark)
    by (apply state_setState_same; lia).
  assert (Hk1 : marks_kept h h1).
  { split; [exact HT1 |]. intros b Hb. change (state st1 b = blockStateMark).
    destruct (Nat.eq_dec head b) as [<- | Hne]; [exact Hhm |].
    unfold st1. now rewrite state_setState_other. }
  assert (Hhead1 : findHead st1 block = head)
    by (symmetry; apply findHead_same_tails; assumption).
  set (next := findNext st1 block).
  assert (Hnext : next = objectEnd st1 head).
  { unfold next. rewrite <- Hhead1. apply findNext_marked_head; [lia |].
    now rewrite Hhead1. }
  assert (Hrange : (head < next <= endBlock rt)%nat).
  { rewrite Hnext, <- Hlen1. apply objectEnd_le. lia. }
  destruct (block_size_words rt rt_ok) as (HB4 & Hq).
  destruct rt_ok as (HB & _ & Hps & Hfit).
  set (n := Z.to_nat (Z.of_nat (next - head) * (bytesPerBlock rt / 4))).
  assert (Hwr : word_range (address rt head) (address rt next) n).
  { rewrite !address_small by (assumption || lia). unfold word_range, n.
    rewrite Z2Nat.id by nia. repeat split; nia. }
  intros E.
  destruct (Hself h1 (address rt head) (address rt next) n h') as (Hk & P3 & P4);
    try assumption.
  { change (state st1 0 <> blockStateTail).
    destruct (Nat.eq_dec head 0) as [E0 | E0].
    - rewrite E0 in Hhm. rewrite Hhm. discriminate.
    - unfold st1. now rewrite state_setState_other. }
  assert (Hk' : marks_kept h h') by (eapply marks_kept_trans; eassumption).
  split; [exact Hk' |]. split.
  - intros _. rewrite (target_kept h h') by assumption. unfold target.
    fold block head. destruct Hk as [_ M]. apply M. exact Hhm.
  - intros b Hb. destruct (P4 b Hb) as [Hb1 | Hc]; [| now right].
    change (state st1 b = blockStateMark) in Hb1. unfold st1 in Hb1.
    destruct (Nat.eq_dec head b) as [<- | Hne].
    + right. intros i Hi Hon'. apply P3; [| exact Hon'].
      destruct Hk as [T _]. change (states h1) with st1 in T.
      rewrite <- (objectEnd_same_tails _ _ head T), <- Hnext in Hi.
      destruct Hwr as (Ha & He & _). rewrite He in Hi. lia.
    + left. now rewrite state_setState_other in Hb1.
Qed.

Lemma markRoots_scans_range fuel : scans_range rt (markRoots rt fuel).
Proof.
  induction fuel as [| fuel IH]; intros h a e n h' Hlen H0 Hr E; [discriminate |].
  cbn [markRoots] in E. destruct Hr as (Ha & He & Hhi).
  destruct (a =? e) eqn:Eae.
  - injection E as <-. apply Z.eqb_eq in Eae.
    assert (n = 0%nat) by lia. subst n.
    split; [apply marks_kept_refl |]. split; [intros i Hi; lia | auto].
  - apply Z.eqb_neq in Eae. destruct n as [| n]; [lia |].
    destruct (markRoot rt (markRoots rt fuel) h a (load rt a)) as [h1 |] eqn:E1;
      [| discriminate].
    destruct (markRoot_scanned _ _ _ _ _ IH Hlen H0 E1) as (Hk1 & R1 & C1).
    destruct (marks_kept_shape _ _ Hk1 Hlen H0) as [Hlen1 H01].
    assert (Hx : uintptr (a + wordSize) = a + 4).
    { unfold wordSize, TargetBits. change (32 / 8) with 4.
      apply uintptr_small. lia. }
    rewrite Hx in E.
    destruct (IH h1 (a + 4) e n h' Hlen1 H01 ltac:(unfold word_range; lia) E)
      as (Hk2 & R2 & C2).
    split; [eapply marks_kept_trans; eassumption |]. split.
    + intros [| i] Hi Hon.
      * rewrite Z.mul_0_r, Z.add_0_r in *.
        rewrite (target_kept h1 h') by assumption.
        apply Hk2. now apply R1.
      * replace (a + 4 * Z.of_nat (S i)) with (a + 4 + 4 * Z.of_nat i) in * by lia.
        apply R2; [lia | assumption].
    + intros b Hb. destruct (C2 b Hb) as [Hb1 | Hc]; [| now right].
      destruct (C1 b Hb1) as [Hb0 | Hc]; [now left | right].
      eapply closed_kept; eassumption.
Qed.

Lemma markGlobals_loop_scanned fuel n :
  forall i h h',
    List.length (states h) = endBlock rt -> state (states h) 0 <> blockStateTail ->
    markGlobals_loop rt fuel n i h = Some h' ->
    marks_kept h h' /\
    (forall j, i <= j < i + Z.of_nat n -> tracked rt j = true ->
       let a := uintptr (trackedGlobalsStart rt + j * wordSize) in
       addressOnHeap rt (load rt a) = true ->
       state (states h') (target rt (states h') (load rt a)) = blockStateMark) /\
    (forall b, state (states h') b = blockStateMark ->
               state (states h) b = blockStateMark \/ closed rt h' b).
Proof.
  induction n as [| n IH]; intros i h h' Hlen H0 E; cbn [markGlobals_loop] in E.
  - injection E as <-. split; [apply marks_kept_refl |].
    split; [intros j Hj; lia | auto].
  - set (a := uintptr (trackedGlobalsStart rt + i * wordSize)) in *.
    assert (Hslot : exists h1,
               (if tracked rt i then markRoot rt (markRoots rt fuel) h a (load rt a)
                else Some h) = Some h1 /\
               markGlobals_loop rt fuel n (i + 1) h1 = Some h').
    { destruct (tracked rt i).
      - destruct (markRoot rt (markRoots rt fuel) h a (load rt a)) as [h1 |];
          [eauto | discriminate].
      - eauto. }
    destruct Hslot as (h1 & E1 & E2).
    assert (H1 : marks_kept h h1 /\
                 (tracked rt i = true -> addressOnHeap rt (load rt a) = true ->
                  state (states h1) (target rt (states h1) (load rt a)) = blockStateMark) /\
                 (forall b, state (states h1) b = blockStateMark ->
                            state (states h) b = blockStateMark \/ closed rt h1 b)).
    { destruct (tracked rt i).
      - destruct (markRoot_scanned _ _ _ _ _ (markRoots_scans_range fuel) Hlen H0 E1)
          as (K & R & C). auto.
      - injection E1 as <-. split; [apply marks_kept_refl |].
        split; [discriminate | auto]. }
    destruct H1 as (Hk1 & R1 & C1).
    destruct (marks_kept_shape _ _ Hk1 Hlen H0) as [Hlen1 H01].
    destruct (IH (i + 1) h1 h' Hlen1 H01 E2) as (Hk2 & R2 & C2).
    split; [eapply marks_kept_trans; eassumption |]. split.
    + intros j Hj Ht. cbv zeta.
      destruct (Z.eq_dec j i) as [-> | Hne].
      * fold a. intros Hon. rewrite (target_kept h1 h') by assumption.
        apply Hk2. now apply R1.
      * apply R2; [lia | assumption].
    + intros b Hb. destruct (C2 b Hb) as [Hb1 | Hc]; [| now right].
      destruct (C1 b Hb1) as [Hb0 | Hc]; [now left | right].
      eapply closed_kept; eassumption.
Qed.
End MarkClosure.

Section MarkReachable.
Import Word GC.
Local Open Scope Z_scope.

Lemma state_mark_lt st b : state st b = blockStateMark -> (b < List.length st)%nat.
Proof.
  intros H. destruct (Nat.lt_ge_cases b (List.length st)) as [Hlt | Hge];
    [exact Hlt |].
  unfold state in H. rewrite nth_overflow in H by assumption. discriminate.
Qed.

(** X8: The mark phase of a cycle that starts with no block marked returns,
    and when it does every reachable object is marked: the objects that the
    tracked globals and the words of the stack point into, and the objects
    that the words of a reachable object point into. *)
Theorem mark_phase_marks_reachable (rt : runtime) (sweep : heap -> heap)
        (sp : Z) (h : heap) :
  runtime_ok rt ->
  List.length (states h) = endBlock rt -> scans h = [] ->
  (forall b, state (states h) b <> blockStateMark) ->
  state (states h) 0 <> blockStateTail ->
  0 <= sp <= stackTop rt -> stackTop rt < 4294967296 ->
  (stackTop rt - sp) mod 4 = 0 ->
  exists fuel0 h2,
    (forall fuel, (fuel0 <= fuel)%nat -> GC rt sweep sp fuel h = Some (sweep h2)) /\
    forall b, reachable rt (states h) sp b -> state (states h2) b = blockStateMark.
Proof.
  intros Hrt Hlen Hsc Hnomark H0 Hsp Htop Hal.
  assert (Hgood : good rt h).
  { split; [exact Hlen |]. rewrite Hsc. split; [constructor | intros b []]. }
  set (k := unmarked (states h)).
  set (n := Z.to_nat ((stackTop rt - sp) / 4)).
  set (fuel0 := (n + 1 + k * (poolWords rt + 2))%nat).
  destruct (markGlobals_loop_returns rt Hrt k fuel0 ltac:(unfold fuel0; lia)
              (Z.to_nat (trackedGlobalsLength rt)) 0%Z h Hgood (le_n _))
    as (h1 & E1 & Hg1 & Hun1).
  assert (Hrange : word_range sp (stackTop rt) n).
  { unfold word_range, n.
    pose proof (Z.div_mod (stackTop rt - sp) 4 ltac:(lia)).
    assert (0 <= (stackTop rt - sp) / 4) by (apply Z.div_pos; lia).
    rewrite Z2Nat.id by assumption. lia. }
  destruct (markRoots_returns rt Hrt k n fuel0 h1 sp (stackTop rt) Hg1 Hun1 Hrange
                              (le_n _))
    as (h2 & E2 & Hg2 & Hun2).
  exists fuel0, h2. split.
  { intros fuel Hfuel. unfold GC, markGlobals.
    rewrite (markGlobals_loop_fuel_le rt fuel0 fuel Hfuel _ _ _ _ E1).
    now rewrite (markRoots_fuel_le rt fuel0 fuel _ _ _ _ Hfuel E2). }
  destruct (markGlobals_loop_scanned rt Hrt fuel0 _ _ _ _ Hlen H0 E1)
    as (K1 & R1 & C1).
  destruct (marks_kept_shape rt _ _ K1 Hlen H0) as [Hlen1 H01].
  destruct (markRoots_scans_range rt Hrt fuel0 h1 sp (stackTop rt) n h2
                                  Hlen1 H01 Hrange E2) as (K2 & R2 & C2).
  pose proof (marks_kept_trans _ _ _ K1 K2) as K.
  assert (Hclosed : forall b, state (states h2) b = blockStateMark -> closed rt h2 b).
  { intros b Hb. destruct (C2 b Hb) as [Hb1 | Hc]; [| exact Hc].
    destruct (C1 b Hb1) as [Hb0 | Hc]; [now apply Hnomark in Hb0 |].
    exact (closed_kept rt h1 h2 b K2 Hc). }
  intros b Hreach. induction Hreach as [a Hroot Hon | b a Hreach IH Hfield Hon].
  - rewrite <- (target_kept rt h h2) by assumption.
    destruct Hroot as [(i & Hi & Ht & ->) | (i & -> & Hi)].
    + rewrite (target_kept rt h1 h2) by assumption. apply K2.
      assert (Hi' : 0 <= i < 0 + Z.of_nat (Z.to_nat (trackedGlobalsLength rt)))
        by (rewrite Z2Nat.id by lia; lia).
      exact (R1 i Hi' Ht Hon).
    + apply R2; [| assumption]. destruct Hrange as (_ & He & _). lia.
  - rewrite <- (target_kept rt h h2) by assumption.
    destruct Hfield as (i & -> & Hi).
    apply (Hclosed b IH); [| assumption].
    eapply Z.lt_le_trans; [exact Hi |].
    pose proof (state_mark_lt _ _ IH) as Hb.
    destruct K as [T _]. rewrite <- (objectEnd_same_tails _ _ b T).
    pose proof (findNext_le_objectEnd (states h) b) as Hfn.
    assert (Hoe : (objectEnd (states h) b <= endBlock rt)%nat).
    { rewrite <- Hlen. apply objectEnd_le. destruct T as [L _]. lia. }
    rewrite !(address_small rt Hrt) by lia.
    destruct Hrt as (HB & _). nia.
Qed.

Lemma mark_phase_marks_reachable_witness :
  exists fuel0 h2,
    (forall fuel, (fuel0 <= fuel)%nat ->
                  GC cyclic_rt (fun h => h) 2040 fuel cyclic_heap = Some h2) /\
    forall b, reachable cyclic_rt (states cyclic_heap) 2040 b ->
              state (states h2) b = blockStateMark.
Proof.
  apply (mark_phase_marks_reachable cyclic_rt (fun h => h) 2040 cyclic_heap).
  - unfold runtime_ok. by_evaluation.
  - reflexivity.
  - reflexivity.
  - intros b. do 4 (destruct b as [| b]; [discriminate |]).
    destruct b; discriminate.
  - discriminate.
  - by_evaluation.
  - reflexivity.
  - reflexivity.
Defined.
End MarkReachable.

(** ** The bitmap of the globals and the bounds of a scan *)

Section GlobalsBitmap.
Import Word GC.
Local Open Scope Z_scope.
Variable rt : runtime.

Lemma land_bit (x k : Z) :
  0 <= k -> (Z.land x (Z.shiftl 1 k) =? 0) = negb (Z.testbit x k).
Proof.
  intros Hk.
  assert (H : Z.land x (Z.shiftl 1 k) = if Z.testbit x k then 2 ^ k else 0).
  { apply Z.bits_inj'. intros n Hn.
    rewrite Z.land_spec, Z.shiftl_spec by assumption.
    destruct (Z.eq_dec n k) as [-> | Hne].
    - rewrite Z.sub_diag. change (Z.testbit 1 0) with true. rewrite andb_true_r.
      destruct (Z.testbit x k); [now rewrite Z.pow2_bits_true | now rewrite Z.bits_0].
    - replace (Z.testbit 1 (n - k)) with false.
      + rewrite andb_false_r.
        destruct (Z.testbit x k); [now rewrite Z.pow2_bits_false | now rewrite Z.bits_0].
      + symmetry. destruct (Z_lt_le_dec (n - k) 0) as [Hlt | Hge].
        * now apply Z.testbit_neg_r.
        * apply (Z.bits_above_log2 1 (n - k)); cbn; lia. }
  rewrite H. destruct (Z.testbit x k); cbn [negb].
  - apply Z.eqb_neq. assert (0 < 2 ^ k) by (apply Z.pow_pos_nonneg; lia). lia.
  - reflexivity.
Qed.

Lemma tracked_bit (i : Z) :
  tracked rt i =
  Z.testbit (nth (Z.to_nat (i / 8)) (trackedGlobalsBitmap rt) 0) (i mod 8).
Proof.
  unfold tracked. rewrite land_bit.
  - apply negb_involutive.
  - apply Z.mod_pos_bound. lia.
Qed.

(** The loop from slot [i] on takes the flagged slots among the next [n]. *)
Lemma markGlobals_loop_slots (fuel n : nat) :
  forall (i : nat) (h : heap),
    markGlobals_loop rt fuel n (Z.of_nat i) h =
    mark_slots rt fuel
      (filter (fun i => Z.testbit (nth (Z.to_nat (i / 8)) (trackedGlobalsBitmap rt) 0)
                                  (i mod 8))
              (map Z.of_nat (seq i n))) h.
Proof.
  induction n as [| n IH]; intros i h; cbn [markGlobals_loop seq map filter];
    [reflexivity |].
  rewrite tracked_bit.
  replace (Z.of_nat i + 1) with (Z.of_nat (S i)) by lia.
  destruct (Z.testbit _ _); cbn [mark_slots].
  - destruct (markRoot rt (markRoots rt fuel) h _ _); [apply IH | reflexivity].
  - apply IH.
Qed.

(** X9: [markGlobals] takes slot [i] for a root exactly when bit [i mod 8]
    of byte [i / 8] of the bitmap is set: it is [markRoot] on the word of
    each flagged slot below [trackedGlobalsLength], in the order of the
    slots, and on nothing else.  With no slot flagged it reads no global
    and returns the heap as it got it, with any fuel and whatever the
    globals hold; and when it returns, the object that the word of a
    flagged slot points into is marked. *)
Theorem markGlobals_follows_bitmap (fuel : nat) (h : heap) :
  markGlobals rt fuel h = mark_slots rt fuel (flagged_slots rt) h /\
  (forall i, In i (flagged_slots rt) <->
             0 <= i < trackedGlobalsLength rt /\
             Z.testbit (nth (Z.to_nat (i / 8)) (trackedGlobalsBitmap rt) 0) (i mod 8)
             = true) /\
  ((forall i, 0 <= i < trackedGlobalsLength rt ->
              Z.testbit (nth (Z.to_nat (i / 8)) (trackedGlobalsBitmap rt) 0) (i mod 8)
              = false) ->
   markGlobals rt fuel h = Some h) /\
  (runtime_ok rt -> List.length (states h) = endBlock rt ->
   state (states h) 0 <> blockStateTail ->
   forall h', markGlobals rt fuel h = Some h' ->
   forall i, 0 <= i < trackedGlobalsLength rt ->
             Z.testbit (nth (Z.to_nat (i / 8)) (trackedGlobalsBitmap rt) 0) (i mod 8)
             = true ->
             let a := uintptr (trackedGlobalsStart rt + i * wordSize) in
             addressOnHeap rt (load rt a) = true ->
             state (states h') (target rt (states h') (load rt a)) = blockStateMark).
Proof.
  assert (Hin : forall i, In i (flagged_slots rt) <->
                  0 <= i < trackedGlobalsLength rt /\
                  Z.testbit (nth (Z.to_nat (i / 8)) (trackedGlobalsBitmap rt) 0)
                            (i mod 8) = true).
  { intros i. unfold flagged_slots. rewrite filter_In, in_map_iff. split.
    - intros [(k & <- & Hk) Hb]. apply in_seq in Hk. split; [lia | exact Hb].
    - intros [Hi Hb]. split; [| exact Hb]. exists (Z.to_nat i).
      split; [lia |]. apply in_seq. lia. }
  assert (Hrun : markGlobals rt fuel h = mark_slots rt fuel (flagged_slots rt) h).
  { unfold markGlobals, flagged_slots.
    apply (markGlobals_loop_slots fuel _ 0%nat h). }
  split; [exact Hrun |]. split; [exact Hin |]. split.
  - intros Hclear. rewrite Hrun.
    destruct (flagged_slots rt) as [| i rest] eqn:E; [reflexivity |].
    exfalso. destruct (proj1 (Hin i) (or_introl eq_refl)) as [Hi Hb].
    rewrite (Hclear i Hi) in Hb. discriminate.
  - intros Hrt Hlen H0 h' E i Hi Hb. unfold markGlobals in E.
    destruct (markGlobals_loop_scanned rt Hrt fuel _ _ _ _ Hlen H0 E) as (_ & Hroots & _).
    apply Hroots; [lia |]. now rewrite tracked_bit.
Qed.
End GlobalsBitmap.

Section GlobalsBitmapExample.
Import Word GC.
Local Open Scope Z_scope.

Lemma markGlobals_follows_bitmap_witness :
  markGlobals one_flag_rt 8 one_object
  = mark_slots one_flag_rt 8 (flagged_slots one_flag_rt) one_object /\
  (forall i, In i (flagged_slots one_flag_rt) <->
             0 <= i < trackedGlobalsLength one_flag_rt /\
             Z.testbit (nth (Z.to_nat (i / 8)) (trackedGlobalsBitmap one_flag_rt) 0)
                       (i mod 8) = true) /\
  ((forall i, 0 <= i < trackedGlobalsLength one_flag_rt ->
              Z.testbit (nth (Z.to_nat (i / 8)) (trackedGlobalsBitmap one_flag_rt) 0)
                        (i mod 8) = false) ->
   markGlobals one_flag_rt 8 one_object = Some one_object) /\
  (runtime_ok one_flag_rt -> List.length (states one_object) = endBlock one_flag_rt ->
   state (states one_object) 0 <> blockStateTail ->
   forall h', markGlobals one_flag_rt 8 one_object = Some h' ->
   forall i, 0 <= i < trackedGlobalsLength one_flag_rt ->
             Z.testbit (nth (Z.to_nat (i / 8)) (trackedGlobalsBitmap one_flag_rt) 0)
                       (i mod 8) = true ->
             let a := uintptr (trackedGlobalsStart one_flag_rt + i * wordSize) in
             addressOnHeap one_flag_rt (load one_flag_rt a) = true ->
             state (states h') (target one_flag_rt (states h') (load one_flag_rt a))
             = blockStateMark).
Proof. exact (markGlobals_follows_bitmap one_flag_rt 8 one_object). Defined.

(** Of two globals that hold a pointer to the same object, the flagged
    one gets the object marked; with the flag on neither, the object
    stays unmarked. *)
Example markGlobals_marks_through_flagged_slot :
  flagged_slots one_flag_rt = [1] /\
  markGlobals one_flag_rt 8 one_object =
  Some {| states := [blockStateMark; blockStateFree]; scans := [0%nat] |} /\
  flagged_slots no_flag_rt = [] /\
  markGlobals no_flag_rt 8 one_object = Some one_object.
Proof. repeat split; vm_compute; reflexivity. Qed.
End GlobalsBitmapExample.

Section Misaligned.
Import Word GC.
Local Open Scope Z_scope.
Variable rt : runtime.

Lemma uintptr_next_word (a : Z) : uintptr (a + wordSize) mod 4 = a mod 4.
Proof.
  unfold uintptr, wordSize, TargetBits. change (32 / 8) with 4.
  change (2 ^ 32) with (4 * 1073741824).
  rewrite Z.rem_mul_r by lia.
  rewrite Z.mul_comm, Z.mod_add by lia.
  rewrite Z.mod_mod by lia.
  replace (a + 4) with (a + 1 * 4) by lia. apply Z.mod_add. lia.
Qed.

(** X10: The loop of [markRoots] ends when [addr] is [end], and [addr] moves a
    word at a time: when the distance from [start] to [end] is no whole
    number of words the two never meet, and [markRoots] does not return. *)
Theorem markRoots_misaligned_never_returns (start end_ : Z) (fuel : nat) (h : heap) :
  (end_ - start) mod 4 <> 0 -> markRoots rt fuel h start end_ = None.
Proof.
  intros Hmis. revert start h Hmis.
  induction fuel as [| fuel IH]; intros start h Hmis; [reflexivity |].
  cbn [markRoots].
  replace (start =? end_) with false.
  - destruct (markRoot rt (markRoots rt fuel) h start (load rt start)) as [h1 |];
      [| reflexivity].
    apply IH. intros Heq. apply Hmis.
    rewrite Zminus_mod in Heq |- *. now rewrite uintptr_next_word in Heq.
  - symmetry. apply Z.eqb_neq. intros ->. apply Hmis.
    now rewrite Z.sub_diag.
Qed.
End Misaligned.

Section MisalignedExample.
Import Word GC.
Local Open Scope Z_scope.

Lemma markRoots_misaligned_never_returns_witness :
  markRoots cyclic_rt 1000 cyclic_heap 2042 2048 = None.
Proof. apply markRoots_misaligned_never_returns. discriminate. Defined.
End MisalignedExample.

(** ** The read-only analysis *)

Section ReadOnlyTheorems.
Import IR Optimizer.
Variable m : module.
Variable rk : nat -> nat.
Hypothesis Hrk : gep_ranked m rk.

Lemma readonly_walk_true self v uses :
  readonly_walk self m v uses = Some true <->
  forall u, In u uses ->
    match iop u with
    | GetElementPtr => self (VInst (iid u)) = Some true
    | Call => hasFlag m u v "readonly" = true
    | _ => False
    end.
Proof.
  induction uses as [| u uses IH]; cbn [readonly_walk].
  - split; [intros _ u [] | reflexivity].
  - split.
    + intros H u' [<- | Hin].
      * destruct (iop u); try discriminate.
        -- destruct (hasFlag m u v "readonly"); [reflexivity | discriminate].
        -- destruct (self (VInst (iid u))) as [[] |]; [reflexivity | discriminate | discriminate].
      * revert u' Hin. apply IH.
        destruct (iop u); try discriminate.
        -- destruct (hasFlag m u v "readonly"); [exact H | discriminate].
        -- destruct (self (VInst (iid u))) as [[] |]; [exact H | discriminate | discriminate].
    + intros H. pose proof (H u (or_introl eq_refl)) as Hu.
      assert (Hrest : readonly_walk self m v uses = Some true)
        by (apply IH; intros u' Hin; apply H; now right).
      destruct (iop u); try contradiction; now rewrite Hu.
Qed.

Lemma readonly_walk_false self v uses :
  readonly_walk self m v uses = Some false ->
  exists u, In u uses /\
    match iop u with
    | GetElementPtr => self (VInst (iid u)) = Some false
    | Call => hasFlag m u v "readonly" = false
    | _ => True
    end.
Proof.
  induction uses as [| u uses IH]; cbn [readonly_walk]; [discriminate |].
  intros H.
  assert (Hhere : match iop u with
                  | GetElementPtr => self (VInst (iid u)) = Some false
                  | Call => hasFlag m u v "readonly" = false
                  | _ => True
                  end \/ readonly_walk self m v uses = Some false).
  { destruct (iop u); auto.
    - destruct (hasFlag m u v "readonly"); auto.
    - destruct (self (VInst (iid u))) as [[] |]; auto; discriminate. }
  destruct Hhere as [Hu | Hrest].
  - exists u. split; [now left | exact Hu].
  - destruct (IH Hrest) as (u0 & Hin & Hu0). exists u0. split; [now right | exact Hu0].
Qed.

Lemma readonly_walk_mono (self self' : value -> option bool) v uses b :
  (forall x c, self x = Some c -> self' x = Some c) ->
  readonly_walk self m v uses = Some b -> readonly_walk self' m v uses = Some b.
Proof.
  intros Hm. induction uses as [| u uses IH]; cbn [readonly_walk]; [auto |].
  destruct (iop u); auto.
  - destruct (hasFlag m u v "readonly"); auto.
  - destruct (self (VInst (iid u))) as [[] |] eqn:E; try discriminate;
      rewrite (Hm _ _ E); auto.
Qed.

Lemma isReadOnly_rec_S fuel v b :
  isReadOnly_rec fuel m v = Some b -> isReadOnly_rec (S fuel) m v = Some b.
Proof.
  revert v b. induction fuel as [| fuel IH]; intros v b H; [discriminate |].
  cbn [isReadOnly_rec] in *. eapply readonly_walk_mono; [| exact H].
  intros x c. apply IH.
Qed.

Lemma isReadOnly_unfold v :
  isReadOnly m v = readonly_walk (isReadOnly_rec (S (mnext m)) m) m v (users m v).
Proof. reflexivity. Qed.

(** The recursive call one level down answers as [isReadOnly] does. *)
Lemma isReadOnly_inner u b :
  In u (all_insts m) -> iop u = GetElementPtr ->
  (isReadOnly_rec (S (mnext m)) m (VInst (iid u)) = Some b <->
   isReadOnly m (VInst (iid u)) = Some b).
Proof.
  intros Hin Hd. split; [apply isReadOnly_rec_S |]. intros H.
  destruct (isReadOnly_rec_total m rk Hrk (mnext m) (VInst (iid u))) as [b' Hb'].
  - intros u' Hin' Hd'. apply In_users in Hin' as [Hall' _].
    now destruct (Hrk u' Hall' Hd').
  - pose proof (isReadOnly_rec_S _ _ _ Hb') as Hb''.
    unfold isReadOnly, analysis_fuel in H. congruence.
Qed.

(** X11: With no cycle of GEPs in the use graph [isReadOnly] returns, and it
    returns true exactly when every use of the value is a call of a
    declared function whose parameters at the positions of the value all
    carry [readonly], or a GEP that is read-only in turn; any other use (a
    load, a bitcast, a call through a pointer) makes it return false. *)
Theorem isReadOnly_characterised (v : value) :
  (isReadOnly m v = Some true <->
   forall u, In u (users m v) -> reads_only m v u) /\
  (isReadOnly m v = Some false <->
   exists u, In u (users m v) /\ ~ reads_only m v u).
Proof.
  assert (Htrue : isReadOnly m v = Some true <->
                  forall u, In u (users m v) -> reads_only m v u).
  { rewrite isReadOnly_unfold, readonly_walk_true. split.
    - intros H u Hin. specialize (H u Hin).
      pose proof (In_users m u v Hin) as [Hall _].
      destruct (iop u) eqn:Eop; try contradiction.
      + apply hasFlag_spec in H as (name & fn & Hc & Hf & Hp).
        now apply (reads_only_call m v u name fn).
      + apply reads_only_gep; [assumption |]. now apply isReadOnly_inner.
    - intros H u Hin. specialize (H u Hin).
      pose proof (In_users m u v Hin) as [Hall _].
      destruct H as [name fn Hop Hc Hf Hp | Hop He].
      + rewrite Hop. apply hasFlag_spec. now exists name, fn.
      + rewrite Hop. now apply isReadOnly_inner. }
  split; [exact Htrue |]. split.
  - intros Hfalse. rewrite isReadOnly_unfold in Hfalse.
    apply readonly_walk_false in Hfalse as (u & Hin & Hu).
    exists u. split; [exact Hin |]. intros Hh.
    pose proof (In_users m u v Hin) as [Hall _].
    destruct Hh as [name fn Hop Hc Hf Hp | Hop He].
    + rewrite Hop in Hu.
      assert (hasFlag m u v "readonly" = true)
        by (apply hasFlag_spec; now exists name, fn).
      congruence.
    + rewrite Hop in Hu. apply (isReadOnly_inner u true Hall Hop) in He. congruence.
  - intros (u & Hin & Hnot).
    destruct (isReadOnly_total m rk Hrk v) as [[] Hb]; [| exact Hb].
    exfalso. apply Hnot. now apply Htrue.
Qed.
End ReadOnlyTheorems.

Section AnalysisEdges.
Import IR Optimizer Examples.

Lemma ranked_gep_ranked m rk : ranked m rk = true -> gep_ranked m rk.
Proof.
  intros Hrk u Hin Hop. apply (ranked_inst m rk Hrk u Hin).
  unfold is_derivation. now rewrite Hop.
Qed.

Lemma isReadOnly_characterised_witness :
  (isReadOnly read_through_gep (VInst 1) = Some true <->
   forall u, In u (users read_through_gep (VInst 1)) ->
             reads_only read_through_gep (VInst 1) u) /\
  (isReadOnly read_through_gep (VInst 1) = Some false <->
   exists u, In u (users read_through_gep (VInst 1)) /\
             ~ reads_only read_through_gep (VInst 1) u).
Proof.
  apply (isReadOnly_characterised read_through_gep (program_order read_through_gep)).
  apply ranked_gep_ranked. reflexivity.
Defined.

Lemma hasFlag_no_position m call param name fn kind :
  CalledValue call = VFunc name -> getFunc m name = Some fn ->
  (forall i, (i < ParamsCount fn)%nat -> Operand call i <> param) ->
  hasFlag m call param kind = true.
Proof.
  intros Hc Hf Hpos. apply hasFlag_spec. exists name, fn.
  split; [exact Hc |]. split; [exact Hf |].
  intros i Hi Hop. now apply Hpos in Hi.
Qed.

(** X12: [hasFlag] only looks at the declared parameters of the callee.  A
    value that calls of declared functions take past them (as a variadic
    argument) has every flag there, so when these calls are its only uses
    [doesEscape] answers that it does not escape and [isReadOnly] that it is
    never stored to, whatever the attributes of the callees. *)
Theorem analyses_ignore_variadic_arguments (m : module) (v : value) :
  (forall u, In u (users m v) ->
     iop u = Call /\
     exists name fn, CalledValue u = VFunc name /\ getFunc m name = Some fn /\
                     forall i, (i < ParamsCount fn)%nat -> Operand u i <> v) ->
  (forall u kind, In u (users m v) -> hasFlag m u v kind = true) /\
  doesEscape m v = Some false /\ isReadOnly m v = Some true.
Proof.
  intros H.
  assert (Hflag : forall u kind, In u (users m v) -> hasFlag m u v kind = true).
  { intros u kind Hin. destruct (H u Hin) as (_ & name & fn & Hc & Hf & Hpos).
    now apply (hasFlag_no_position m u v name fn). }
  split; [exact Hflag |]. split.
  - rewrite doesEscape_unfold. apply escape_walk_false. intros u Hin.
    destruct (H u Hin) as (-> & _). now apply Hflag.
  - rewrite isReadOnly_unfold. apply readonly_walk_true. intros u Hin.
    destruct (H u Hin) as (-> & _). now apply Hflag.
Qed.

Lemma analyses_ignore_variadic_arguments_witness :
  (forall u kind, In u (users variadic_call (VInst 1)) ->
                  hasFlag variadic_call u (VInst 1) kind = true) /\
  doesEscape variadic_call (VInst 1) = Some false /\
  isReadOnly variadic_call (VInst 1) = Some true.
Proof.
  apply (analyses_ignore_variadic_arguments variadic_call (VInst 1)).
  intros u [<- | []]. split; [reflexivity |].
  exists "printf"%string, (declare "printf" [[]]).
  split; [reflexivity |]. split; [reflexivity |].
  intros i Hi. assert (i = 0)%nat as -> by (cbn in Hi; lia). discriminate.
Defined.
End AnalysisEdges.

(** A loop whose body leaves the state alone. *)
Section LoopFacts.
Lemma for_each_fixed {S X : Type} (body : S -> X -> outcome S) (xs : list X) (s : S) :
  (forall x, In x xs -> body s x = Done s) -> for_each body xs s = Done s.
Proof.
  induction xs as [| x xs IH]; intros H; cbn [for_each]; [reflexivity |].
  rewrite (H x (or_introl eq_refl)). cbn [bind]. apply IH.
  intros y Hy. apply H. now right.
Qed.
End LoopFacts.

(** ** [OptimizeMaps] as a whole *)

Section MapsResult.
Import IR Optimizer.
Variable m : module.
Hypothesis Hwf : wf_module m = true.
Hypothesis Htyped : maps_typed m = true.

Let make := NamedFunction m "runtime.hashmapMake".
Let hbs := NamedFunction m "runtime.hashmapBinarySet".
Let hss := NamedFunction m "runtime.hashmapStringSet".

Lemma getFunc_map_blocks g m0 name :
  getFunc (map_blocks g m0) name = None <-> getFunc m0 name = None.
Proof.
  unfold getFunc, map_blocks. cbn [mfuncs].
  induction (mfuncs m0) as [| f fs IH]; cbn [map find fname]; [reflexivity |].
  destruct (String.eqb (fname f) name); [split; discriminate | exact IH].
Qed.

Lemma NamedFunction_map_blocks g m0 name :
  NamedFunction (map_blocks g m0) name = NamedFunction m0 name.
Proof.
  unfold NamedFunction. pose proof (getFunc_map_blocks g m0 name) as H.
  destruct (getFunc (map_blocks g m0) name), (getFunc m0 name); try reflexivity.
  - discriminate (proj2 H eq_refl).
  - discriminate (proj1 H eq_refl).
Qed.

Lemma NamedFunction_remove_all ids m0 name :
  NamedFunction (remove_all ids m0) name = NamedFunction m0 name.
Proof. apply NamedFunction_map_blocks. Qed.

(** The whole pass, as one erasure. *)
Lemma OptimizeMaps_run :
  exists ids,
    OptimizeMaps m = Done (remove_all ids m) /\
    forall id, In id ids <-> doomed_by m (users m make) id.
Proof.
  destruct (maps_loop m Hwf Htyped (users m make) [] []) as (ids & Erun & Hids).
  - auto.
  - apply (users_NoDup m make Hwf).
  - intros k [].
  - intros k [].
  - intros id. split; [intros [] | intros (k & [] & _)].
  - cbn [app] in Hids. rewrite remove_all_nil in Erun.
    unfold OptimizeMaps. fold make hbs hss.
    destruct (IsNil make) eqn:En; [| exists ids; split; assumption].
    exists []. split; [now rewrite remove_all_nil |].
    intros id. split; [intros [] |]. intros (k & Hk & _).
    destruct make; try discriminate. contradiction.
Qed.

Lemma same_shape_refl (R : list inst -> list inst -> Prop) m0 :
  (forall b, R b b) -> same_shape R m0 m0.
Proof.
  intros HR. unfold same_shape.
  induction (mfuncs m0) as [| f fs IH]; constructor; [| exact IH].
  repeat split. induction (fblocks f); constructor; auto.
Qed.

Lemma same_shape_remove_all ids m0 :
  same_shape (fun b b' => b' = filter (fun i => negb (mem_id ids i)) b)
             m0 (remove_all ids m0).
Proof.
  unfold remove_all.
  apply (same_shape_map_blocks (fun b b' => b' = b)).
  - intros b b' ->. reflexivity.
  - now apply same_shape_refl.
Qed.

(** X17: [OptimizeMaps] does nothing but erase.  It returns the module it
    got without the instructions that take the function [hashmapMake] as
    an operand (calls of it, and whatever else uses it as a value: the
    pass does not tell them apart) and whose results nothing uses but
    calls of [hashmapBinarySet] and [hashmapStringSet], and without these
    calls.  Where [hashmapMake] is only ever called, what is erased is a
    call of [hashmapMake] or of one of the two set functions.  The
    functions, their parameters and blocks, the identifier supply and
    every other instruction are as they were, in the order they had. *)
Theorem OptimizeMaps_only_erases :
  exists ids,
    OptimizeMaps m = Done (remove_all ids m) /\
    (forall id, In id ids <->
                doomed_by m (users m (NamedFunction m "runtime.hashmapMake")) id) /\
    ((forall k, In k (users m (NamedFunction m "runtime.hashmapMake")) ->
                direct_call (NamedFunction m "runtime.hashmapMake") k = true) ->
     forall id, In id ids ->
                exists i, getInst m id = Some i /\
                          (direct_call (NamedFunction m "runtime.hashmapMake") i = true \/
                           is_update (NamedFunction m "runtime.hashmapBinarySet")
                                     (NamedFunction m "runtime.hashmapStringSet") i = true)) /\
    same_shape (fun b b' => b' = filter (fun i => negb (mem_id ids i)) b)
               m (remove_all ids m) /\
    mnext (remove_all ids m) = mnext m /\
    (forall i, In i (all_insts m) -> ~ In (iid i) ids ->
               getInst (remove_all ids m) (iid i) = Some i) /\
    (forall id, In id ids -> getInst (remove_all ids m) id = None).
Proof.
  destruct OptimizeMaps_run as (ids & Erun & Hids).
  exists ids. split; [exact Erun |]. split; [exact Hids |].
  split; [| split; [apply same_shape_remove_all | split; [reflexivity | split]]].
  - intros Hcalls id Hid. apply Hids in Hid as (k & Hk & Hup & [-> | Huse]).
    + exists k. split; [| left; now apply Hcalls].
      apply getInst_unique; [assumption |]. apply (users_In m _ k Hk).
    + unfold getUses in Huse. apply in_map_iff in Huse as (u & <- & Hu).
      exists u. split; [| right; now apply (only_updated_use m k u)].
      apply getInst_unique; [assumption |]. apply (users_In m _ u Hu).
  - intros i Hi Hout. now apply getInst_remove_all_out.
  - intros id Hid. now apply getInst_remove_all_in.
Qed.

(** X18: Running [OptimizeMaps] on its own result changes nothing: every map
    that is left has a use that is no write. *)
Theorem OptimizeMaps_idempotent :
  exists m', OptimizeMaps m = Done m' /\ OptimizeMaps m' = Done m'.
Proof.
  destruct OptimizeMaps_run as (ids & Erun & Hids).
  exists (remove_all ids m). split; [exact Erun |].
  unfold OptimizeMaps. rewrite !NamedFunction_remove_all. fold make hbs hss.
  destruct (IsNil make) eqn:En; [reflexivity |].
  apply for_each_fixed. intros id Hid. unfold getUses in Hid.
  apply in_map_iff in Hid as (k & <- & Hk).
  rewrite users_remove_all in Hk. apply filter_In in Hk as [Hk Hout].
  assert (Hnot : ~ In (iid k) ids).
  { intros Hin. apply mem_id_In in Hin. rewrite Hin in Hout. discriminate. }
  pose proof (users_In m make k Hk) as [Hka _].
  assert (Hup : only_updated m k = false).
  { destruct (only_updated m k) eqn:E; [| reflexivity].
    exfalso. apply Hnot, Hids. exists k. auto. }
  destruct (not_doomed m Hwf Htyped (users m make) k (fun _ H => H) Hk) as [Hk1 Hk2].
  { intros k' Hin' Hup' Heq.
    pose proof (same_id m Hwf k' k (proj1 (users_In m make k' Hin')) Hka Heq) as ->.
    congruence. }
  unfold hbs, hss. rewrite (maps_body_step m Hwf ids k Hka Hnot).
  - now rewrite Hup.
  - intros u Hu. rewrite Hids. now apply Hk2.
  - unfold getUses. intros Hin. apply in_map_iff in Hin as (u & Hidu & Hu).
    apply In_users in Hu as [Hua Huo].
    pose proof (same_id m Hwf u k Hua Hka Hidu) as ->.
    now apply (makes_take_no_map m Htyped k k Hk Hk).
Qed.
End MapsResult.

Section MapsResultExamples.
Import IR Optimizer Examples.

Lemma OptimizeMaps_only_erases_witness :
  exists ids,
    OptimizeMaps two_maps = Done (remove_all ids two_maps) /\
    (forall id, In id ids <->
                doomed_by two_maps
                          (users two_maps (NamedFunction two_maps "runtime.hashmapMake")) id) /\
    ((forall k, In k (users two_maps (NamedFunction two_maps "runtime.hashmapMake")) ->
                direct_call (NamedFunction two_maps "runtime.hashmapMake") k = true) ->
     forall id, In id ids ->
                exists i, getInst two_maps id = Some i /\
                          (direct_call (NamedFunction two_maps "runtime.hashmapMake") i = true \/
                           is_update (NamedFunction two_maps "runtime.hashmapBinarySet")
                                     (NamedFunction two_maps "runtime.hashmapStringSet") i
                           = true)) /\
    same_shape (fun b b' => b' = filter (fun i => negb (mem_id ids i)) b)
               two_maps (remove_all ids two_maps) /\
    mnext (remove_all ids two_maps) = mnext two_maps /\
    (forall i, In i (all_insts two_maps) -> ~ In (iid i) ids ->
               getInst (remove_all ids two_maps) (iid i) = Some i) /\
    (forall id, In id ids -> getInst (remove_all ids two_maps) id = None).
Proof. apply (OptimizeMaps_only_erases two_maps); reflexivity. Defined.

Lemma OptimizeMaps_idempotent_witness :
  exists m', OptimizeMaps two_maps = Done m' /\ OptimizeMaps m' = Done m'.
Proof. apply (OptimizeMaps_idempotent two_maps); reflexivity. Defined.

(** The maps of [two_maps]: the first and its write go, the second stays
    with its write and its read. *)
Example OptimizeMaps_two_maps :
  OptimizeMaps two_maps = Done (remove_all [1; 2] two_maps) /\
  map iid (all_insts (remove_all [1; 2] two_maps)) = [3; 4; 5; 6].
Proof. split; reflexivity. Qed.

(** A use of [hashmapMake] that is no call of it is erased like a map
    that is only written: the module is well formed and typed as the map
    functions are, and the pass erases the store and the call of
    [register]. *)
Example OptimizeMaps_erases_uses_as_value :
  wf_module make_as_value = true /\ maps_typed make_as_value = true /\
  OptimizeMaps make_as_value = Done (remove_all [1; 2] make_as_value) /\
  map iid (all_insts (remove_all [1; 2] make_as_value)) = [3].
Proof. repeat split; reflexivity. Qed.
End MapsResultExamples.

(** ** Edges of the rewrites *)

Section TrapWithoutTrap.
Import IR Optimizer.
Variable m : module.

Lemma trap_before_nil fn mc use mc' : trap_before VNil fn mc use <> Done mc'.
Proof.
  unfold trap_before, live, CreateCall. destruct (getInst mc use) as [u |];
    cbn [bind]; [| discriminate].
  destruct (negb (IsACallInst u) || negb (value_eqb (CalledValue u) fn));
    discriminate.
Qed.

Lemma trap_uses_of_nil mc name mc' :
  trap_uses_of VNil mc name = Done mc' ->
  mc' = mc /\ getUses mc (NamedFunction mc name) = [].
Proof.
  unfold trap_uses_of. set (fn := NamedFunction mc name).
  destruct (IsNil fn) eqn:En.
  - intros [= <-]. split; [reflexivity |]. destruct fn; try discriminate. reflexivity.
  - destruct (getUses mc fn) as [| use rest]; cbn [for_each].
    + intros [= <-]. split; reflexivity.
    + destruct (trap_before VNil fn mc use) eqn:E; cbn [bind]; try discriminate.
      now apply trap_before_nil in E.
Qed.

Lemma trap_uses_of_none trap mc name :
  getUses mc (NamedFunction mc name) = [] -> trap_uses_of trap mc name = Done mc.
Proof.
  intros H. unfold trap_uses_of. rewrite H.
  now destruct (IsNil (NamedFunction mc name)).
Qed.

(** X16: The pass does not check that [llvm.trap] is declared.  When it is not,
    the pass returns (the module unchanged) if no panic function has a use,
    and does not return normally if one has: the first use makes it panic
    or ask the builder for a call of the nil value. *)
Theorem replacePanicsWithTrap_without_trap :
  NamedFunction m "llvm.trap" = VNil ->
  (panic_uses m = [] -> replacePanicsWithTrap m = Done m) /\
  (panic_uses m <> [] -> forall m', replacePanicsWithTrap m <> Done m').
Proof.
  intros Htrap. unfold replacePanicsWithTrap, panic_uses, panic_names.
  rewrite Htrap. cbn [for_each flat_map]. rewrite app_nil_r. split.
  - intros Hnone. apply app_eq_nil in Hnone as [H1 H2].
    rewrite (trap_uses_of_none VNil m _ H1). cbn [bind].
    rewrite (trap_uses_of_none VNil m _ H2). reflexivity.
  - intros Hsome m' Hrun. apply Hsome.
    destruct (trap_uses_of VNil m "runtime._panic") as [m1 | | |] eqn:E1;
      cbn [bind] in Hrun; try discriminate.
    apply trap_uses_of_nil in E1 as [-> H1].
    destruct (trap_uses_of VNil m "runtime.runtimePanic") as [m2 | | |] eqn:E2;
      cbn [bind] in Hrun; try discriminate.
    apply trap_uses_of_nil in E2 as [_ H2].
    now rewrite H1, H2.
Qed.
End TrapWithoutTrap.

Section AllocsKept.
Import IR Optimizer.
Local Open Scope Z_scope.
Variable alignment : Z.
Variable m : module.
Hypothesis Hwf : wf_module m = true.

Lemma alloc_body_escapes heapalloc h n :
  getInst m heapalloc = Some h -> Operand h 0 = VConstInt n ->
  doesEscape m (VInst (iid (effective_value m h))) = Some true ->
  alloc_body alignment m heapalloc = Done m.
Proof.
  intros Hh Hop Hesc. unfold alloc_body, live. rewrite Hh. cbn [bind]. rewrite Hop.
  cbn [IsAConstant negb ZExtValue bind].
  destruct (256 <? n mod 2 ^ 64); [reflexivity |].
  rewrite Hesc. reflexivity.
Qed.

(** X15: [OptimizeAllocs] returns the module as it got it when every call of
    [runtime.alloc] has a size that is no constant, a constant size above
    256 bytes (read as an unsigned 64-bit integer), or a value that
    [doesEscape] finds to escape: no object is moved to the stack but
    small ones that do not escape. *)
Theorem OptimizeAllocs_keeps_the_rest :
  (forall u, In u (users m (NamedFunction m "runtime.alloc")) ->
     IsAConstant (Operand u 0) = false \/
     exists n, Operand u 0 = VConstInt n /\
               (256 < n mod 2 ^ 64 \/
                doesEscape m (VInst (iid (effective_value m u))) = Some true)) ->
  OptimizeAllocs alignment m = Done m.
Proof.
  intros H. unfold OptimizeAllocs.
  destruct (IsNil (NamedFunction m "runtime.alloc")); [reflexivity |].
  apply for_each_fixed. intros id Hid. unfold getUses in Hid.
  apply in_map_iff in Hid as (u & <- & Hu).
  pose proof (users_In m _ u Hu) as [Hua _].
  pose proof (getInst_unique m u Hwf Hua) as Hget.
  destruct (H u Hu) as [Hc | (n & Hop & [Hbig | Hesc])].
  - now apply (alloc_body_not_constant alignment m (iid u) u).
  - unfold alloc_body, live. rewrite Hget. cbn [bind]. rewrite Hop.
    cbn [IsAConstant negb ZExtValue bind].
    replace (256 <? n mod 2 ^ 64) with true by (symmetry; now apply Z.ltb_lt).
    reflexivity.
  - now apply (alloc_body_escapes (iid u) u n).
Qed.
End AllocsKept.

Section UnknownField.
Import IR Optimizer.
Variable m : module.
Variable call : nat.
Variable c : inst.
Hypothesis Hwf : wf_module m = true.
Hypothesis Hc : getInst m call = Some c.

Lemma s2b_use_other strptr strlen flag p :
  In p (all_insts m) -> IsAExtractValueInst p = false ->
  s2b_use strptr strlen (m, flag) (iid p) = Done (m, false).
Proof.
  intros Hin Hp. unfold s2b_use, live. rewrite (getInst_unique m p Hwf Hin).
  cbn [bind]. now rewrite Hp.
Qed.

(** X19: The uses of a [stringToBytes] call that are no extractvalue are left
    alone; the first extractvalue after them whose type is neither an
    integer nor a pointer makes the pass panic. *)
Theorem stringToBytes_unknown_field_panics (pre post : list inst) (u : inst) :
  users m (VInst call) = pre ++ u :: post ->
  (forall p, In p pre -> IsAExtractValueInst p = false) ->
  IsAExtractValueInst u = true ->
  TypeKind (ity u) <> IntegerTypeKind -> TypeKind (ity u) <> PointerTypeKind ->
  s2b_call m call = Panic "unknown return type of runtime.stringToBytes".
Proof.
  intros Husers Hpre Hu Hint Hptr.
  assert (Hall : forall x, In x (pre ++ u :: post) -> In x (all_insts m)).
  { intros x Hx. rewrite <- Husers in Hx. now apply (users_In m _ x Hx). }
  unfold s2b_call, live. rewrite Hc. cbn [bind]. unfold getUses. rewrite Husers.
  assert (Hloop : forall flag,
            for_each (s2b_use (Operand c 0) (Operand c 1))
                     (map iid (pre ++ u :: post)) (m, flag)
            = Panic "unknown return type of runtime.stringToBytes").
  { clear Husers. induction pre as [| p pre IH]; intros flag.
    - cbn [app map for_each]. unfold s2b_use at 1, live.
      rewrite (getInst_unique m u Hwf (Hall u (or_introl eq_refl))). cbn [bind].
      rewrite Hu. cbn [negb].
      destruct (TypeKind (ity u)); try reflexivity; congruence.
    - cbn [app map for_each].
      rewrite s2b_use_other; [| apply Hall; now left | apply Hpre; now left].
      cbn [bind]. apply IH.
      + intros q Hq. apply Hpre. now right.
      + intros x Hx. apply Hall. now right. }
  now rewrite Hloop.
Qed.
End UnknownField.

Section WithoutExtracts.
Import IR Optimizer.
Variable m : module.
Variable call : nat.
Variable c : inst.
Hypothesis Hwf : wf_module m = true.
Hypothesis Hc : getInst m call = Some c.

(** X20: A [stringToBytes] call none of whose uses is an extractvalue is left
    in place with its uses when it has uses, and erased when it has none. *)
Theorem stringToBytes_call_without_extracts :
  (forall u, In u (users m (VInst call)) -> IsAExtractValueInst u = false) ->
  s2b_call m call =
  Done (match users m (VInst call) with
        | [] => remove_inst call m
        | _ :: _ => m
        end).
Proof.
  intros Hnone. unfold s2b_call, live. rewrite Hc. cbn [bind]. unfold getUses.
  assert (Hloop : forall us flag,
            (forall u, In u us -> In u (users m (VInst call))) ->
            for_each (s2b_use (Operand c 0) (Operand c 1)) (map iid us) (m, flag)
            = Done (m, match us with [] => flag | _ :: _ => false end)).
  { induction us as [| u us IH]; intros flag Hus; cbn [map for_each]; [reflexivity |].
    assert (Hu : In u (users m (VInst call))) by (apply Hus; now left).
    rewrite (s2b_use_other m Hwf); [| now apply (users_In m _ u Hu) | now apply Hnone].
    cbn [bind]. rewrite IH by (intros x Hx; apply Hus; now right).
    now destruct us. }
  rewrite Hloop by auto. cbn [bind].
  destruct (users m (VInst call)); [| reflexivity].
  unfold EraseFromParentAsInstruction. now rewrite Hc.
Qed.
End WithoutExtracts.

Section PassExamples.
Import IR Optimizer Examples.
Local Open Scope Z_scope.

Lemma replacePanicsWithTrap_without_trap_witness :
  (panic_uses panic_without_trap = [] ->
   replacePanicsWithTrap panic_without_trap = Done panic_without_trap) /\
  (panic_uses panic_without_trap <> [] ->
   forall m', replacePanicsWithTrap panic_without_trap <> Done m').
Proof. apply (replacePanicsWithTrap_without_trap panic_without_trap). reflexivity. Defined.

Lemma OptimizeAllocs_keeps_the_rest_witness :
  OptimizeAllocs 4 unpromoted_allocs = Done unpromoted_allocs.
Proof.
  apply (OptimizeAllocs_keeps_the_rest 4 unpromoted_allocs); [reflexivity |].
  intros u [<- | [<- | []]].
  - left. reflexivity.
  - right. exists 300. split; [reflexivity |]. left. reflexivity.
Defined.

Lemma stringToBytes_unknown_field_panics_witness :
  s2b_call unknown_field 1 = Panic "unknown return type of runtime.stringToBytes".
Proof.
  apply (stringToBytes_unknown_field_panics unknown_field 1
           (mk 1 Call [VConstOther 0; VConstInt 2; VFunc "runtime.stringToBytes"]
               (TOther 1))
           eq_refl eq_refl
           [mk 2 Store [VInst 1; VArg "main" 0] TVoid] []
           (mk 3 ExtractValue [VInst 1] (TArray (TInt 8) 2)));
    try reflexivity; try discriminate.
  intros p [<- | []]. reflexivity.
Defined.

Lemma stringToBytes_call_without_extracts_witness :
  s2b_call whole_slices 3 = Done (remove_inst 3 whole_slices) /\
  s2b_call whole_slices 1 = Done whole_slices.
Proof.
  split.
  - apply (stringToBytes_call_without_extracts whole_slices 3
             (mk 3 Call [VConstOther 1; VConstInt 3; VFunc "runtime.stringToBytes"]
                 (TOther 1)) eq_refl eq_refl).
    intros u [].
  - apply (stringToBytes_call_without_extracts whole_slices 1
             (mk 1 Call [VConstOther 0; VConstInt 2; VFunc "runtime.stringToBytes"]
                 (TOther 1)) eq_refl eq_refl).
    intros u [<- | []]. reflexivity.
Defined.
End PassExamples.

(** ** The lowering of [runtime.isnil] *)

Section IsNilStep.
Import IR Optimizer.
Variable typeOfOperand : value -> ty.
Variable m : module.
Variable use : nat.
Variable u : inst.
Variable ptr : value.
Variable t : ty.
Hypothesis Hfresh : forall i, In i (all_insts m) -> (iid i < mnext m)%nat.
Hypothesis Hu : getInst m use = Some u.
Hypothesis Hptr : strip_bitcast m (Operand u 0) = Done ptr.
Hypothesis Ht : TypeOf typeOfOperand m ptr = Done t.
Hypothesis Hkind : TypeKind t = PointerTypeKind.
Hypothesis Hself : ptr <> VInst use.

Let k := mnext m.
Let icmp := isnil_icmp k ptr t.

Lemma use_below : (use < k)%nat.
Proof.
  apply getInst_In in Hu as [Hin <-]. now apply Hfresh.
Qed.

Lemma icmp_fixed : subst_inst (VInst use) (VInst k) icmp = icmp.
Proof.
  unfold subst_inst, icmp, isnil_icmp. cbn [iid iop ioperands ity map]. f_equal.
  unfold subst_value. f_equal.
  destruct (value_eqb ptr (VInst use)) eqn:E; [| reflexivity].
  apply value_eqb_eq in E. contradiction.
Qed.

Lemma replace_block (b : list inst) :
  filter (fun i => negb (has_id use i))
         (map (subst_inst (VInst use) (VInst k)) (place_before use icmp b))
  = map (fun i => if has_id use i then icmp
                  else subst_inst (VInst use) (VInst k) i) b.
Proof.
  pose proof use_below as Hlt.
  unfold place_before. induction b as [| i b IH]; [reflexivity |].
  cbn [flat_map map]. destruct (has_id use i) eqn:Ei.
  - cbn [app map filter]. rewrite icmp_fixed.
    replace (has_id use icmp) with false
      by (symmetry; unfold has_id, icmp, isnil_icmp; cbn [iid]; apply Nat.eqb_neq; lia).
    cbn [negb].
    replace (has_id use (subst_inst (VInst use) (VInst k) i)) with true
      by (symmetry; exact Ei).
    cbn [negb]. f_equal. exact IH.
  - cbn [app map filter].
    replace (has_id use (subst_inst (VInst use) (VInst k) i)) with false
      by (symmetry; exact Ei).
    cbn [negb]. f_equal. exact IH.
Qed.

(** One iteration of the loop: the use is replaced, where it stands, by
    the comparison of its pointer with the null pointer of its type. *)
Lemma lower_isnil_use_run :
  lower_isnil_use typeOfOperand m use
  = Done (replace_inst use (isnil_icmp (mnext m) ptr t) m) /\
  getInst (replace_inst use (isnil_icmp (mnext m) ptr t) m) use = None /\
  getInst (replace_inst use (isnil_icmp (mnext m) ptr t) m) (mnext m)
  = Some (isnil_icmp (mnext m) ptr t).
Proof.
  fold k icmp.
  pose proof use_below as Hlt.
  pose proof (getInst_In m use u Hu) as [Huin Huid].
  assert (Hrun : lower_isnil_use typeOfOperand m use = Done (replace_inst use icmp m)).
  { unfold lower_isnil_use, live. rewrite Hu. cbn [bind]. rewrite Hptr. cbn [bind].
    rewrite Ht. cbn [bind]. unfold ConstPointerNull. rewrite Hkind. cbn [bind].
    unfold CreateICmp.
    rewrite create_before_form by (exists u; split; assumption). cbn [bind].
    fold k. fold (isnil_icmp k ptr t). fold icmp.
    set (m1 := {| mfuncs := mfuncs (map_blocks (place_before use icmp) m);
                  mnext := S k |}).
    rewrite (erase_form (ReplaceAllUsesWith m1 (VInst use) (VInst k)) use).
    2:{ exists (subst_inst (VInst use) (VInst k) u). split; [| exact Huid].
        rewrite all_insts_subst. apply in_map.
        unfold all_insts, m1. cbn [mfuncs].
        fold (all_insts (map_blocks (place_before use icmp) m)).
        rewrite all_insts_place_before. apply In_place_before. left. exact Huin. }
    f_equal. subst m1. unfold remove_inst, ReplaceAllUsesWith, replace_inst, map_blocks.
    cbn [mfuncs mnext]. f_equal. rewrite !map_map. apply map_ext.
    intros f. cbn [fname fparams fblocks]. f_equal. rewrite !map_map.
    apply map_ext. intros b. apply replace_block. }
  split; [exact Hrun |].
  assert (Hall : all_insts (replace_inst use icmp m)
                 = map (fun i => if has_id use i then icmp
                                 else subst_inst (VInst use) (VInst k) i)
                       (all_insts m)).
  { change (all_insts (replace_inst use icmp m))
      with (all_insts (map_blocks
                         (map (fun i => if has_id use i then icmp
                                        else subst_inst (VInst use) (VInst (iid icmp)) i))
                         m)).
    apply all_insts_map. }
  unfold getInst. rewrite Hall. split.
  - assert (Hnone : forall l,
              find (has_id use)
                   (map (fun i => if has_id use i then icmp
                                  else subst_inst (VInst use) (VInst k) i) l) = None).
    { induction l as [| i l IH]; [reflexivity |]. cbn [map find].
      destruct (has_id use i) eqn:Ei.
      - replace (has_id use icmp) with false; [exact IH |].
        symmetry. unfold has_id, icmp, isnil_icmp. cbn [iid]. apply Nat.eqb_neq. lia.
      - replace (has_id use (subst_inst (VInst use) (VInst k) i)) with false
          by (symmetry; exact Ei).
        exact IH. }
    apply Hnone.
  - assert (Hsome : forall l,
              (forall i, In i l -> (iid i < k)%nat) -> In u l ->
              find (has_id k)
                   (map (fun i => if has_id use i then icmp
                                  else subst_inst (VInst use) (VInst k) i) l)
              = Some icmp).
    { induction l as [| i l IH]; intros Hl Hin; [contradiction |]. cbn [map find].
      destruct (has_id use i) eqn:Ei.
      - replace (has_id k icmp) with true; [reflexivity |].
        symmetry. unfold has_id, icmp, isnil_icmp. cbn [iid]. apply Nat.eqb_refl.
      - replace (has_id k (subst_inst (VInst use) (VInst k) i)) with false.
        + apply IH; [intros x Hx; apply Hl; now right |].
          destruct Hin as [-> | Hin]; [| exact Hin].
          unfold has_id in Ei. rewrite Huid, Nat.eqb_refl in Ei. discriminate.
        + symmetry. unfold has_id, subst_inst. cbn [iid]. apply Nat.eqb_neq.
          specialize (Hl i (or_introl eq_refl)). lia. }
    apply Hsome; [exact Hfresh | exact Huin].
Qed.
End IsNilStep.

Section PlanFacts.
Import IR Optimizer.

Lemma planned_In rs x c : planned rs x = Some c -> In (x, c) rs.
Proof.
  unfold planned. destruct (find _ rs) as [[y c'] |] eqn:E; [| discriminate].
  cbn. intros [= <-]. apply find_some in E as [Hin Hy]. cbn in Hy.
  apply Nat.eqb_eq in Hy. now subst.
Qed.

Lemma planned_none rs x : ~ In x (map fst rs) -> planned rs x = None.
Proof.
  intros H. destruct (planned rs x) as [c |] eqn:E; [| reflexivity].
  exfalso. apply H. apply planned_In in E.
  change x with (fst (x, c)). now apply in_map.
Qed.

Lemma planned_app rs x c y :
  planned (rs ++ [(x, c)]) y =
  match planned rs y with
  | Some c' => Some c'
  | None => if Nat.eqb x y then Some c else None
  end.
Proof.
  unfold planned. induction rs as [| [z c'] rs IH]; cbn [app find fst].
  - destruct (Nat.eqb x y); reflexivity.
  - destruct (Nat.eqb z y); [reflexivity | exact IH].
Qed.

Lemma is_result_of_In ids x : is_result_of ids (VInst x) = true <-> In x ids.
Proof.
  cbn. rewrite existsb_exists. split.
  - intros (y & Hy & E). apply Nat.eqb_eq in E. now subst.
  - intros H. exists x. split; [assumption | apply Nat.eqb_refl].
Qed.

Lemma plan_value_fixed rs ids v :
  (forall r, In r rs -> In (fst r) ids) ->
  is_result_of ids v = false -> plan_value rs v = v.
Proof.
  intros Hdom Hv. destruct v as [| x | | | | |]; try reflexivity.
  cbn [plan_value]. destruct (planned rs x) as [c |] eqn:E; [| reflexivity].
  apply planned_In in E. apply Hdom in E. cbn in E.
  apply is_result_of_In in E. congruence.
Qed.

Lemma Operand_rewrite s i n :
  s VNil = VNil -> Operand (rewrite_inst s i) n = s (Operand i n).
Proof.
  intros Hs. unfold Operand, rewrite_inst. cbn [ioperands].
  rewrite <- Hs at 1. apply map_nth.
Qed.

Lemma map_blocks_map_ext_in (g g' : inst -> inst) m :
  (forall i, In i (all_insts m) -> g i = g' i) ->
  map_blocks (map g) m = map_blocks (map g') m.
Proof.
  intros H. unfold map_blocks. f_equal. apply map_ext_in. intros f Hf.
  f_equal. apply map_ext_in. intros b Hb. apply map_ext_in. intros i Hi.
  apply H. unfold all_insts. apply in_flat_map. exists f. split; [assumption |].
  unfold func_insts. apply in_concat. exists b. split; assumption.
Qed.

Lemma all_insts_lowered rs m :
  all_insts (lowered rs m) = map (plan_inst rs) (all_insts m).
Proof.
  unfold lowered, all_insts. cbn [mfuncs].
  fold (all_insts (map_blocks (map (plan_inst rs)) m)).
  fold (all_insts m). apply all_insts_map.
Qed.
End PlanFacts.

Section IsNilLoop.
Import IR Optimizer.
Variable typeOfOperand : value -> ty.
Variable m : module.
Hypothesis Hwf : wf_module m = true.
Hypothesis Htyped : isnil_typed typeOfOperand m = true.

Let isnil := NamedFunction m "runtime.isnil".
Let ids := getUses m isnil.
Let k := mnext m.

(** A plan in the middle of the loop: it replaces uses of [runtime.isnil]
    by comparisons with fresh identifiers whose pointer is no result of a
    use. *)
Let good_plan (rs : list (nat * inst)) : Prop :=
  forall r, In r rs ->
    In (fst r) ids /\ (k <= iid (snd r) < k + List.length rs)%nat /\
    exists p t, snd r = isnil_icmp (iid (snd r)) p t /\
                is_result_of ids p = false /\ p <> isnil.

Lemma use_ok u :
  In u (users m isnil) ->
  is_result_of ids (Operand u 0) = false /\
  exists p t,
    strip_bitcast m (Operand u 0) = Done p /\
    TypeOf typeOfOperand m p = Done t /\ TypeKind t = PointerTypeKind /\
    is_result_of ids p = false /\ p <> isnil.
Proof.
  intros Hu. unfold isnil_typed in Htyped. cbv zeta in Htyped.
  rewrite forallb_forall in Htyped. specialize (Htyped u Hu).
  unfold isnil_use_ok in Htyped. fold isnil in Htyped.
  change (map iid (users m isnil)) with ids in Htyped.
  apply andb_prop in Htyped as [H1 H2]. apply negb_true_iff in H1.
  split; [exact H1 |].
  destruct (strip_bitcast m (Operand u 0)) as [p | | |] eqn:Es; try discriminate.
  apply andb_prop in H2 as [H2 H3]. apply andb_prop in H2 as [H2 H4].
  apply negb_true_iff in H2. apply negb_true_iff in H4. apply value_eqb_neq in H4.
  destruct (TypeOf typeOfOperand m p) as [t | | |] eqn:Et; try discriminate.
  exists p, t. repeat split; auto.
  unfold is_pointer in H3. destruct (TypeKind t); try discriminate. reflexivity.
Qed.

Lemma good_plan_dom rs : good_plan rs -> forall r, In r rs -> In (fst r) ids.
Proof. intros H r Hr. now destruct (H r Hr). Qed.

Lemma planned_id rs x c :
  good_plan rs -> planned rs x = Some c ->
  (k <= iid c < k + List.length rs)%nat /\
  exists p t, c = isnil_icmp (iid c) p t /\ is_result_of ids p = false /\ p <> isnil.
Proof.
  intros Hg E. apply planned_In in E. destruct (Hg _ E) as (_ & Hb & Hc).
  cbn [snd] in *. split; assumption.
Qed.

Lemma fresh_lowered rs :
  good_plan rs ->
  forall i, In i (all_insts (lowered rs m)) -> (iid i < mnext (lowered rs m))%nat.
Proof.
  intros Hg i Hi. rewrite all_insts_lowered in Hi.
  apply in_map_iff in Hi as (j & <- & Hj). cbn [lowered mnext]. fold k.
  unfold plan_inst. destruct (planned rs (iid j)) as [c |] eqn:E.
  - destruct (planned_id rs _ c Hg E) as [Hb _]. lia.
  - cbn [rewrite_inst iid]. pose proof (wf_module_fresh m j Hwf Hj). fold k in H. lia.
Qed.

Lemma getInst_lowered rs i :
  good_plan rs -> In i (all_insts m) -> ~ In (iid i) (map fst rs) ->
  getInst (lowered rs m) (iid i) = Some (rewrite_inst (plan_value rs) i).
Proof.
  intros Hg Hi Hout. unfold getInst. rewrite all_insts_lowered.
  pose proof (wf_module_ids m Hwf) as Hnd.
  assert (Hfresh : forall j, In j (all_insts m) -> (iid j < k)%nat)
    by (intros j Hj; now apply wf_module_fresh).
  revert Hi Hnd Hfresh. induction (all_insts m) as [| j l IH]; intros Hi Hnd Hfresh;
    [contradiction |].
  cbn [map find]. inversion Hnd as [| ? ? Hj Hl]; subst.
  destruct Hi as [-> | Hi].
  - unfold plan_inst. rewrite (planned_none rs (iid i) Hout).
    unfold has_id. cbn [rewrite_inst iid]. now rewrite Nat.eqb_refl.
  - replace (has_id (iid i) (plan_inst rs j)) with false.
    + apply IH; auto. intros x Hx. apply Hfresh. now right.
    + symmetry. unfold has_id. apply Nat.eqb_neq. unfold plan_inst.
      destruct (planned rs (iid j)) as [c |] eqn:E.
      * destruct (planned_id rs _ c Hg E) as [Hb _].
        specialize (Hfresh i (or_intror Hi)). lia.
      * cbn [rewrite_inst iid]. intros Heq. apply Hj. rewrite Heq.
        now apply in_map.
Qed.

Lemma not_result_not_planned rs x :
  good_plan rs -> is_result_of ids (VInst x) = false -> ~ In x (map fst rs).
Proof.
  intros Hg Hx Hin. apply in_map_iff in Hin as (r & <- & Hr).
  apply (good_plan_dom rs Hg) in Hr. apply is_result_of_In in Hr. congruence.
Qed.

Lemma strip_bitcast_lowered rs v p :
  good_plan rs -> is_result_of ids v = false -> is_result_of ids p = false ->
  strip_bitcast m v = Done p -> strip_bitcast (lowered rs m) v = Done p.
Proof.
  intros Hg Hv Hp. destruct v as [| j | | | | |]; try (intros H; exact H).
  cbn [strip_bitcast]. unfold live.
  destruct (getInst m j) as [b |] eqn:Eb; [| discriminate]. cbn [bind].
  pose proof (getInst_In m j b Eb) as [Hbin <-].
  rewrite (getInst_lowered rs b Hg Hbin (not_result_not_planned rs _ Hg Hv)).
  cbn [bind]. intros [= <-].
  replace (IsABitCastInst (rewrite_inst (plan_value rs) b)) with (IsABitCastInst b)
    by reflexivity.
  destruct (IsABitCastInst b); [| reflexivity].
  rewrite Operand_rewrite by reflexivity.
  rewrite (plan_value_fixed rs ids _ (good_plan_dom rs Hg) Hp). reflexivity.
Qed.

Lemma TypeOf_lowered rs p t :
  good_plan rs -> is_result_of ids p = false ->
  TypeOf typeOfOperand m p = Done t -> TypeOf typeOfOperand (lowered rs m) p = Done t.
Proof.
  intros Hg Hp. destruct p as [| j | | | | |]; try (intros H; exact H).
  cbn [TypeOf]. unfold live.
  destruct (getInst m j) as [b |] eqn:Eb; [| discriminate]. cbn [bind].
  pose proof (getInst_In m j b Eb) as [Hbin <-].
  rewrite (getInst_lowered rs b Hg Hbin (not_result_not_planned rs _ Hg Hp)).
  cbn [bind]. intros H. exact H.
Qed.

(** Replacing the next use extends the plan. *)
Lemma replace_inst_lowered rs x p t :
  good_plan rs -> In x ids -> ~ In x (map fst rs) ->
  is_result_of ids p = false ->
  replace_inst x (isnil_icmp (k + List.length rs) p t) (lowered rs m)
  = lowered (rs ++ [(x, isnil_icmp (k + List.length rs) p t)]) m.
Proof.
  intros Hg Hx Hout Hp.
  set (c := isnil_icmp (k + List.length rs) p t).
  assert (Hxk : (x < k)%nat).
  { unfold ids, getUses in Hx. apply in_map_iff in Hx as (u & <- & Hu).
    apply wf_module_fresh; [assumption |]. now apply (users_In m _ u Hu). }
  unfold replace_inst, lowered. f_equal.
  - unfold map_blocks at 1. cbn [mfuncs].
    change (mfuncs (map_blocks (map (plan_inst (rs ++ [(x, c)]))) m))
      with (map (fun f => {| fname := fname f; fparams := fparams f;
                             fblocks := map (map (plan_inst (rs ++ [(x, c)])))
                                            (fblocks f) |}) (mfuncs m)).
    unfold map_blocks. cbn [mfuncs]. rewrite map_map. apply map_ext_in.
    intros f Hf. cbn [fname fparams fblocks]. f_equal. rewrite map_map.
    apply map_ext_in. intros b Hb. rewrite map_map. apply map_ext_in.
    intros i Hi.
    assert (Hall : In i (all_insts m)).
    { unfold all_insts. apply in_flat_map. exists f. split; [assumption |].
      unfold func_insts. apply in_concat. exists b. split; assumption. }
    pose proof (wf_module_fresh m i Hwf Hall) as Hik. fold k in Hik.
    unfold plan_inst. rewrite planned_app.
    destruct (planned rs (iid i)) as [c' |] eqn:E.
    + destruct (planned_id rs _ c' Hg E) as (Hb' & p' & t' & Hc' & Hp' & _).
      replace (has_id x c') with false
        by (symmetry; unfold has_id; apply Nat.eqb_neq; lia).
      rewrite Hc'. unfold subst_inst, isnil_icmp. cbn [iid iop ioperands ity map].
      f_equal. f_equal. unfold subst_value.
      destruct (value_eqb p' (VInst x)) eqn:Ep; [| reflexivity].
      apply value_eqb_eq in Ep. subst p'. apply is_result_of_In in Hx. congruence.
    + unfold has_id. cbn [rewrite_inst iid]. rewrite (Nat.eqb_sym (iid i) x).
      destruct (Nat.eqb x (iid i)) eqn:Ex; [reflexivity |].
      unfold subst_inst, rewrite_inst. cbn [iid iop ioperands ity]. f_equal.
      rewrite map_map. apply map_ext. intros v.
      destruct v as [| y | | | | |]; try reflexivity.
      cbn [plan_value]. rewrite planned_app.
      destruct (planned rs y) as [c2 |] eqn:E2.
      * destruct (planned_id rs _ c2 Hg E2) as (Hb2 & _).
        unfold subst_value.
        destruct (value_eqb (VInst (iid c2)) (VInst x)) eqn:Ev; [| reflexivity].
        apply value_eqb_eq in Ev. injection Ev as Ev. lia.
      * unfold subst_value. destruct (Nat.eqb x y) eqn:Exy.
        -- apply Nat.eqb_eq in Exy. subst y.
           replace (value_eqb (VInst x) (VInst x)) with true
             by (symmetry; now apply value_eqb_eq).
           reflexivity.
        -- replace (value_eqb (VInst y) (VInst x)) with false; [reflexivity |].
           symmetry. apply value_eqb_neq. intros [= ->].
           rewrite Nat.eqb_refl in Exy. discriminate.
  - cbn [mnext]. rewrite length_app. cbn [List.length]. fold k. lia.
Qed.

Lemma good_plan_snoc rs x p t :
  good_plan rs -> In x ids -> is_result_of ids p = false -> p <> isnil ->
  good_plan (rs ++ [(x, isnil_icmp (k + List.length rs) p t)]).
Proof.
  intros Hg Hx Hp Hne r Hr. rewrite length_app. cbn [List.length].
  apply in_app_or in Hr as [Hr | [<- | []]].
  - destruct (Hg r Hr) as (H1 & H2 & H3). split; [exact H1 |]. split; [lia | exact H3].
  - cbn [fst snd isnil_icmp iid]. split; [exact Hx |]. split; [lia |].
    exists p, t. auto.
Qed.

(** The loop from the middle. *)
Lemma isnil_loop :
  forall us rs,
    good_plan rs ->
    (forall u, In u us -> In u (users m isnil) /\ ~ In (iid u) (map fst rs)) ->
    NoDup (map iid us) ->
    for_each (lower_isnil_use typeOfOperand) (map iid us) (lowered rs m)
    = Done (lowered (rs ++ isnil_plan typeOfOperand m (k + List.length rs) us) m) /\
    good_plan (rs ++ isnil_plan typeOfOperand m (k + List.length rs) us) /\
    map fst (isnil_plan typeOfOperand m (k + List.length rs) us) = map iid us.
Proof.
  induction us as [| u us IH]; intros rs Hg Hus Hnd.
  - cbn [map for_each isnil_plan]. rewrite app_nil_r. auto.
  - destruct (Hus u (or_introl eq_refl)) as [Hu Hout].
    destruct (use_ok u Hu) as (Hop & p & t & Hstrip & Htype & Hkind & Hp & Hne).
    pose proof (users_In m _ u Hu) as [Huin _].
    assert (Hx : In (iid u) ids) by (unfold ids, getUses; now apply in_map).
    inversion Hnd as [| ? ? Hfirst Hnd']; subst.
    cbn [map for_each isnil_plan]. rewrite Hstrip. cbn [bind]. rewrite Htype. cbn [bind].
    assert (Hrun : lower_isnil_use typeOfOperand (lowered rs m) (iid u)
                   = Done (replace_inst (iid u)
                             (isnil_icmp (mnext (lowered rs m)) p t) (lowered rs m))).
    { apply (lower_isnil_use_run typeOfOperand (lowered rs m) (iid u)
               (rewrite_inst (plan_value rs) u) p t).
      - now apply fresh_lowered.
      - now apply getInst_lowered.
      - rewrite Operand_rewrite by reflexivity.
        rewrite (plan_value_fixed rs ids _ (good_plan_dom rs Hg) Hop).
        now apply strip_bitcast_lowered.
      - now apply TypeOf_lowered.
      - exact Hkind.
      - intros ->. apply is_result_of_In in Hx. congruence. }
    rewrite Hrun. cbn [bind]. cbn [lowered mnext]. fold k.
    fold (lowered rs m).
    rewrite (replace_inst_lowered rs (iid u) p t Hg Hx Hout Hp).
    set (rs1 := rs ++ [(iid u, isnil_icmp (k + List.length rs) p t)]).
    assert (Hlen : List.length rs1 = S (List.length rs))
      by (unfold rs1; rewrite length_app; cbn; lia).
    destruct (IH rs1) as (Erun & Hg' & Hdom).
    + now apply good_plan_snoc.
    + intros u' Hu'. destruct (Hus u' (or_intror Hu')) as [H1 H2].
      split; [exact H1 |]. unfold rs1. rewrite map_app. cbn [map fst].
      intros Hin. apply in_app_or in Hin as [Hin | [Heq | []]]; [contradiction |].
      apply Hfirst. rewrite Heq. now apply in_map.
    + exact Hnd'.
    + rewrite Hlen in Erun, Hg', Hdom.
      replace (k + S (List.length rs))%nat with (S (k + List.length rs)) in * by lia.
      unfold rs1 in Erun, Hg'. rewrite <- app_assoc in Erun, Hg'. cbn [app] in Erun, Hg'.
      split; [exact Erun |]. split; [exact Hg' |]. cbn [map fst]. now rewrite Hdom.
Qed.
End IsNilLoop.

Section IsNilPass.
Import IR Optimizer.
Variable typeOfOperand : value -> ty.
Variable m : module.
Hypothesis Hwf : wf_module m = true.
Hypothesis Htyped : isnil_typed typeOfOperand m = true.

Lemma rewrite_inst_id i : rewrite_inst (plan_value []) i = i.
Proof.
  destruct i as [id op ops t]. unfold rewrite_inst. cbn [iid iop ioperands ity].
  f_equal. rewrite <- (map_id ops) at 2. apply map_ext.
  intros v. now destruct v.
Qed.

Lemma lowered_nil : lowered [] m = m.
Proof.
  unfold lowered. cbn [List.length]. rewrite Nat.add_0_r.
  rewrite (map_blocks_id (map (plan_inst [])) m).
  - now destruct m.
  - intros b. rewrite <- (map_id b) at 2. apply map_ext. intros i.
    unfold plan_inst. cbn. apply rewrite_inst_id.
Qed.

Lemma NamedFunction_lowered rs name :
  NamedFunction (lowered rs m) name = NamedFunction m name.
Proof.
  rewrite <- (NamedFunction_map_blocks (map (plan_inst rs)) m name). reflexivity.
Qed.

Lemma uses_value_rewrite rs name i :
  uses_value (VFunc name) (rewrite_inst (plan_value rs) i) = uses_value (VFunc name) i.
Proof.
  unfold uses_value, rewrite_inst. cbn [ioperands].
  induction (ioperands i) as [| v l IH]; [reflexivity |]. cbn [map existsb].
  rewrite IH. f_equal.
  destruct v as [| y | | | | |]; try reflexivity.
  cbn [plan_value]. destruct (planned rs y); reflexivity.
Qed.

Lemma plan_entry :
  forall us k0,
    NoDup (map iid us) ->
    (forall u, In u us ->
       exists p t, strip_bitcast m (Operand u 0) = Done p /\
                   TypeOf typeOfOperand m p = Done t) ->
    forall u, In u us ->
      exists p t id,
        strip_bitcast m (Operand u 0) = Done p /\
        TypeOf typeOfOperand m p = Done t /\ (k0 <= id)%nat /\
        planned (isnil_plan typeOfOperand m k0 us) (iid u)
        = Some (isnil_icmp id p t).
Proof.
  induction us as [| u0 us IH]; intros k0 Hnd Hok u Hu; [contradiction |].
  inversion Hnd as [| ? ? Hfirst Hnd']; subst.
  destruct (Hok u0 (or_introl eq_refl)) as (p0 & t0 & Hs0 & Ht0).
  cbn [isnil_plan]. rewrite Hs0. cbn [bind]. rewrite Ht0. cbn [bind].
  unfold planned. cbn [find fst].
  destruct Hu as [<- | Hu].
  - rewrite Nat.eqb_refl. cbn [option_map snd]. exists p0, t0, k0. auto.
  - replace (Nat.eqb (iid u0) (iid u)) with false.
    + destruct (IH (S k0) Hnd' (fun x Hx => Hok x (or_intror Hx)) u Hu)
        as (p & t & id & Hs & Ht & Hid & Hp).
      exists p, t, id. repeat split; auto. lia.
    + symmetry. apply Nat.eqb_neq. intros Heq. apply Hfirst. rewrite Heq.
      now apply in_map.
Qed.

End IsNilPass.

Section IsNilExample.
Import IR Optimizer Examples.

End IsNilExample.

(** ** The driver from end to end *)

Section DriverOutcomes.
Import Driver.
Local Open Scope Z_scope.

Variable M : Type.
Variable run : config -> pass -> M -> outcome M.
Variable run_err : config -> pass -> M -> outcome (M * bool).

(** Every pass returns (none panics). *)
Hypothesis run_returns : forall cfg p m, exists m', run cfg p m = Done m'.
Hypothesis run_err_returns : forall cfg p m, exists m' ok, run_err cfg p m = Done (m', ok).

Ltac run_pass H :=
  match goal with
  | |- context [step run ?cfg ?p ?st] =>
      let st' := fresh "st" in
      let E := fresh "E" in
      destruct (step_trace M run run_returns cfg p st) as (st' & E & H);
      rewrite E; clear E; cbn [bind]
  end.

Lemma go_passes_lowering cfg st :
  exists st' ok,
    go_passes run run_err cfg st = Done (st', ok) /\
    trace st' = trace st
                ++ (if 0 <? optLevel cfg then go_schedule
                    else [LowerInterfaces; LowerFuncValues; LowerGoroutines]) /\
    exists st0, attempt run_err cfg LowerGoroutines st0 = Done (st', ok).
Proof.
  destruct (0 <? optLevel cfg) eqn:Hopt.
  - unfold go_passes. rewrite Hopt.
    run_pass T1. run_pass T2. run_pass T3. run_pass T4. run_pass T5.
    run_pass T6. run_pass T7. run_pass T8. run_pass T9. run_pass T10.
    match goal with
    | |- context [attempt run_err cfg LowerGoroutines ?s] =>
        destruct (attempt_trace M run_err run_err_returns cfg LowerGoroutines s)
          as (st' & ok & E & T11); exists st', ok; split; [exact E |];
        split; [| exists s; exact E]
    end.
    rewrite T11, T10, T9, T8, T7, T6, T5, T4, T3, T2, T1.
    unfold go_schedule. now rewrite <- !app_assoc.
  - unfold go_passes. rewrite Hopt.
    run_pass T1. run_pass T2.
    match goal with
    | |- context [attempt run_err cfg LowerGoroutines ?s] =>
        destruct (attempt_trace M run_err run_err_returns cfg LowerGoroutines s)
          as (st' & ok & E & T3); exists st', ok; split; [exact E |];
        split; [| exists s; exact E]
    end.
    rewrite T3, T2, T1. now rewrite <- !app_assoc.
Qed.

Lemma trap_step cfg st :
  exists st0,
    (if String.eqb (PanicStrategy cfg) "trap"
     then step run cfg ReplacePanicsWithTrap st else Done st) = Done st0 /\
    trace st0 = trace st
                ++ (if String.eqb (PanicStrategy cfg) "trap"
                    then [ReplacePanicsWithTrap] else []).
Proof.
  destruct (String.eqb (PanicStrategy cfg) "trap").
  - apply (step_trace M run run_returns).
  - exists st. split; [reflexivity | now rewrite app_nil_r].
Qed.

Lemma optsize_step cfg st :
  exists st0,
    (if 2 <=? sizeLevel cfg then step run cfg AddOptsize st else Done st) = Done st0 /\
    trace st0 = trace st ++ (if 2 <=? sizeLevel cfg then [AddOptsize] else []).
Proof.
  destruct (2 <=? sizeLevel cfg).
  - apply (step_trace M run run_returns).
  - exists st. split; [reflexivity | now rewrite app_nil_r].
Qed.

(** The run of the driver up to the first verification. *)
Lemma Optimize_lowering cfg st :
  exists st2 ok,
    (st0 <- (if String.eqb (PanicStrategy cfg) "trap"
             then step run cfg ReplacePanicsWithTrap st else Done st) ;;
     st1 <- step run cfg FuncPasses st0 ;;
     go_passes run run_err cfg st1)%outcome = Done (st2, ok) /\
    trace st2 = trace st ++ lowering_schedule cfg /\
    exists st0, attempt run_err cfg LowerGoroutines st0 = Done (st2, ok).
Proof.
  destruct (trap_step cfg st) as (st0 & -> & T0). cbn [bind].
  run_pass T1.
  destruct (go_passes_lowering cfg st1) as (st2 & ok & -> & T2 & Hlast).
  exists st2, ok. split; [reflexivity |]. split; [| exact Hlast].
  rewrite T2, T1, T0. unfold lowering_schedule. now rewrite <- !app_assoc.
Qed.

(** The run of the driver after a first verification that passed. *)
Lemma Optimize_closing cfg st :
  exists st' (ok : bool),
    (st4 <- (if 2 <=? sizeLevel cfg then step run cfg AddOptsize st else Done st) ;;
     st5 <- step run cfg FuncPasses st4 ;;
     st6 <- step run cfg ModPasses st5 ;;
     if gcIsPrecise cfg then
       st7 <- step run cfg AddGlobalsBitmap st6 ;;
       '(st8, ok) <- attempt run_err cfg Verify st7 ;;
       if negb ok
       then Done (st8, Some "GC pass caused a verification failure"%string)
       else Done (st8, None)
     else Done (st6, None))%outcome
    = Done (st', if ok then None
                 else Some "GC pass caused a verification failure"%string) /\
    trace st' = trace st ++ closing_schedule cfg /\
    (ok = false -> gcIsPrecise cfg = true) /\
    (gcIsPrecise cfg = true ->
     exists st0, attempt run_err cfg Verify st0 = Done (st', ok)).
Proof.
  destruct (optsize_step cfg st) as (st4 & -> & T4). cbn [bind].
  run_pass T5. run_pass T6. unfold closing_schedule.
  destruct (gcIsPrecise cfg).
  - run_pass T7.
    destruct (attempt_trace M run_err run_err_returns cfg Verify st2)
      as (st8 & ok & E & T8).
    rewrite E. cbn [bind]. exists st8, ok. split; [now destruct ok |].
    split; [| split; [auto | intros _; now exists st2]].
    rewrite T8, T7, T6, T5, T4. now rewrite <- !app_assoc.
  - exists st1, true. split; [reflexivity |].
    split; [| split; discriminate].
    rewrite T6, T5, T4. rewrite app_nil_r. now rewrite <- !app_assoc.
Qed.

(** X21: [Optimize] ends in one of four ways.  It returns an error right after
    [LowerGoroutines] when that fails, with no verification run; the error
    of the first verification right after it, with none of the closing
    passes run; the error of the verification of the GC pass after the
    whole schedule; or no error after the whole schedule. *)
Theorem Optimize_outcomes cfg st :
  exists st' err,
    Optimize run run_err cfg st = Done (st', err) /\
    ((err <> None /\
      err <> Some "optimizations caused a verification failure"%string /\
      err <> Some "GC pass caused a verification failure"%string /\
      trace st' = trace st ++ lowering_schedule cfg) \/
     (err = Some "optimizations caused a verification failure"%string /\
      trace st' = trace st ++ lowering_schedule cfg ++ [Verify]) \/
     (err = Some "GC pass caused a verification failure"%string /\
      gcIsPrecise cfg = true /\
      trace st' = trace st ++ schedule cfg) \/
     (err = None /\ trace st' = trace st ++ schedule cfg)).
Proof.
  unfold Optimize.
  destruct (Optimize_lowering cfg st) as (st2 & ok & E & T2 & _).
  destruct (trap_step cfg st) as (st0 & E0 & _). rewrite E0 in E |- *. cbn [bind] in E |- *.
  destruct (step_trace M run run_returns cfg FuncPasses st0) as (st1 & E1 & _).
  rewrite E1 in E |- *. cbn [bind] in E |- *. rewrite E. cbn [bind].
  destruct ok; cbn [negb].
  2:{ do 2 eexists. split; [reflexivity |]. left.
      repeat split; try discriminate. exact T2. }
  destruct (attempt_trace M run_err run_err_returns cfg Verify st2)
    as (st3 & ok & -> & T3). cbn [bind].
  destruct ok; cbn [negb].
  2:{ do 2 eexists. split; [reflexivity |]. right. left.
      split; [reflexivity |]. rewrite T3, T2. now rewrite <- app_assoc. }
  destruct (Optimize_closing cfg st3) as (st' & ok & E' & T' & Hgc & _).
  rewrite E'. exists st'. eexists. split; [reflexivity |].
  assert (Hfull : trace st' = trace st ++ schedule cfg).
  { rewrite T', T3, T2. unfold schedule. now rewrite <- !app_assoc. }
  destruct ok.
  - right. right. right. split; [reflexivity | exact Hfull].
  - right. right. left. split; [reflexivity |]. split; [now apply Hgc | exact Hfull].
Qed.
End DriverOutcomes.

Section DriverVerdicts.
Import Driver.
Local Open Scope Z_scope.

Variable M : Type.
Variable run : config -> pass -> M -> outcome M.
Variable run_err : config -> pass -> M -> outcome (M * bool).
Variable cfg : config.

Hypothesis run_returns : forall cfg p m, exists m', run cfg p m = Done m'.
Hypothesis run_err_returns : forall cfg p m, exists m' ok, run_err cfg p m = Done (m', ok).

Lemma attempt_verdict (b : bool) p st0 st' ok :
  (forall m m' ok', run_err cfg p m = Done (m', ok') -> ok' = b) ->
  attempt run_err cfg p st0 = Done (st', ok) -> ok = b.
Proof.
  intros Hb. unfold attempt.
  destruct (run_err cfg p (cmod st0)) as [[m' ok'] | | |] eqn:E; cbn [bind];
    try discriminate.
  intros [= _ <-]. exact (Hb _ _ _ E).
Qed.


(** X23: When the verifier rejects the module, [Optimize] returns its
    verification error right after the first verification: the optsize
    attribute, the second run of the function passes, the module passes and
    the GC pass are never reached. *)
Theorem Optimize_stops_at_failed_verification (st : state M) :
  (forall m m' ok, run_err cfg LowerGoroutines m = Done (m', ok) -> ok = true) ->
  (forall m m' ok, run_err cfg Verify m = Done (m', ok) -> ok = false) ->
  exists st',
    Optimize run run_err cfg st
    = Done (st', Some "optimizations caused a verification failure"%string) /\
    trace st' = trace st ++ lowering_schedule cfg ++ [Verify] /\
    ~ In ModPasses (lowering_schedule cfg ++ [Verify]) /\
    ~ In AddGlobalsBitmap (lowering_schedule cfg ++ [Verify]).
Proof.
  intros Hgo Hverify. unfold Optimize.
  destruct (Optimize_lowering M run run_err run_returns run_err_returns cfg st)
    as (st2 & ok & E & T2 & (s0 & Hlast)).
  apply (attempt_verdict true) in Hlast; [subst ok | exact Hgo].
  destruct (trap_step M run run_returns cfg st) as (st0 & E0 & _).
  rewrite E0 in E |- *. cbn [bind] in E |- *.
  destruct (step_trace M run run_returns cfg FuncPasses st0) as (st1 & E1 & _).
  rewrite E1 in E |- *. cbn [bind] in E |- *. rewrite E. cbn [bind negb].
  destruct (attempt_trace M run_err run_err_returns cfg Verify st2)
    as (st3 & ok & E3 & T3).
  pose proof (attempt_verdict false _ _ _ _ Hverify E3) as ->.
  rewrite E3. cbn [bind negb]. exists st3. split; [reflexivity |].
  split; [rewrite T3, T2; now rewrite <- app_assoc |].
  unfold lowering_schedule, go_schedule.
  destruct (String.eqb (PanicStrategy cfg) "trap"), (0 <? optLevel cfg);
    cbn; split; intuition discriminate.
Qed.

(** X24: When [LowerGoroutines] fails, [Optimize] returns an error at once: the
    module is not verified and no later pass runs. *)
Theorem Optimize_stops_at_failed_lowering (st : state M) :
  (forall m m' ok, run_err cfg LowerGoroutines m = Done (m', ok) -> ok = false) ->
  exists st' e,
    Optimize run run_err cfg st = Done (st', Some e) /\
    trace st' = trace st ++ lowering_schedule cfg /\
    ~ In Verify (lowering_schedule cfg).
Proof.
  intros Hgo. unfold Optimize.
  destruct (Optimize_lowering M run run_err run_returns run_err_returns cfg st)
    as (st2 & ok & E & T2 & (s0 & Hlast)).
  apply (attempt_verdict false) in Hlast; [subst ok | exact Hgo].
  destruct (trap_step M run run_returns cfg st) as (st0 & E0 & _).
  rewrite E0 in E |- *. cbn [bind] in E |- *.
  destruct (step_trace M run run_returns cfg FuncPasses st0) as (st1 & E1 & _).
  rewrite E1 in E |- *. cbn [bind] in E |- *. rewrite E. cbn [bind negb].
  do 2 eexists. split; [reflexivity |]. split; [exact T2 |].
  unfold lowering_schedule, go_schedule.
  destruct (String.eqb (PanicStrategy cfg) "trap"), (0 <? optLevel cfg);
    cbn; intuition discriminate.
Qed.
End DriverVerdicts.

(** ** Instances on the example modules *)

Section AllocWitnesses.
Import IR Optimizer Examples.
Local Open Scope Z_scope.

Lemma sizeInWords_ceiling_witness :
  4 * (sizeInWords 4 13 - 1) < 13 <= 4 * sizeInWords 4 13.
Proof. apply (sizeInWords_ceiling 4 13); lia. Defined.

End AllocWitnesses.

Section DriverWitnesses.
Import Driver.
Local Open Scope Z_scope.

Lemma Optimize_outcomes_witness :
  let cfg := {| optLevel := 0; sizeLevel := 2; inlinerThreshold := 0;
                PanicStrategy := "print"; gcIsPrecise := true |} in
  let run := fun (_ : config) (_ : pass) (m : unit) => Done m in
  let run_err := fun (_ : config) (_ : pass) (m : unit) => Done (m, true) in
  let st := {| cmod := tt; trace := [] |} in
  exists st' err,
    Optimize run run_err cfg st = Done (st', err) /\
    ((err <> None /\
      err <> Some "optimizations caused a verification failure"%string /\
      err <> Some "GC pass caused a verification failure"%string /\
      trace st' = trace st ++ lowering_schedule cfg) \/
     (err = Some "optimizations caused a verification failure"%string /\
      trace st' = trace st ++ lowering_schedule cfg ++ [Verify]) \/
     (err = Some "GC pass caused a verification failure"%string /\
      gcIsPrecise cfg = true /\
      trace st' = trace st ++ schedule cfg) \/
     (err = None /\ trace st' = trace st ++ schedule cfg)).
Proof.
  intros cfg run run_err st.
  apply (Optimize_outcomes unit run run_err); unfold run, run_err.
  - intros _ _ m. now exists m.
  - intros _ _ m. now exists m, true.
Defined.


Lemma Optimize_stops_at_failed_verification_witness :
  let cfg := {| optLevel := 1; sizeLevel := 2; inlinerThreshold := 0;
                PanicStrategy := "trap"; gcIsPrecise := true |} in
  let run := fun (_ : config) (_ : pass) (m : unit) => Done m in
  let run_err := fun (_ : config) (p : pass) (m : unit) =>
                   Done (m, match p with Verify => false | _ => true end) in
  let st := {| cmod := tt; trace := [] |} in
  exists st',
    Optimize run run_err cfg st
    = Done (st', Some "optimizations caused a verification failure"%string) /\
    trace st' = trace st ++ lowering_schedule cfg ++ [Verify] /\
    ~ In ModPasses (lowering_schedule cfg ++ [Verify]) /\
    ~ In AddGlobalsBitmap (lowering_schedule cfg ++ [Verify]).
Proof.
  intros cfg run run_err st.
  apply (Optimize_stops_at_failed_verification unit run run_err cfg);
    unfold run, run_err.
  - intros _ _ m. now exists m.
  - intros _ p m. now exists m, (match p with Verify => false | _ => true end).
  - intros m m' ok [= _ <-]. reflexivity.
  - intros m m' ok [= _ <-]. reflexivity.
Defined.

Lemma Optimize_stops_at_failed_lowering_witness :
  let cfg := {| optLevel := 1; sizeLevel := 2; inlinerThreshold := 0;
                PanicStrategy := "trap"; gcIsPrecise := true |} in
  let run := fun (_ : config) (_ : pass) (m : unit) => Done m in
  let run_err := fun (_ : config) (p : pass) (m : unit) =>
                   Done (m, match p with LowerGoroutines => false | _ => true end) in
  let st := {| cmod := tt; trace := [] |} in
  exists st' e,
    Optimize run run_err cfg st = Done (st', Some e) /\
    trace st' = trace st ++ lowering_schedule cfg /\
    ~ In Verify (lowering_schedule cfg).
Proof.
  intros cfg run run_err st.
  apply (Optimize_stops_at_failed_lowering unit run run_err cfg);
    unfold run, run_err.
  - intros _ _ m. now exists m.
  - intros _ p m. now exists m, (match p with LowerGoroutines => false | _ => true end).
  - intros m m' ok [= _ <-]. reflexivity.
Defined.
End DriverWitnesses.
